(** * checked-c-convert: constraint generation and rewrite planning

  A shallow embedding of the constraint builder (ConstraintBuilder.cpp),
  of the data declared in ProgramInfo.h and of the rewrite planner
  (CheckedCConvert.cpp), with the properties of the specification that
  concern them.

  Clang's AST, its Rewriter and LLVM's path and file-system layer are
  external to the tool: they appear as small inductive types and functions
  that keep exactly what the visitors inspect.  Constraints.h,
  ProgramInfo.cpp and PersistentSourceLoc.h belong to the tool but are not
  among the three files embedded here; what is needed of them is either a
  section variable or a definition marked "Modelled from the spec". *)

From Stdlib Require Import ZArith Ascii String List Bool Lia.
From stdpp Require Import base decidable option list strings gmap.

Local Open Scope string_scope.
Local Open Scope list_scope.

Set Warnings "-register-all".

(* ===================================================================== *)
(** ** Qualifier lattice, atoms and constraints *)
(* ===================================================================== *)

Module Lattice.

(** Modelled from the spec: the four constant atoms of Constraints.h,
    ordered Ptr <= Arr <= NTArr <= Wild. *)
Inductive ConstAtom : Type := Ptr | Arr | NTArr | Wild.

#[global] Instance ConstAtom_eq_dec : EqDecision ConstAtom.
Proof. solve_decision. Defined.

Definition rank (c : ConstAtom) : nat :=
  match c with Ptr => 0 | Arr => 1 | NTArr => 2 | Wild => 3 end.

Definition leb (a b : ConstAtom) : bool := Nat.leb (rank a) (rank b).
Definition ltb (a b : ConstAtom) : bool := Nat.ltb (rank a) (rank b).
Definition eqb (a b : ConstAtom) : bool := Nat.eqb (rank a) (rank b).

Definition le (a b : ConstAtom) : Prop := rank a <= rank b.

Definition lub (a b : ConstAtom) : ConstAtom :=
  if leb a b then b else a.

Lemma rank_inj a b : rank a = rank b -> a = b.
Proof. destruct a, b; simpl; congruence. Qed.

Lemma rank_bound a : rank a <= 3.
Proof. destruct a; simpl; lia. Qed.

Lemma eqb_eq a b : eqb a b = true <-> a = b.
Proof.
  unfold eqb. rewrite Nat.eqb_eq. split; [apply rank_inj | now intros ->].
Qed.

Lemma rank_lub a b : rank (lub a b) = Nat.max (rank a) (rank b).
Proof.
  unfold lub, leb. destruct (Nat.leb_spec (rank a) (rank b)); lia.
Qed.

Lemma le_refl a : le a a.
Proof. unfold le; lia. Qed.

Lemma le_trans a b c : le a b -> le b c -> le a c.
Proof. unfold le; lia. Qed.

Lemma le_lub_l a b : le a (lub a b).
Proof. unfold le; rewrite rank_lub; lia. Qed.

Lemma le_lub_r a b : le b (lub a b).
Proof. unfold le; rewrite rank_lub; lia. Qed.

Lemma le_Wild a : le a Wild.
Proof. unfold le; simpl; apply rank_bound. Qed.

Lemma Wild_le a : le Wild a -> a = Wild.
Proof. unfold le; destruct a; simpl; intros; trivial; lia. Qed.

Lemma lub_Wild_r a : lub a Wild = Wild.
Proof. now destruct a. Qed.

Lemma lub_Wild_l a : lub Wild a = Wild.
Proof. now destruct a. Qed.

End Lattice.
Export Lattice.

Module Constraints.

(** Modelled from the spec: an atom is a constant or a qualifier
    variable identified by an integer (the uint32_t keys of CVars). *)
Inductive Atom : Type :=
| AConst (c : ConstAtom)
| AVar (q : nat).

(** Modelled from the spec: the three relations of the constraint
    language. *)
Inductive Constraint : Type :=
| Eq (a b : Atom)
| Not (c : Constraint)
| Implies (p q : Constraint).

#[global] Instance Atom_eq_dec : EqDecision Atom.
Proof. solve_decision. Defined.

#[global] Instance Constraint_eq_dec : EqDecision Constraint.
Proof. solve_decision. Defined.

(** The store: addConstraint only ever adds. *)
Definition ConstraintSet := list Constraint.

Definition addConstraint (CS : ConstraintSet) (c : Constraint) : ConstraintSet :=
  CS ++ [c].

Definition createEq (a b : Atom) : Constraint := Eq a b.
Definition createNot (c : Constraint) : Constraint := Not c.
Definition getOrCreateVar (q : nat) : Atom := AVar q.
Definition getWild : Atom := AConst Wild.
Definition getArr : Atom := AConst Arr.
Definition getPtr : Atom := AConst Ptr.

(** Qualifier variables mentioned by a constraint. *)
Definition atom_vars (a : Atom) : list nat :=
  match a with AVar q => [q] | AConst _ => [] end.

Fixpoint constraint_vars (c : Constraint) : list nat :=
  match c with
  | Eq a b => atom_vars a ++ atom_vars b
  | Not c => constraint_vars c
  | Implies p q => constraint_vars p ++ constraint_vars q
  end.

Definition store_vars (CS : ConstraintSet) : list nat :=
  flat_map constraint_vars CS.

(** Constant atoms mentioned by a constraint. *)
Definition atom_consts (a : Atom) : list ConstAtom :=
  match a with AVar _ => [] | AConst c => [c] end.

Fixpoint constraint_consts (c : Constraint) : list ConstAtom :=
  match c with
  | Eq a b => atom_consts a ++ atom_consts b
  | Not c => constraint_consts c
  | Implies p q => constraint_consts p ++ constraint_consts q
  end.

End Constraints.
Export Constraints.

(* ===================================================================== *)
(** ** The solver *)
(* ===================================================================== *)

Module Solver.

(** The solver's output: every qualifier variable has a constant. *)
Definition Assignment := nat -> ConstAtom.

(** Modelled from the spec: step 1, every qualifier variable starts at
    Ptr. *)
Definition init : Assignment := fun _ => Ptr.

(** Modelled from the spec: get_const is the identity on constants. *)
Definition val (s : Assignment) (a : Atom) : ConstAtom :=
  match a with AConst c => c | AVar q => s q end.

(** Modelled from the spec: raising an endpoint; a constant stays as it
    is. *)
Definition raise (s : Assignment) (a : Atom) (c : ConstAtom) : Assignment :=
  match a with
  | AVar q => fun x => if Nat.eqb x q then lub (s q) c else s x
  | AConst _ => s
  end.

(** Modelled from the spec: whether a constraint holds under the current
    assignment, for the premise of an Implies. *)
Fixpoint entailed (s : Assignment) (c : Constraint) : bool :=
  match c with
  | Eq a b => Lattice.eqb (val s a) (val s b)
  | Not c => negb (entailed s c)
  | Implies p q => implb (entailed s p) (entailed s q)
  end.

(** Modelled from the spec: step 2, one constraint processed.  Eq raises
    both endpoints to their maximum, Not(Eq(qv, Ptr)) raises qv to at
    least Arr, Implies applies its conclusion when its premise is
    entailed. *)
Fixpoint apply (c : Constraint) (s : Assignment) : Assignment :=
  match c with
  | Eq a b =>
      let m := lub (val s a) (val s b) in
      raise (raise s a m) b m
  | Not (Eq (AVar q) (AConst Ptr)) => raise s (AVar q) Arr
  | Not _ => s
  | Implies p q => if entailed s p then apply q s else s
  end.

(** Modelled from the spec: one round over the store. *)
Definition pass (s : Assignment) (CS : ConstraintSet) : Assignment :=
  fold_left (fun s c => apply c s) CS s.

Definition changed (vars : list nat) (s s' : Assignment) : bool :=
  existsb (fun q => negb (Lattice.eqb (s q) (s' q))) vars.

(** Modelled from the spec: step 3, repeat until no change.  A pass can
    only raise a value and each variable can be raised three times, so
    the number of passes is bounded. *)
Fixpoint iterate (fuel : nat) (CS : ConstraintSet) (s : Assignment) : Assignment :=
  match fuel with
  | O => s
  | S fuel' =>
      let s' := pass s CS in
      if changed (store_vars CS) s s' then iterate fuel' CS s' else s'
  end.

(** Modelled from the spec: solve() of Constraints.cpp, the least
    assignment reached from Ptr everywhere. *)
Definition solve (CS : ConstraintSet) : Assignment :=
  iterate (S (3 * length (store_vars CS))) CS init.

(** *** Every step only raises *)

Lemma raise_inflationary s a c q : le (s q) (raise s a c q).
Proof.
  destruct a as [k|v]; simpl; [apply le_refl|].
  destruct (Nat.eqb_spec q v) as [->|_]; [apply le_lub_l | apply le_refl].
Qed.

Lemma raise_var_reaches s v c : le c (raise s (AVar v) c v).
Proof. simpl. rewrite Nat.eqb_refl. apply le_lub_r. Qed.

Lemma apply_inflationary c : forall s q, le (s q) (apply c s q).
Proof.
  induction c as [a b|c IH|p IHp r IHr]; intros s q; simpl.
  - eapply le_trans; apply raise_inflationary.
  - destruct c as [[k|v] [[| | |]|w]| |]; try apply le_refl.
    apply (raise_inflationary s (AVar v)).
  - destruct (entailed s p); [apply IHr | apply le_refl].
Qed.

Lemma pass_inflationary CS : forall s q, le (s q) (pass s CS q).
Proof.
  unfold pass. induction CS as [|c CS IH]; intros s q; simpl.
  - apply le_refl.
  - eapply le_trans; [apply (apply_inflationary c) | apply IH].
Qed.

Lemma iterate_inflationary CS fuel : forall s q, le (s q) (iterate fuel CS s q).
Proof.
  induction fuel as [|fuel IH]; intros s q; simpl.
  - apply le_refl.
  - destruct (changed _ _ _).
    + eapply le_trans; [apply pass_inflationary | apply IH].
    + apply pass_inflationary.
Qed.

Lemma iterate_after_pass CS fuel s q :
  le (pass s CS q) (iterate (S fuel) CS s q).
Proof.
  simpl. destruct (changed _ _ _); [apply iterate_inflationary | apply le_refl].
Qed.

(** *** What one constraint guarantees after a pass *)

Lemma apply_Eq_var_const s v k : le k (apply (Eq (AVar v) (AConst k)) s v).
Proof.
  simpl. rewrite Nat.eqb_refl. eapply le_trans; [|apply le_lub_r]. apply le_lub_r.
Qed.

Lemma pass_Eq_var_const CS v k s :
  In (Eq (AVar v) (AConst k)) CS -> le k (pass s CS v).
Proof.
  intros Hin. apply in_split in Hin as (l1 & l2 & ->).
  unfold pass. rewrite fold_left_app. simpl.
  eapply le_trans; [|apply (pass_inflationary l2)].
  apply apply_Eq_var_const.
Qed.

Lemma solve_Eq_var_const CS v k :
  In (Eq (AVar v) (AConst k)) CS -> le k (solve CS v).
Proof.
  intros Hin. unfold solve.
  eapply le_trans; [|apply iterate_after_pass].
  now apply pass_Eq_var_const.
Qed.

Lemma solve_Eq_var_Wild CS v :
  In (Eq (AVar v) (AConst Wild)) CS -> solve CS v = Wild.
Proof. intros Hin. apply Wild_le. now apply solve_Eq_var_const. Qed.

(** *** The iteration stops at a fixpoint *)

Definition agree (s s' : Assignment) : Prop := forall x, s x = s' x.

Lemma val_ext s s' a : agree s s' -> val s a = val s' a.
Proof. intros H; destruct a; simpl; auto. Qed.

Lemma raise_ext s s' a c : agree s s' -> agree (raise s a c) (raise s' a c).
Proof.
  intros H x. destruct a as [k|v]; simpl; auto.
  rewrite (H v), (H x). reflexivity.
Qed.

Lemma entailed_ext c : forall s s', agree s s' -> entailed s c = entailed s' c.
Proof.
  induction c as [a b|c IH|p IHp r IHr]; intros s s' H; simpl.
  - now rewrite (val_ext s s' a H), (val_ext s s' b H).
  - now rewrite (IH s s' H).
  - now rewrite (IHp s s' H), (IHr s s' H).
Qed.

Lemma apply_ext c : forall s s', agree s s' -> agree (apply c s) (apply c s').
Proof.
  induction c as [a b|c IH|p IHp r IHr]; intros s s' H; simpl.
  - rewrite (val_ext s s' a H), (val_ext s s' b H).
    now apply raise_ext, raise_ext.
  - destruct c as [[k|v] [[| | |]|w]| |]; auto.
    now apply (raise_ext s s' (AVar v)).
  - rewrite (entailed_ext p s s' H). destruct (entailed s' p); auto.
Qed.

Lemma pass_ext CS : forall s s', agree s s' -> agree (pass s CS) (pass s' CS).
Proof.
  unfold pass. induction CS as [|c CS IH]; intros s s' H; simpl; auto.
  apply IH. now apply apply_ext.
Qed.

Lemma raise_frame s a c q : ~ In q (atom_vars a) -> raise s a c q = s q.
Proof.
  destruct a as [k|v]; simpl; auto. intros Hq.
  destruct (Nat.eqb_spec q v) as [->|_]; tauto.
Qed.

Lemma apply_frame c : forall s q, ~ In q (constraint_vars c) -> apply c s q = s q.
Proof.
  induction c as [a b|c IH|p IHp r IHr]; intros s q Hq; simpl in *.
  - rewrite in_app_iff in Hq. rewrite !raise_frame; tauto.
  - destruct c as [[k|v] [[| | |]|w]| |]; auto.
    apply (raise_frame s (AVar v)). simpl in *. tauto.
  - rewrite in_app_iff in Hq. destruct (entailed s p); auto.
Qed.

Lemma pass_frame CS : forall s q, ~ In q (store_vars CS) -> pass s CS q = s q.
Proof.
  unfold pass, store_vars. induction CS as [|c CS IH]; intros s q Hq; simpl in *; auto.
  rewrite in_app_iff in Hq. rewrite IH by tauto. apply apply_frame. tauto.
Qed.

Lemma changed_false vars s s' :
  changed vars s s' = false -> forall q, In q vars -> s q = s' q.
Proof.
  unfold changed. intros H q Hq.
  destruct (ConstAtom_eq_dec (s q) (s' q)) as [|Hne]; auto.
  assert (existsb (fun q => negb (Lattice.eqb (s q) (s' q))) vars = true) as Ht.
  { apply existsb_exists. exists q. split; auto.
    apply negb_true_iff. destruct (Lattice.eqb (s q) (s' q)) eqn:E; auto.
    apply Lattice.eqb_eq in E. contradiction. }
  congruence.
Qed.

Lemma changed_true vars s s' :
  changed vars s s' = true -> exists q, In q vars /\ s q <> s' q.
Proof.
  unfold changed. intros H. apply existsb_exists in H as (q & Hq & Hneq).
  exists q. split; auto. intros Heq.
  apply negb_true_iff in Hneq.
  assert (Lattice.eqb (s q) (s' q) = true) by now apply Lattice.eqb_eq.
  congruence.
Qed.

(** The measure that bounds the number of passes. *)
Definition height (l : list nat) (s : Assignment) : nat :=
  fold_right (fun q acc => rank (s q) + acc) 0 l.

Lemma height_bound l s : height l s <= 3 * length l.
Proof.
  induction l as [|q l IH]; simpl; [lia|]. pose proof (rank_bound (s q)). lia.
Qed.

Lemma height_mono l s s' :
  (forall q, le (s q) (s' q)) -> height l s <= height l s'.
Proof.
  intros H. induction l as [|q l IH]; simpl; [lia|]. specialize (H q). unfold le in H. lia.
Qed.

Lemma height_strict l s s' q :
  (forall q, le (s q) (s' q)) -> In q l -> s q <> s' q -> height l s < height l s'.
Proof.
  intros H. induction l as [|x l IH]; simpl; [tauto|].
  intros [->|Hin] Hne.
  - pose proof (height_mono l s s' H). pose proof (H q) as Hq. unfold le in Hq.
    assert (rank (s q) <> rank (s' q)) by (intros E; apply Hne, rank_inj, E). lia.
  - specialize (IH Hin Hne). pose proof (H x) as Hx. unfold le in Hx. lia.
Qed.

Lemma iterate_fixpoint CS : forall fuel s,
  3 * length (store_vars CS) < fuel + height (store_vars CS) s ->
  agree (pass (iterate fuel CS s) CS) (iterate fuel CS s).
Proof.
  induction fuel as [|fuel IH]; intros s Hfuel.
  - pose proof (height_bound (store_vars CS) s). simpl in Hfuel. lia.
  - simpl. destruct (changed (store_vars CS) s (pass s CS)) eqn:Hch.
    + apply IH. apply changed_true in Hch as (q & Hq & Hne).
      pose proof (height_strict (store_vars CS) s (pass s CS) q
                    (pass_inflationary CS s) Hq Hne). lia.
    + assert (agree (pass s CS) s) as Hsame.
      { intros x. destruct (in_dec Nat.eq_dec x (store_vars CS)) as [Hin|Hout].
        - symmetry. now apply (changed_false _ _ _ Hch).
        - now apply pass_frame. }
      intros x. rewrite (pass_ext CS _ _ Hsame x). reflexivity.
Qed.

(** The solver stops because nothing changes any more, never because the
    bound on the number of passes was reached. *)
Lemma solve_fixpoint CS : agree (pass (solve CS) CS) (solve CS).
Proof. unfold solve. apply iterate_fixpoint. lia. Qed.

End Solver.

(* ===================================================================== *)
(** ** The part of Clang's AST that the visitors inspect *)
(* ===================================================================== *)

Module Clang.

Inductive QualType : Type :=
| TVoid
| TInt
| TChar
| TPointer (pointee : QualType)
| TArray (elem : QualType) (size : option nat)
| TRecord (name : string)
| TTypedef (name : string) (underlying : QualType)
| TFunction (ret : QualType) (params : list QualType).

(** The is...Type predicates look through typedefs (they test the
    canonical type). *)
Fixpoint isPointerType (t : QualType) : bool :=
  match t with
  | TPointer _ => true
  | TTypedef _ u => isPointerType u
  | _ => false
  end.

Fixpoint isArrayType (t : QualType) : bool :=
  match t with
  | TArray _ _ => true
  | TTypedef _ u => isArrayType u
  | _ => false
  end.

Fixpoint isVoidType (t : QualType) : bool :=
  match t with
  | TVoid => true
  | TTypedef _ u => isVoidType u
  | _ => false
  end.

(** The printed form of a type; a typedef prints as its name. *)
Fixpoint getAsString (t : QualType) : string :=
  match t with
  | TVoid => "void"
  | TInt => "int"
  | TChar => "char"
  | TPointer p => getAsString p +:+ " *"
  | TArray e _ => getAsString e +:+ " []"
  | TRecord n => "struct " +:+ n
  | TTypedef n _ => n
  | TFunction r _ => getAsString r +:+ " ()"
  end.

Definition getPointerType (t : QualType) : QualType := TPointer t.

(** va_list as <stdarg.h> declares it on x86-64. *)
Definition va_list : QualType :=
  TTypedef "va_list" (TArray (TRecord "__va_list_tag") (Some 1)).

Definition SourceLocation := nat.

Record PersistentSourceLoc : Type := mkPSL {
  fileName : string;
  lineNo : nat;
  colNo : nat
}.

#[global] Instance PersistentSourceLoc_eq_dec : EqDecision PersistentSourceLoc.
Proof. solve_decision. Defined.

#[global] Instance PersistentSourceLoc_countable : Countable PersistentSourceLoc.
Proof.
  refine (inj_countable' (fun p => (fileName p, lineNo p, colNo p))
                         (fun t => mkPSL t.1.1 t.1.2 t.2) _).
  now intros [].
Defined.

(** What the visitors read of a DeclaratorDecl.  declId stands for the
    identity of the node (the visitors compare Decl pointers). *)
Record DeclaratorDecl : Type := mkDecl {
  declId : nat;
  declPSL : PersistentSourceLoc;
  declName : string;
  declType : QualType;
  declValidLoc : bool;
  declInSystemHeader : bool;
  declHasBoundsExpr : bool
}.

(** One declaration of a function. *)
Record FunctionDeclData : Type := mkFunctionDeclData {
  fnDecl : DeclaratorDecl;
  fnParams : list DeclaratorDecl;
  fnVariadic : bool;
  fnHasBodyHere : bool
}.

(** A FunctionDecl with its redeclaration chain, in the order in which
    redecls() yields it (the declaration itself comes first). *)
Record FunctionDecl : Type := mkFunctionDecl {
  fdThis : FunctionDeclData;
  fdRedecls : list FunctionDeclData
}.

Definition sameFunctionDecl (a b : FunctionDeclData) : bool :=
  Nat.eqb (declId (fnDecl a)) (declId (fnDecl b)).

Definition sameDecl (a b : DeclaratorDecl) : bool :=
  Nat.eqb (declId a) (declId b).

Definition getNumParams (FD : FunctionDecl) : nat := length (fnParams (fdThis FD)).
Definition isVariadic (FD : FunctionDecl) : bool := fnVariadic (fdThis FD).

(** FunctionDecl::hasBody(Definition): the first redeclaration that has a
    body. *)
Definition hasBody (FD : FunctionDecl) : option FunctionDeclData :=
  find fnHasBodyHere (fdRedecls FD).

Inductive Callee : Type :=
| CalleeFunction (FD : FunctionDecl)
| CalleeDeclarator (D : DeclaratorDecl)
| CalleeOtherDecl.

Inductive UnaryOpcode : Type :=
| UO_AddrOf | UO_Deref | UO_Minus
| UO_PreInc | UO_PostInc | UO_PreDec | UO_PostDec.

Inductive BinaryOpcode : Type :=
| BO_Assign | BO_Add | BO_Sub | BO_Mul | BO_AddAssign | BO_SubAssign.

Inductive Expr : Type :=
| DeclRefExpr (D : DeclaratorDecl) (loc : SourceLocation)
| IntegerLiteral (v : Z) (loc : SourceLocation)
| ParenExpr (sub : Expr) (lparen rparen : SourceLocation)
| ImplicitCastExpr (ty : QualType) (sub : Expr)
| CStyleCastExpr (ty : QualType) (sub : Expr) (lparen : SourceLocation)
| UnaryOperator (op : UnaryOpcode) (sub : Expr) (oploc : SourceLocation)
| BinaryOperator (op : BinaryOpcode) (lhs rhs : Expr) (oploc : SourceLocation)
| ArraySubscriptExpr (base idx : Expr) (rbracket : SourceLocation)
| CallExpr (callee : option Callee) (args : list Expr) (ty : QualType)
           (begin rparen : SourceLocation)
| SizeOfTypeExpr (argTy : QualType) (loc rparen : SourceLocation).

Definition isPostfix (op : UnaryOpcode) : bool :=
  match op with UO_PostInc | UO_PostDec => true | _ => false end.

Fixpoint getLocStart (e : Expr) : SourceLocation :=
  match e with
  | DeclRefExpr _ l | IntegerLiteral _ l => l
  | ParenExpr _ l _ => l
  | ImplicitCastExpr _ s => getLocStart s
  | CStyleCastExpr _ _ l => l
  | UnaryOperator op s l => if isPostfix op then getLocStart s else l
  | BinaryOperator _ l _ _ => getLocStart l
  | ArraySubscriptExpr b _ _ => getLocStart b
  | CallExpr _ _ _ b _ => b
  | SizeOfTypeExpr _ l _ => l
  end.

Fixpoint getLocEnd (e : Expr) : SourceLocation :=
  match e with
  | DeclRefExpr _ l | IntegerLiteral _ l => l
  | ParenExpr _ _ r => r
  | ImplicitCastExpr _ s => getLocEnd s
  | CStyleCastExpr _ s _ => getLocEnd s
  | UnaryOperator op s l => if isPostfix op then l else getLocEnd s
  | BinaryOperator _ _ r _ => getLocEnd r
  | ArraySubscriptExpr _ _ r => r
  | CallExpr _ _ _ _ r => r
  | SizeOfTypeExpr _ _ r => r
  end.

Fixpoint getExprLoc (e : Expr) : SourceLocation :=
  match e with
  | UnaryOperator _ _ l => l
  | BinaryOperator _ _ _ l => l
  | ArraySubscriptExpr b _ _ => getExprLoc b
  | _ => getLocStart e
  end.

Definition pointeeOf (t : QualType) : QualType :=
  (fix go (t : QualType) : QualType :=
     match t with
     | TPointer p => p
     | TArray e _ => e
     | TTypedef _ u => go u
     | _ => t
     end) t.

Fixpoint getType (e : Expr) : QualType :=
  match e with
  | DeclRefExpr D _ => declType D
  | IntegerLiteral _ _ => TInt
  | ParenExpr s _ _ => getType s
  | ImplicitCastExpr ty _ => ty
  | CStyleCastExpr ty _ _ => ty
  | UnaryOperator UO_AddrOf s _ => TPointer (getType s)
  | UnaryOperator UO_Deref s _ => pointeeOf (getType s)
  | UnaryOperator _ s _ => getType s
  | BinaryOperator _ l _ _ => getType l
  | ArraySubscriptExpr b _ _ => pointeeOf (getType b)
  | CallExpr _ _ ty _ _ => ty
  | SizeOfTypeExpr _ _ _ => TInt
  end.

Fixpoint IgnoreParens (e : Expr) : Expr :=
  match e with ParenExpr s _ _ => IgnoreParens s | _ => e end.

Fixpoint IgnoreImplicit (e : Expr) : Expr :=
  match e with ImplicitCastExpr _ s => IgnoreImplicit s | _ => e end.

Fixpoint IgnoreImpCasts (e : Expr) : Expr :=
  match e with ImplicitCastExpr _ s => IgnoreImpCasts s | _ => e end.

Fixpoint IgnoreCasts (e : Expr) : Expr :=
  match e with
  | ImplicitCastExpr _ s => IgnoreCasts s
  | CStyleCastExpr _ s _ => IgnoreCasts s
  | _ => e
  end.

(** Integer constant expressions: literals combined by arithmetic.  An
    expression is one only if it is of integer type: a literal converted to
    a pointer type, as the right-hand side 7 of [p = 7] is by the implicit
    cast that the parser puts around it, is not. *)
Fixpoint evaluateAsInt (e : Expr) : option Z :=
  match e with
  | IntegerLiteral v _ => Some v
  | ParenExpr s _ _ => evaluateAsInt s
  | UnaryOperator UO_Minus s _ => Z.opp <$> evaluateAsInt s
  | BinaryOperator BO_Add l r _ =>
      match evaluateAsInt l, evaluateAsInt r with
      | Some a, Some b => Some (a + b)%Z | _, _ => None end
  | BinaryOperator BO_Sub l r _ =>
      match evaluateAsInt l, evaluateAsInt r with
      | Some a, Some b => Some (a - b)%Z | _, _ => None end
  | BinaryOperator BO_Mul l r _ =>
      match evaluateAsInt l, evaluateAsInt r with
      | Some a, Some b => Some (a * b)%Z | _, _ => None end
  | _ => None
  end.

Definition isIntegerConstantExpr (e : Expr) : bool :=
  match evaluateAsInt e with Some _ => true | None => false end.

(** An integer constant expression of value zero, or such an expression
    cast to a pointer type. *)
Fixpoint isNullPointerConstant (e : Expr) : bool :=
  match e with
  | ParenExpr s _ _ => isNullPointerConstant s
  | ImplicitCastExpr _ s => isNullPointerConstant s
  | CStyleCastExpr ty s _ => isPointerType ty && isNullPointerConstant s
  | _ => match evaluateAsInt e with Some 0%Z => true | _ => false end
  end.

(** Variable declarations carry their initializer. *)
Record VarDecl : Type := mkVarDecl {
  vdDecl : DeclaratorDecl;
  isLocalVarDecl : bool;
  hasGlobalStorage : bool;
  getInit : option Expr
}.

Record DeclStmt : Type := mkDeclStmt {
  decls : list VarDecl
}.

Record RecordDecl : Type := mkRecordDecl {
  recValidLoc : bool;
  recInSystemHeader : bool;
  recFileEntryValid : bool;
  getDefinition : option (list DeclaratorDecl)
}.

End Clang.
Export Clang.

(* ===================================================================== *)
(** ** ProgramInfo.h: constraint variables and the program information *)
(* ===================================================================== *)

Module ProgramInfo.

(** CVars is a std::set<uint32_t>: it is iterated in increasing order and
    begin() is the outer-most level.  The list is that iteration
    sequence. *)
Definition CVars := list nat.

(** The two kinds of ConstraintVariable.  A std::set<ConstraintVariable*>
    is the list of its elements in iteration order. *)
Inductive ConstraintVariable : Type :=
| PVConstraint (BaseType Name : string) (vars : CVars)
               (FV : option ConstraintVariable) (arrPresent : bool)
| FVConstraint (name : string)
               (returnVars : list ConstraintVariable)
               (paramVars : list (list ConstraintVariable))
               (hasproto hasbody : bool).

Inductive ConstraintVariableKind : Type := PointerVariable | FunctionVariable.

Definition getKind (V : ConstraintVariable) : ConstraintVariableKind :=
  match V with
  | PVConstraint _ _ _ _ _ => PointerVariable
  | FVConstraint _ _ _ _ _ => FunctionVariable
  end.

(** getCvars of a dyn_cast<PVConstraint>; nothing for a function
    variable. *)
Definition getCvars (V : ConstraintVariable) : CVars :=
  match V with
  | PVConstraint _ _ vars _ _ => vars
  | FVConstraint _ _ _ _ _ => []
  end.

Definition getFV (V : ConstraintVariable) : option ConstraintVariable :=
  match V with
  | PVConstraint _ _ _ FV _ => FV
  | FVConstraint _ _ _ _ _ => None
  end.

Definition numParams (V : ConstraintVariable) : nat :=
  match V with
  | FVConstraint _ _ ps _ _ => length ps
  | PVConstraint _ _ _ _ _ => 0
  end.

Definition getParamVar (V : ConstraintVariable) (i : nat) : list ConstraintVariable :=
  match V with
  | FVConstraint _ _ ps _ _ => nth i ps []
  | PVConstraint _ _ _ _ _ => []
  end.

Definition getReturnVars (V : ConstraintVariable) : list ConstraintVariable :=
  match V with
  | FVConstraint _ rs _ _ _ => rs
  | PVConstraint _ _ _ _ _ => []
  end.

(** Adding Eq(q, C) for each q of a CVars, in order. *)
Definition constrainVars (vars : CVars) (C : Atom) (CS : ConstraintSet) : ConstraintSet :=
  fold_left (fun cs q => addConstraint cs (createEq (getOrCreateVar q) C)) vars CS.

(** Modelled from the spec: ConstraintVariable::constrainTo, declared in
    ProgramInfo.h ("constrain everything within this ConstraintVariable
    to be equal to C") and defined in ProgramInfo.cpp: every level of a
    pointer variable and of its function part, every return and parameter
    variable of a function variable. *)
Fixpoint constrainTo (V : ConstraintVariable) (C : Atom) (CS : ConstraintSet)
  {struct V} : ConstraintSet :=
  match V with
  | PVConstraint _ _ vars FV _ =>
      let CS1 := constrainVars vars C CS in
      match FV with
      | Some F => constrainTo F C CS1
      | None => CS1
      end
  | FVConstraint _ rs ps _ _ =>
      let CS1 :=
        (fix each (l : list ConstraintVariable) (cs : ConstraintSet) : ConstraintSet :=
           match l with
           | [] => cs
           | U :: l' => each l' (constrainTo U C cs)
           end) rs CS in
      (fix params (ll : list (list ConstraintVariable)) (cs : ConstraintSet)
         : ConstraintSet :=
         match ll with
         | [] => cs
         | l :: ll' =>
             params ll'
               ((fix each (l : list ConstraintVariable) (cs : ConstraintSet)
                   : ConstraintSet :=
                   match l with
                   | [] => cs
                   | U :: l' => each l' (constrainTo U C cs)
                   end) l cs)
         end) ps CS1
  end.

(** The state of ProgramInfo that the visitors read and write. *)
Record ProgramInfo : Type := mkInfo {
  freeKey : nat;
  Variables : gmap PersistentSourceLoc (list ConstraintVariable);
  CS : ConstraintSet
}.

Definition getConstraints (I : ProgramInfo) : ConstraintSet := CS I.

Definition setConstraints (I : ProgramInfo) (cs : ConstraintSet) : ProgramInfo :=
  {| freeKey := freeKey I; Variables := Variables I; CS := cs |}.

Definition emptyInfo : ProgramInfo :=
  {| freeKey := 0; Variables := ∅; CS := [] |}.

End ProgramInfo.
Export ProgramInfo.

(* ===================================================================== *)
(** ** ConstraintBuilder.cpp: constrainEq *)
(* ===================================================================== *)

Module ConstrainEq.

Definition eqVars (i j : nat) : Constraint :=
  createEq (getOrCreateVar i) (getOrCreateVar j).

(** The loop of the equal-size case: I and J advance together. *)
Definition constrainLevelwise (L R : CVars) (CS : ConstraintSet) : ConstraintSet :=
  fold_left (fun cs ij => addConstraint cs (eqVars ij.1 ij.2)) (combine L R) CS.

(** The two nested loops of the unequal-size case. *)
Definition constrainAllPairs (L R : CVars) (CS : ConstraintSet) : ConstraintSet :=
  fold_left
    (fun cs i => fold_left (fun cs j => addConstraint cs (eqVars i j)) R cs)
    L CS.

(** constrainEq(ConstraintVariable *LHS, ConstraintVariable *RHS, Info).
    Info is used through Info.getConstraints() only, so the function
    threads the constraint store.  The overload on sets is the inner
    [each] loop: its first argument supplies the left-hand sides. *)
Fixpoint constrainEq (LHS RHS : ConstraintVariable) (CS : ConstraintSet)
  {struct LHS} : ConstraintSet :=
  match LHS, RHS with
  | FVConstraint _ retL parL _ _, FVConstraint _ retR parR _ _ =>
      let CS1 :=
        (fix each (l : list ConstraintVariable) (cs : ConstraintSet) : ConstraintSet :=
           match l with
           | [] => cs
           | Ci :: l' =>
               each l' (fold_left (fun cs Cj => constrainEq Ci Cj cs) retR cs)
           end) retL CS in
      if Nat.eqb (length parL) (length parR) then
        (fix params (pl pr : list (list ConstraintVariable)) (cs : ConstraintSet)
           : ConstraintSet :=
           match pl, pr with
           | V1 :: pl', V2 :: pr' =>
               params pl' pr'
                 ((fix each (l : list ConstraintVariable) (cs : ConstraintSet)
                     : ConstraintSet :=
                     match l with
                     | [] => cs
                     | Ci :: l' =>
                         each l' (fold_left (fun cs Cj => constrainEq Ci Cj cs) V2 cs)
                     end) V1 cs)
           | _, _ => cs
           end) parL parR CS1
      else
        constrainTo LHS getWild (constrainTo RHS getWild CS1)
  | PVConstraint _ _ CL _ _, PVConstraint _ _ CR _ _ =>
      if Nat.eqb (length CL) (length CR)
      then constrainLevelwise CL CR CS
      else constrainAllPairs CL CR CS
  | PVConstraint _ _ _ (Some FCLHS) _, FVConstraint _ _ _ _ _ =>
      constrainEq FCLHS RHS CS
  | PVConstraint _ _ _ None _, FVConstraint _ _ _ _ _ =>
      constrainTo RHS getWild (constrainTo LHS getWild CS)
  | FVConstraint _ _ _ _ _, PVConstraint _ _ _ _ _ =>
      constrainTo RHS getWild (constrainTo LHS getWild CS)
  end.

(** constrainEq(std::set<ConstraintVariable*> &RHS, std::set<...> &LHS,
    Info): the elements of the first set are passed as LHS. *)
Definition constrainEqSet (A B : list ConstraintVariable) (CS : ConstraintSet)
  : ConstraintSet :=
  fold_left (fun cs Ci => fold_left (fun cs Cj => constrainEq Ci Cj cs) B cs) A CS.

(** The constraints the two loops add, as lists. *)
Definition levelwise (L R : CVars) : list Constraint :=
  map (fun ij => eqVars ij.1 ij.2) (combine L R).

Definition allPairs (L R : CVars) : list Constraint :=
  flat_map (fun i => map (fun j => eqVars i j) R) L.

Lemma fold_addConstraint {A} (f : A -> Constraint) (l : list A) : forall CS,
  fold_left (fun cs x => addConstraint cs (f x)) l CS = CS ++ map f l.
Proof.
  induction l as [|x l IH]; intros CS; simpl.
  - now rewrite app_nil_r.
  - rewrite IH. unfold addConstraint. now rewrite <- app_assoc.
Qed.

Lemma constrainLevelwise_spec L R CS :
  constrainLevelwise L R CS = CS ++ levelwise L R.
Proof. apply (fold_addConstraint (fun ij => eqVars ij.1 ij.2)). Qed.

Lemma constrainAllPairs_spec L R : forall CS,
  constrainAllPairs L R CS = CS ++ allPairs L R.
Proof.
  unfold constrainAllPairs, allPairs.
  induction L as [|i L IH]; intros CS; simpl.
  - now rewrite app_nil_r.
  - rewrite IH, (fold_addConstraint (fun j => eqVars i j)). now rewrite <- app_assoc.
Qed.

Lemma levelwise_length L R : length L = length R -> length (levelwise L R) = length L.
Proof.
  intros H. unfold levelwise.
  rewrite length_map, length_combine. lia.
Qed.

Lemma levelwise_lookup L R k i j :
  L !! k = Some i -> R !! k = Some j -> levelwise L R !! k = Some (eqVars i j).
Proof.
  revert R k. induction L as [|x L IH]; intros [|y R] [|k] HL HR;
    simpl in *; try discriminate.
  - now inversion HL; inversion HR.
  - now apply IH.
Qed.

Lemma allPairs_In L R i j :
  In i L -> In j R -> In (eqVars i j) (allPairs L R).
Proof.
  intros Hi Hj. unfold allPairs. apply in_flat_map. exists i. split; auto.
  apply in_map_iff. now exists j.
Qed.

Lemma allPairs_length L R : length (allPairs L R) = length L * length R.
Proof.
  unfold allPairs. induction L as [|i L IH]; simpl; auto.
  now rewrite length_app, length_map, IH.
Qed.

Lemma eqVars_no_const i j : constraint_consts (eqVars i j) = [].
Proof. reflexivity. Qed.

Lemma levelwise_no_const L R :
  Forall (fun c => constraint_consts c = []) (levelwise L R).
Proof.
  unfold levelwise. apply Forall_forall. intros c Hc.
  apply list_elem_of_In, in_map_iff in Hc as (ij & <- & _). apply eqVars_no_const.
Qed.

Lemma allPairs_no_const L R :
  Forall (fun c => constraint_consts c = []) (allPairs L R).
Proof.
  unfold allPairs. apply Forall_forall. intros c Hc.
  apply list_elem_of_In, in_flat_map in Hc as (i & _ & Hc).
  apply in_map_iff in Hc as (j & <- & _). apply eqVars_no_const.
Qed.

End ConstrainEq.
Export ConstrainEq.

(* ===================================================================== *)
(** ** ConstraintBuilder.cpp: the visitors *)
(* ===================================================================== *)

Module ConstraintBuilder.

Inductive Stmt : Type :=
| DeclStmtS (S : DeclStmt)
| ExprStmt (e : Expr)
| ReturnStmt (RetValue : option Expr).

Section Visitors.

(** ProgramInfo's member functions whose bodies are in ProgramInfo.cpp.
    The visitors are embedded over any implementation of them. *)
Variable getVariableE : ProgramInfo -> Expr -> bool -> list ConstraintVariable.
Variable getVariableD : ProgramInfo -> DeclaratorDecl -> bool -> list ConstraintVariable.
Variable addVariable : ProgramInfo -> DeclaratorDecl -> ProgramInfo.
Variable checkStructuralEquality :
  list ConstraintVariable -> list ConstraintVariable -> QualType -> QualType -> bool.
Variable checkStructuralEqualityTy : QualType -> QualType -> bool.

(** for U in Vs: if PVC = dyn_cast<PVConstraint>(U):
      for J in PVC->getCvars(): add Eq(J, Wild). *)
Definition constrainCvarsWild (Vs : list ConstraintVariable) (CS : ConstraintSet)
  : ConstraintSet :=
  fold_left (fun cs U => constrainVars (getCvars U) getWild cs) Vs CS.

(** for C in Vs: C->constrainTo(CS, CS.getWild()). *)
Definition constrainAllWild (Vs : list ConstraintVariable) (CS : ConstraintSet)
  : ConstraintSet :=
  fold_left (fun cs C => constrainTo C getWild cs) Vs CS.

Definition specialCaseVarIntros (D : DeclaratorDecl) (Info : ProgramInfo) : ProgramInfo :=
  if String.eqb (getAsString (declType D)) "va_list" || isVoidType (declType D)
  then setConstraints Info (constrainCvarsWild (getVariableD Info D false) (CS Info))
  else Info.

(** FunctionVisitor::MyVisitVarDecl. *)
Definition MyVisitVarDecl (D : VarDecl) (Info : ProgramInfo) : ProgramInfo :=
  if isLocalVarDecl D then
    let d := vdDecl D in
    if declValidLoc d && negb (declInSystemHeader d) &&
       (isPointerType (declType d) || isArrayType (declType d))
    then specialCaseVarIntros d (addVariable Info d)
    else Info
  else Info.

(** The malloc rule of case 4.  None stands for the dyn_cast of a null
    callee declaration, which does not return. *)
Definition mallocRule (V W : list ConstraintVariable) (lhsType rhsTy : QualType)
  (Sub : Expr) : option bool :=
  match Sub with
  | CallExpr None _ _ _ _ => None
  | CallExpr (Some (CalleeFunction FD)) args _ _ _ =>
      if String.eqb (declName (fnDecl (fdThis FD))) "malloc" then
        match args with
        | SizeOfTypeExpr argTy _ _ :: _ =>
            let argPTy := getPointerType argTy in
            Some (checkStructuralEquality V W argPTy lhsType &&
                  checkStructuralEquality V W argPTy rhsTy)
        | _ => Some false
        end
      else Some false
  | _ => Some false
  end.

(** FunctionVisitor::constrainAssign(V, lhsType, RHS). *)
Definition constrainAssign (V : list ConstraintVariable) (lhsType : QualType)
  (RHS : option Expr) (Info : ProgramInfo) : option ProgramInfo :=
  match RHS with
  | None => Some Info
  | Some RHS =>
      if Nat.eqb (length V) 0 then Some Info else
      let W := getVariableE Info RHS false in
      if Nat.ltb 0 (length W) then
        Some (setConstraints Info (constrainEqSet V W (CS Info)))
      else
        let RHS := IgnoreParens RHS in
        if isIntegerConstantExpr RHS then
          if negb (isNullPointerConstant RHS)
          then Some (setConstraints Info (constrainCvarsWild V (CS Info)))
          else Some Info
        else
          match RHS with
          | UnaryOperator _ _ _ => Some Info
          | CStyleCastExpr _ Sub _ =>
              let W := getVariableE Info Sub false in
              let rhsTy := getType RHS in
              fired ←
                (if checkStructuralEquality V W lhsType rhsTy
                 then mallocRule V W lhsType rhsTy Sub
                 else Some false);
              if fired : bool then Some Info
              else
                let W := getVariableE Info (IgnoreCasts RHS) false in
                Some (setConstraints Info
                        (constrainCvarsWild V (constrainCvarsWild W (CS Info))))
          | _ => Some Info
          end
  end.

(** constrainAssign(Expr *LHS, Expr *RHS). *)
Definition constrainAssignE (LHS RHS : Expr) (Info : ProgramInfo) : option ProgramInfo :=
  constrainAssign (getVariableE Info LHS false) (getType LHS) (Some RHS) Info.

(** constrainAssign(DeclaratorDecl *D, Expr *RHS). *)
Definition constrainAssignD (D : DeclaratorDecl) (RHS : option Expr) (Info : ProgramInfo)
  : option ProgramInfo :=
  constrainAssign (getVariableD Info D false) (declType D) RHS Info.

Definition VisitDeclStmt (S : DeclStmt) (Info : ProgramInfo) : option ProgramInfo :=
  let Info1 := fold_left (fun i VD => MyVisitVarDecl VD i) (decls S) Info in
  fold_left (fun oi VD => i ← oi; constrainAssignD (vdDecl VD) (getInit VD) i)
            (decls S) (Some Info1).

Definition VisitCStyleCastExpr (Dest : QualType) (Sub : Expr) (Info : ProgramInfo)
  : ProgramInfo :=
  let W := getVariableE Info Sub true in
  if Nat.ltb 0 (length W) then
    if negb (checkStructuralEqualityTy Dest (getType Sub))
    then setConstraints Info (constrainAllWild W (CS Info))
    else Info
  else Info.

Definition VisitBinAssign (LHS RHS : Expr) (Info : ProgramInfo) : option ProgramInfo :=
  constrainAssignE LHS RHS Info.

(** The loop over the arguments of a call; i counts them. *)
Definition forArguments {A} (f : nat -> Expr -> A -> A) (args : list Expr) (a : A) : A :=
  (fold_left (fun (st : nat * A) (E : Expr) => (S st.1, f st.1 E st.2)) args (0, a)).2.

Definition argumentsWild (args : list Expr) (Info : ProgramInfo) : ProgramInfo :=
  fold_left (fun i E => setConstraints i (constrainAllWild (getVariableE i E false) (CS i)))
            args Info.

Definition VisitCallExpr (callee : option Callee) (args : list Expr) (Info : ProgramInfo)
  : option ProgramInfo :=
  match callee with
  | None => Some Info
  | Some (CalleeFunction FD) =>
      forArguments
        (fun i E oi =>
           Info ← oi;
           let ParameterEC := getVariableE Info E false in
           if Nat.ltb i (getNumParams FD) then
             match fnParams (fdThis FD) !! i with
             | Some P => constrainAssignD P (Some E) Info
             | None => None
             end
           else Some (setConstraints Info (constrainAllWild ParameterEC (CS Info))))
        args (Some Info)
  | Some (CalleeDeclarator DD) =>
      let V := getVariableD Info DD false in
      if Nat.ltb 0 (length V) then
        Some (fold_left
          (fun Info C =>
             let FV := match C with
                       | PVConstraint _ _ _ F _ => F
                       | FVConstraint _ _ _ _ _ => Some C
                       end in
             match FV with
             | Some FV =>
                 forArguments
                   (fun i E Info =>
                      let ParameterEC := getVariableE Info E false in
                      if Nat.ltb i (numParams FV) then
                        setConstraints Info
                          (constrainEqSet ParameterEC (getParamVar FV i) (CS Info))
                      else
                        setConstraints Info (constrainAllWild ParameterEC (CS Info)))
                   args Info
             | None =>
                 let Info1 := argumentsWild args Info in
                 setConstraints Info1 (constrainTo C getWild (CS Info1))
             end)
          V Info)
      else Some (argumentsWild args Info)
  | Some CalleeOtherDecl => Some (argumentsWild args Info)
  end.

(** Apply ~(V = Ptr) to the outer-most level of each pointer variable of E. *)
Definition constrainExprFirst (E : Expr) (Info : ProgramInfo) : ProgramInfo :=
  setConstraints Info
    (fold_left
       (fun cs U =>
          match getCvars U with
          | q :: _ =>
              addConstraint cs (createNot (createEq (getOrCreateVar q) getPtr))
          | [] => cs
          end)
       (getVariableE Info E false) (CS Info)).

Definition constrainExprFirstArr (E : Expr) (Info : ProgramInfo) : ProgramInfo :=
  setConstraints Info
    (fold_left
       (fun cs U =>
          match getCvars U with
          | q :: _ => addConstraint cs (createEq (getOrCreateVar q) getArr)
          | [] => cs
          end)
       (getVariableE Info E false) (CS Info)).

Definition VisitArraySubscriptExpr (Base : Expr) (Info : ProgramInfo) : ProgramInfo :=
  constrainExprFirstArr Base Info.

Definition arithBinop (LHS RHS : Expr) (Info : ProgramInfo) : ProgramInfo :=
  constrainExprFirst RHS (constrainExprFirst LHS Info).

(** VisitUnaryPreInc, VisitUnaryPostInc, VisitUnaryPreDec, VisitUnaryPostDec. *)
Definition VisitUnaryOperator (op : UnaryOpcode) (Sub : Expr) (Info : ProgramInfo)
  : ProgramInfo :=
  match op with
  | UO_PreInc | UO_PostInc | UO_PreDec | UO_PostDec => constrainExprFirst Sub Info
  | _ => Info
  end.

(** VisitBinAssign, VisitBinAdd, VisitBinSub, VisitCompoundAssignOperator. *)
Definition VisitBinaryOperator (op : BinaryOpcode) (LHS RHS : Expr) (Info : ProgramInfo)
  : option ProgramInfo :=
  match op with
  | BO_Assign => VisitBinAssign LHS RHS Info
  | BO_Add | BO_Sub | BO_AddAssign | BO_SubAssign => Some (arithBinop LHS RHS Info)
  | BO_Mul => Some Info
  end.

Definition VisitReturnStmt (Function : FunctionDecl) (RetValue : option Expr)
  (Info : ProgramInfo) : ProgramInfo :=
  let Fun := getVariableD Info (fnDecl (fdThis Function)) false in
  let Var := match RetValue with
             | Some E => getVariableE Info E false
             | None => []
             end in
  setConstraints Info
    (fold_left
       (fun cs F =>
          match F with
          | FVConstraint _ rs _ _ _ => constrainEqSet rs Var cs
          | PVConstraint _ _ _ _ _ => cs
          end)
       Fun (CS Info)).

(** RecursiveASTVisitor: a node's Visit method runs before its children
    are traversed. *)
Fixpoint TraverseExpr (e : Expr) (Info : ProgramInfo) {struct e} : option ProgramInfo :=
  match e with
  | DeclRefExpr _ _ | IntegerLiteral _ _ | SizeOfTypeExpr _ _ _ => Some Info
  | ParenExpr s _ _ => TraverseExpr s Info
  | ImplicitCastExpr _ s => TraverseExpr s Info
  | CStyleCastExpr ty s _ => TraverseExpr s (VisitCStyleCastExpr ty s Info)
  | UnaryOperator op s _ => TraverseExpr s (VisitUnaryOperator op s Info)
  | BinaryOperator op l r _ =>
      i1 ← VisitBinaryOperator op l r Info;
      i2 ← TraverseExpr l i1;
      TraverseExpr r i2
  | ArraySubscriptExpr b i _ =>
      i1 ← TraverseExpr b (VisitArraySubscriptExpr b Info);
      TraverseExpr i i1
  | CallExpr callee args _ _ _ =>
      i1 ← VisitCallExpr callee args Info;
      (fix each (l : list Expr) (i : ProgramInfo) : option ProgramInfo :=
         match l with
         | [] => Some i
         | a :: l' => i' ← TraverseExpr a i; each l' i'
         end) args i1
  end.

Definition TraverseStmt (Function : FunctionDecl) (s : Stmt) (Info : ProgramInfo)
  : option ProgramInfo :=
  match s with
  | DeclStmtS DS =>
      i1 ← VisitDeclStmt DS Info;
      fold_left
        (fun oi VD =>
           i ← oi;
           match getInit VD with
           | Some E => TraverseExpr E i
           | None => Some i
           end)
        (decls DS) (Some i1)
  | ExprStmt e => TraverseExpr e Info
  | ReturnStmt r =>
      let i1 := VisitReturnStmt Function r Info in
      match r with
      | Some E => TraverseExpr E i1
      | None => Some i1
      end
  end.

Definition TraverseBody (Function : FunctionDecl) (Body : list Stmt) (Info : ProgramInfo)
  : option ProgramInfo :=
  fold_left (fun oi s => i ← oi; TraverseStmt Function s i) Body (Some Info).

(** GlobalVisitor::VisitVarDecl (seeGlobalDecl only records the name for
    the linker). *)
Definition GlobalVisitVarDecl (G : VarDecl) (Info : ProgramInfo) : ProgramInfo :=
  if hasGlobalStorage G then
    if isPointerType (declType (vdDecl G)) || isArrayType (declType (vdDecl G))
    then addVariable Info (vdDecl G)
    else Info
  else Info.

(** GlobalVisitor::VisitFunctionDecl; Body is present when the declaration
    is a definition. *)
Definition GlobalVisitFunctionDecl (D : FunctionDecl) (Body : option (list Stmt))
  (Info : ProgramInfo) : option ProgramInfo :=
  if declValidLoc (fnDecl (fdThis D)) then
    let Info1 := addVariable Info (fnDecl (fdThis D)) in
    match Body with
    | Some B => if fnHasBodyHere (fdThis D) then TraverseBody D B Info1 else Some Info1
    | None => Some Info1
    end
  else Some Info.

(** GlobalVisitor::VisitRecordDecl. *)
Definition GlobalVisitRecordDecl (Declaration : RecordDecl) (Info : ProgramInfo)
  : ProgramInfo :=
  match getDefinition Declaration with
  | Some fields =>
      if recValidLoc Declaration && negb (recInSystemHeader Declaration) then
        if recFileEntryValid Declaration then
          fold_left
            (fun i D =>
               if isPointerType (declType D) || isArrayType (declType D)
               then specialCaseVarIntros D (addVariable i D)
               else i)
            fields Info
        else Info
      else Info
  | None => Info
  end.

End Visitors.

End ConstraintBuilder.
Export ConstraintBuilder.

(* ===================================================================== *)
(** ** CheckedCConvert.cpp: the rewrite planner *)
(* ===================================================================== *)

Module CheckedCConvert.

Inductive InterfaceCase : Type :=
| IncreaseCallers
| MakeBoundary
| DoNothing.

(** The calls made on clang's Rewriter, in the order they are made. *)
Inductive RewriteOp : Type :=
| InsertTextBefore (Loc : SourceLocation) (Str : string)
| InsertTextAfter (Loc : SourceLocation) (Str : string).

Definition Rewriter := list RewriteOp.

Section Planner.

(** The virtual members of ConstraintVariable and the lookups of
    ProgramInfo whose bodies are in ProgramInfo.cpp. *)
Variable isLt : ConstraintVariable -> ConstraintVariable -> ProgramInfo -> bool.
Variable isEq : ConstraintVariable -> ConstraintVariable -> ProgramInfo -> bool.
Variable mkString : ConstraintVariable -> ProgramInfo -> bool -> string.
Variable getVariableE : ProgramInfo -> Expr -> bool -> list ConstraintVariable.
Variable getVariableD : ProgramInfo -> DeclaratorDecl -> bool -> list ConstraintVariable.

(** One iteration of the loop of getHighest. *)
Definition higher (Info : ProgramInfo) (V : option ConstraintVariable)
  (P : ConstraintVariable) : option ConstraintVariable :=
  match V with
  | Some v => if isLt v P Info && negb (isEq v P Info) then Some P else Some v
  | None => Some P
  end.

(** getHighest; None is nullptr. *)
Definition getHighest (Vs : list ConstraintVariable) (Info : ProgramInfo)
  : option ConstraintVariable :=
  if Nat.eqb (length Vs) 0 then None
  else fold_left (higher Info) Vs None.

(** for tD in FD->redecls(): if tD != Definition then Declaration = tD,
    break. *)
Definition otherRedecl (FD : FunctionDecl) (Definition_ : FunctionDeclData)
  : option FunctionDeclData :=
  find (fun tD => negb (sameFunctionDecl tD Definition_)) (fdRedecls FD).

(** The declaration canInterface compares the definition with: another
    redeclaration when FD is the definition itself, FD otherwise. *)
Definition findDeclaration (FD : FunctionDecl) (Definition_ : FunctionDeclData)
  : option FunctionDeclData :=
  if sameFunctionDecl Definition_ (fdThis FD)
  then otherRedecl FD Definition_
  else Some (fdThis FD).

(** The index k with D == FD->getParamDecl(k). *)
Fixpoint paramIndex (D : DeclaratorDecl) (ps : list DeclaratorDecl) (k : nat)
  : option nat :=
  match ps with
  | [] => None
  | p :: ps' => if sameDecl D p then Some k else paramIndex D ps' (S k)
  end.

(** canInterface(P, D, C) for a parameter D of FD.  None stands for a failed
    assertion or the dereference of a null getHighest. *)
Definition canInterface (P : ProgramInfo) (FD : FunctionDecl) (D : DeclaratorDecl)
  : option InterfaceCase :=
  if negb (isPointerType (declType D)) then None else
  match hasBody FD with
  | None => Some DoNothing
  | Some oFD =>
      if isVariadic FD then Some DoNothing else
      let Definition_ := oFD in
      match findDeclaration FD Definition_ with
      | None => Some DoNothing
      | Some Declaration =>
          i ← paramIndex D (fnParams (fdThis FD)) 0;
          pDecl ← fnParams Declaration !! i;
          let Vs := getVariableD P pDecl false in
          let V := getHighest Vs P in
          pDef ← fnParams Definition_ !! i;
          let Us := getVariableD P pDef true in
          let U := getHighest Us P in
          U ← U;
          V ← V;
          if isLt U V P then Some MakeBoundary else Some IncreaseCallers
      end
  end.

(** "If Source has a bounds-safe interface": Source is a call whose callee
    declaration is a DeclaratorDecl with a bounds expression. *)
Definition hasBoundsSafeInterface (Source : Expr) : bool :=
  match Source with
  | CallExpr (Some (CalleeFunction FD)) _ _ _ _ => declHasBoundsExpr (fnDecl (fdThis FD))
  | CallExpr (Some (CalleeDeclarator D)) _ _ _ _ => declHasBoundsExpr D
  | _ => false
  end.

Definition asCStyleCast (Source : Expr) : option (Expr * SourceLocation) :=
  match Source with
  | CStyleCastExpr _ Sub l => Some (Sub, l)
  | _ => None
  end.

Definition assumeBoundsCastOpen (castTo : string) : string :=
  "_Assume_bounds_cast<" +:+ castTo +:+ ">(".

Definition cStyleCast (castTo : string) : string :=
  "(" +:+ castTo +:+ ")".

(** CastPlacementVisitor::assign(lhs, rhs, Source). *)
Definition assign (Info : ProgramInfo) (lhs rhs : list ConstraintVariable)
  (Source : Expr) (R : Rewriter) : Rewriter :=
  if Nat.eqb (length lhs) 0 then R else
  if hasBoundsSafeInterface Source then R else
  let A := getHighest lhs Info in
  let Cast := if Nat.eqb (length rhs) 0 then asCStyleCast Source else None in
  let rhs := match Cast with
             | Some (Sub, _) => getVariableE Info Sub false
             | None => rhs
             end in
  if Nat.eqb (length rhs) 0 then R else
  let B := getHighest rhs Info in
  match A, B with
  | Some A, Some B =>
      if isEq A B Info then R else
      let ESL := match Cast with
                 | Some (Sub, _) => getExprLoc Sub
                 | None => getExprLoc Source
                 end in
      let ELL := match Cast with
                 | Some (Sub, _) => getLocEnd Sub
                 | None => getLocEnd Source
                 end in
      let castTo := mkString A Info false in
      let R1 :=
        if isLt A B Info
        then R ++ [InsertTextBefore ESL (assumeBoundsCastOpen castTo);
                   InsertTextAfter ELL ")"]
        else R ++ [InsertTextBefore ESL (cStyleCast castTo)] in
      match Cast with
      | Some (Sub, CastLocation) =>
          R1 ++ [InsertTextBefore CastLocation "/*";
                 InsertTextBefore (getExprLoc Sub) "*/"]
      | None => R1
      end
  | _, _ => R
  end.

(** assign(const ValueDecl *VD, const Expr *rhs). *)
Definition assignD (Info : ProgramInfo) (VD : DeclaratorDecl) (rhs : Expr) (R : Rewriter)
  : Rewriter :=
  assign Info (getVariableD Info VD false) (getVariableE Info rhs false) rhs R.

(** assign(const Expr *lhs, const Expr *rhs). *)
Definition assignE (Info : ProgramInfo) (lhs rhs : Expr) (R : Rewriter) : Rewriter :=
  match IgnoreImplicit lhs with
  | DeclRefExpr D _ => assignD Info D (IgnoreImplicit rhs) R
  | _ => assign Info (getVariableE Info lhs false) (getVariableE Info rhs false) rhs R
  end.

Definition VisitDeclStmt (Info : ProgramInfo) (Var : DeclStmt) (R : Rewriter) : Rewriter :=
  fold_left
    (fun R VD =>
       match getInit VD with
       | Some Init =>
           if isPointerType (declType (vdDecl VD))
           then assignD Info (vdDecl VD) Init R
           else R
       | None => R
       end)
    (decls Var) R.

Definition VisitBinAssign (Info : ProgramInfo) (LHS RHS : Expr) (R : Rewriter) : Rewriter :=
  if isPointerType (getType LHS)
  then assignE Info (IgnoreImplicit LHS) (IgnoreImplicit RHS) R
  else R.

(** The constraint against which an argument is compared: the declaration's,
    or the definition's when that one is lower. *)
Definition lowestParam (Info : ProgramInfo) (ParamCst : ConstraintVariable)
  (C : option ConstraintVariable) : ConstraintVariable :=
  match C with
  | Some C =>
      if negb (isEq ParamCst C Info) && isLt C ParamCst Info then C else ParamCst
  | None => ParamCst
  end.

(** The body of the loop over the parameters in VisitCallExpr.  None stands
    for getParamDecl or getArg out of range. *)
Definition placeArgumentCast (Info : ProgramInfo) (args : list Expr)
  (Declaration Definition_ : FunctionDeclData) (i : nat) (R : Rewriter)
  : option Rewriter :=
  pDecl ← fnParams Declaration !! i;
  if declHasBoundsExpr pDecl then Some R else
  Arg ← args !! i;
  if isPointerType (getType Arg) then
    let ESL := getExprLoc (IgnoreImpCasts Arg) in
    let As := getVariableE Info Arg true in
    let Bs := getVariableD Info pDecl false in
    pDef ← fnParams Definition_ !! i;
    let Cs := getVariableD Info pDef true in
    if Nat.ltb 0 (length As) then
      match getHighest As Info, getHighest Bs Info with
      | _, None => Some R
      | None, Some _ => None
      | Some ExpCst, Some ParamCst =>
          let ParamCst := lowestParam Info ParamCst (getHighest Cs Info) in
          if negb (isEq ExpCst ParamCst Info) then
            let castTo := mkString ParamCst Info false in
            if isLt ParamCst ExpCst Info
            then Some (R ++ [InsertTextBefore ESL (assumeBoundsCastOpen castTo);
                             InsertTextAfter ESL ")"])
            else Some (R ++ [InsertTextBefore ESL (cStyleCast castTo)])
          else Some R
      end
    else Some R
  else Some R.

(** CastPlacementVisitor::VisitCallExpr. *)
Definition VisitCallExpr (Info : ProgramInfo) (callee : option Callee) (args : list Expr)
  (R : Rewriter) : option Rewriter :=
  match callee with
  | Some (CalleeFunction FD) =>
      if isVariadic FD then Some R else
      let oFD := match hasBody FD with Some d => d | None => fdThis FD end in
      let Definition_ := oFD in
      let Declaration :=
        if sameFunctionDecl oFD (fdThis FD)
        then match otherRedecl FD Definition_ with
             | Some tD => tD
             | None => fdThis FD
             end
        else fdThis FD in
      fold_left
        (fun oR i => R ← oR; placeArgumentCast Info args Declaration Definition_ i R)
        (seq 0 (getNumParams FD)) (Some R)
  | _ => Some R
  end.

End Planner.

Section CanWrite.

(** llvm::sys::fs::status (None when it reports an error; the number
    identifies the file the path resolves to, symbolic links followed) and
    the components that llvm::sys::path::begin .. end iterate over. *)
Variable status : string -> option nat.
Variable components : string -> list string.

Definition get_separator : string := "/".

Definition equivalent (a b : nat) : bool := Nat.eqb a b.

Definition extend (soFar s : string) : string :=
  if String.eqb s get_separator then soFar else soFar +:+ (s +:+ get_separator).

(** The test after the loop: baseIt == baseEnd && baseSoFar == pathSoFar. *)
Definition atBaseEnd (baseIt : list string) (baseSoFar pathSoFar : string) : bool :=
  match baseIt with
  | [] => String.eqb baseSoFar pathSoFar
  | _ :: _ => false
  end.

(** The while loop of canWrite; the lists are what is left to iterate. *)
Fixpoint canWriteLoop (baseIt pathIt : list string) (baseSoFar pathSoFar : string)
  : bool :=
  match baseIt, pathIt with
  | s1 :: baseIt', s2 :: pathIt' =>
      match status baseSoFar with
      | None => false
      | Some baseStatus =>
          match status pathSoFar with
          | None => false
          | Some pathStatus =>
              if negb (equivalent baseStatus pathStatus)
              then atBaseEnd baseIt baseSoFar pathSoFar
              else canWriteLoop baseIt' pathIt' (extend baseSoFar s1) (extend pathSoFar s2)
          end
      end
  | _, _ => atBaseEnd baseIt baseSoFar pathSoFar
  end.

Definition canWrite (filePath : string) (iof : gset string) (b : string) : bool :=
  if decide (filePath ∈ iof) then true else
  let baseIt := components b in
  let pathIt := components filePath in
  let baseSoFar := hd "" baseIt +:+ get_separator in
  let pathSoFar := hd "" pathIt +:+ get_separator in
  canWriteLoop (tl baseIt) (tl pathIt) baseSoFar pathSoFar.

End CanWrite.

(** Where emit sends a rewrite buffer. *)
Inductive Destination : Type :=
| Stdout
| OutputFile (nFile : string).

(** A FileID of the set Files: its FileEntry's name and its rewrite buffer,
    when it has them. *)
Record TouchedFile : Type := mkTouched {
  getFileEntryForID : option string;
  getRewriteBufferFor : option string
}.

Section Emit.

Variable status : string -> option nat.
Variable components : string -> list string.

(** The functions of llvm::sys::path and llvm::sys::fs that emit calls;
    make_absolute is None when it reports an error, canOpen tells whether
    the raw_fd_ostream of the output file opens without error. *)
Variable make_absolute : string -> option string.
Variable remove_filename : string -> string.
Variable remove_leading_dotslash : string -> string.
Variable filename parent_path extension stem : string -> string.
Variable canOpen : string -> bool.

(** The name of the rewritten file: the postfix goes between the stem and
    the extension. *)
Definition outputName (OutputPostfix name : string) : string :=
  let pfName := filename name in
  let dirName := parent_path name in
  let fileName := remove_leading_dotslash pfName in
  let ext := extension fileName in
  let nFileName := stem fileName +:+ "." +:+ OutputPostfix +:+ ext in
  if Nat.ltb 0 (String.length dirName)
  then dirName +:+ get_separator +:+ nFileName
  else nFileName.

(** The body of the loop over Files. *)
Definition emitFile (OutputPostfix : string) (InOutFiles : gset string) (base : string)
  (F : TouchedFile) : list (Destination * string) :=
  match getRewriteBufferFor F with
  | Some B =>
      match getFileEntryForID F with
      | Some name =>
          let nFile := outputName OutputPostfix name in
          let feAbsS := match make_absolute name with
                        | Some feAbs => remove_leading_dotslash feAbs
                        | None => ""
                        end in
          if canWrite status components feAbsS InOutFiles base then
            if canOpen nFile then [(OutputFile nFile, B)] else []
          else []
      | None => []
      end
  | None => []
  end.

(** emit: what is written where.  None stands for the failed assertion on
    make_absolute of the base directory. *)
Definition emit (BaseDir OutputPostfix : string) (MainFile : TouchedFile)
  (Files : list TouchedFile) (InOutFiles : gset string)
  : option (list (Destination * string)) :=
  baseAbs ← make_absolute BaseDir;
  let base := remove_filename baseAbs in
  if String.eqb OutputPostfix "-" then
    match getRewriteBufferFor MainFile with
    | Some B => Some [(Stdout, B)]
    | None => Some []
    end
  else Some (flat_map (emitFile OutputPostfix InOutFiles base) Files).

End Emit.

End CheckedCConvert.
Export CheckedCConvert.

(* ===================================================================== *)
(** ** The members of ProgramInfo.cpp, from their specification *)
(* ===================================================================== *)

Module Modelled.

Definition isFunctionType (t : QualType) : bool :=
  (fix go (t : QualType) : bool :=
     match t with
     | TFunction _ _ => true
     | TTypedef _ u => go u
     | _ => false
     end) t.

(** Modelled from the spec: the allocation of step 3 of add_variable in
    ProgramInfo.cpp, one fresh qualifier variable per pointer (or array)
    level, outer-most first, and a FunctionCV for a function type, recursing
    into the return and parameter types.  The result is the levels, the
    function part, the printed base type, whether an array level was seen,
    and the next free key. *)
Fixpoint allocLevels (N : string) (t : QualType) (K : nat) {struct t}
  : CVars * option ConstraintVariable * string * bool * nat :=
  match t with
  | TPointer p =>
      let '(vs, fv, base, arr, K') := allocLevels N p (S K) in
      (K :: vs, fv, base, arr, K')
  | TArray e _ =>
      let '(vs, fv, base, _, K') := allocLevels N e (S K) in
      (K :: vs, fv, base, true, K')
  | TTypedef _ u => allocLevels N u K
  | TFunction r ps =>
      let '(rvs, rfv, rbase, rarr, K1) := allocLevels "" r K in
      let '(pcs, K2) :=
        (fix each (ps : list QualType) (K : nat)
           : list (list ConstraintVariable) * nat :=
           match ps with
           | [] => ([], K)
           | p :: ps' =>
               let '(vs, fv, base, arr, K') := allocLevels "" p K in
               let '(rest, K'') := each ps' K' in
               ([PVConstraint base "" vs fv arr] :: rest, K'')
           end) ps K1 in
      ([], Some (FVConstraint N [PVConstraint rbase "" rvs rfv rarr] pcs true false),
       getAsString t, false, K2)
  | _ => ([], None, getAsString t, false, K)
  end.

Definition allocCV (D : DeclaratorDecl) (K : nat) : ConstraintVariable * nat :=
  let '(vs, fv, base, arr, K') := allocLevels (declName D) (declType D) K in
  match fv with
  | Some F => if isFunctionType (declType D) then (F, K')
              else (PVConstraint base (declName D) vs fv arr, K')
  | None => (PVConstraint base (declName D) vs fv arr, K')
  end.

(** Modelled from the spec: the declarations that step 4 of add_variable
    singles out: those of type void*, a pointer whose pointee is void, and
    those of type va_list, a type printed as va_list. *)
Definition isVoidPointerOrVaList (t : QualType) : bool :=
  String.eqb (getAsString t) "va_list" || (isPointerType t && isVoidType (pointeeOf t)).

(** Modelled from the spec: ProgramInfo::addVariable (ProgramInfo.cpp), the
    four steps of add_variable: nothing for a declaration that is neither of
    pointer, array nor function type; nothing for a declaration of a system
    header; otherwise the allocated CV is stored under the declaration's
    persistent location; and for void* and va_list Eq(qv, Wild) is added
    for every qualifier variable of that CV. *)
Definition addVariable (Info : ProgramInfo) (D : DeclaratorDecl) : ProgramInfo :=
  let t := declType D in
  if negb (isPointerType t || isArrayType t || isFunctionType t) then Info
  else if declInSystemHeader D then Info
  else
    let '(V, K') := allocCV D (freeKey Info) in
    {| freeKey := K';
       Variables := <[declPSL D := default [] (Variables Info !! declPSL D) ++ [V]]>
                      (Variables Info);
       CS := if isVoidPointerOrVaList t then constrainTo V getWild (CS Info)
             else CS Info |}.

(** Modelled from the spec: ProgramInfo::getVariable on a declaration
    (ProgramInfo.cpp), the lookup var_map[PSL]. *)
Definition getVariableD (Info : ProgramInfo) (D : DeclaratorDecl) (inFunctionContext : bool)
  : list ConstraintVariable :=
  default [] (Variables Info !! declPSL D).

(** Modelled from the spec: ProgramInfo::getVariable on an expression
    (ProgramInfo.cpp), cvs_of, for the expressions of the end-to-end
    scenarios: a reference to a declaration has the declaration's CVs,
    parentheses and implicit casts are looked through, constants and
    explicit casts have none. *)
Fixpoint getVariableE (Info : ProgramInfo) (E : Expr) (inFunctionContext : bool)
  : list ConstraintVariable :=
  match E with
  | DeclRefExpr D _ => getVariableD Info D inFunctionContext
  | ParenExpr s _ _ => getVariableE Info s inFunctionContext
  | ImplicitCastExpr _ s => getVariableE Info s inFunctionContext
  | _ => []
  end.

(** Modelled from the spec: checkStructuralEquality (ProgramInfo.cpp) on the
    types of this embedding: equal pointer depth and equal pointees,
    typedefs looked through. *)
Fixpoint structuralEqual (a b : QualType) {struct a} : bool :=
  match a with
  | TTypedef _ u => structuralEqual u b
  | TVoid => (fix strip (b : QualType) : bool :=
                match b with TVoid => true | TTypedef _ v => strip v | _ => false end) b
  | TInt => (fix strip (b : QualType) : bool :=
               match b with TInt => true | TTypedef _ v => strip v | _ => false end) b
  | TChar => (fix strip (b : QualType) : bool :=
                match b with TChar => true | TTypedef _ v => strip v | _ => false end) b
  | TRecord n => (fix strip (b : QualType) : bool :=
                    match b with
                    | TRecord m => String.eqb n m
                    | TTypedef _ v => strip v
                    | _ => false
                    end) b
  | TPointer p => (fix strip (b : QualType) : bool :=
                     match b with
                     | TPointer q => structuralEqual p q
                     | TTypedef _ v => strip v
                     | _ => false
                     end) b
  | TArray e _ => (fix strip (b : QualType) : bool :=
                     match b with
                     | TArray f _ => structuralEqual e f
                     | TTypedef _ v => strip v
                     | _ => false
                     end) b
  | TFunction r _ => (fix strip (b : QualType) : bool :=
                        match b with
                        | TFunction s _ => structuralEqual r s
                        | TTypedef _ v => strip v
                        | _ => false
                        end) b
  end.

(** Modelled from the spec: the four-argument checkStructuralEquality of
    ProgramInfo.h, decided by the two types. *)
Definition checkStructuralEquality (V U : list ConstraintVariable) (VTy UTy : QualType)
  : bool := structuralEqual VTy UTy.

(** Modelled from the spec: ConstraintVariable::liftedOnCVars, declared in
    ProgramInfo.h and defined in ProgramInfo.cpp, a comparison of constants
    lifted to two constraint variables.  The planner compares the solved
    qualifiers of the two sides, level by level; variables of different
    kinds or depths are not comparable. *)
Definition liftedOnCVars (A O : ConstraintVariable) (Info : ProgramInfo)
  (Op : ConstAtom -> ConstAtom -> bool) : bool :=
  match A, O with
  | PVConstraint _ _ va _ _, PVConstraint _ _ vo _ _ =>
      Nat.eqb (length va) (length vo) &&
      forallb (fun ij => Op (Solver.solve (CS Info) ij.1) (Solver.solve (CS Info) ij.2))
              (combine va vo)
  | _, _ => false
  end.

(** Modelled from the spec: isLt (ProgramInfo.cpp), strictly lower on the
    lattice at every level. *)
Definition isLt (A O : ConstraintVariable) (Info : ProgramInfo) : bool :=
  liftedOnCVars A O Info Lattice.ltb.

(** Modelled from the spec: isEq (ProgramInfo.cpp), the same solved
    qualifier at every level. *)
Definition isEq (A O : ConstraintVariable) (Info : ProgramInfo) : bool :=
  liftedOnCVars A O Info Lattice.eqb.

(** Modelled from the spec: the solved type that mkString (ProgramInfo.cpp)
    prints for a pointer variable: ptr<T> for Ptr, array_ptr<T> for Arr, the
    raw pointer for Wild. *)
Fixpoint mkType (s : Solver.Assignment) (base : string) (vars : CVars) : string :=
  match vars with
  | [] => base
  | q :: vars' =>
      let inner := mkType s base vars' in
      match s q with
      | Ptr => "ptr<" +:+ inner +:+ ">"
      | Arr => "array_ptr<" +:+ inner +:+ ">"
      | NTArr => "nt_array_ptr<" +:+ inner +:+ ">"
      | Wild => inner +:+ " *"
      end
  end.

(** Modelled from the spec: mkString (ProgramInfo.cpp), the solved type,
    followed by the name when it is asked for. *)
Definition mkString (V : ConstraintVariable) (Info : ProgramInfo) (withName : bool)
  : string :=
  match V with
  | PVConstraint base N vars _ _ =>
      let t := mkType (Solver.solve (CS Info)) base vars in
      if withName then t +:+ " " +:+ N else t
  | FVConstraint N _ _ _ _ => N
  end.

(** The visitors of ConstraintBuilder.cpp over these members. *)
Definition generateFunction (D : FunctionDecl) (Body : option (list Stmt))
  (Info : ProgramInfo) : option ProgramInfo :=
  GlobalVisitFunctionDecl getVariableE getVariableD addVariable
    checkStructuralEquality structuralEqual D Body Info.

Definition generateGlobal (G : VarDecl) (Info : ProgramInfo) : ProgramInfo :=
  GlobalVisitVarDecl addVariable G Info.

Definition generateRecord (R : RecordDecl) (Info : ProgramInfo) : ProgramInfo :=
  GlobalVisitRecordDecl getVariableD addVariable R Info.

End Modelled.

(* ===================================================================== *)
(** ** Programs of the end-to-end scenarios *)
(* ===================================================================== *)

Module Scenarios.

Definition voidTy : QualType := TFunction TVoid [].

Definition mkFunction (id : nat) (line : nat) (N : string) (body : bool) : FunctionDecl :=
  let d := {| fnDecl := mkDecl id (mkPSL "a.c" line 1) N voidTy true false false;
              fnParams := []; fnVariadic := false; fnHasBodyHere := body |} in
  {| fdThis := d; fdRedecls := [d] |}.

Definition local (id line : nat) (N : string) (t : QualType) (init : option Expr) : VarDecl :=
  {| vdDecl := mkDecl id (mkPSL "a.c" line 3) N t true false false;
     isLocalVarDecl := true; hasGlobalStorage := false; getInit := init |}.

Definition global (id line : nat) (N : string) (t : QualType) : VarDecl :=
  {| vdDecl := mkDecl id (mkPSL "a.c" line 1) N t true false false;
     isLocalVarDecl := false; hasGlobalStorage := true; getInit := None |}.

(** void f(void) { int *p; p = 0; }
    The right-hand side of an assignment to a pointer is converted to the
    pointer's type: the literal comes under an implicit cast. *)
Definition p_int : VarDecl := local 2 2 "p" (TPointer TInt) None.

Definition null_assignment : list Stmt :=
  [ DeclStmtS {| decls := [p_int] |};
    ExprStmt (BinaryOperator BO_Assign (DeclRefExpr (vdDecl p_int) 30)
                (ImplicitCastExpr (TPointer TInt) (IntegerLiteral 0 34)) 32) ].

(** void f(void) { int *p; p = 7; } *)
Definition seven_assignment : list Stmt :=
  [ DeclStmtS {| decls := [p_int] |};
    ExprStmt (BinaryOperator BO_Assign (DeclRefExpr (vdDecl p_int) 30)
                (ImplicitCastExpr (TPointer TInt) (IntegerLiteral 7 34)) 32) ].

(** void f(void) { void *p; } *)
Definition p_void : VarDecl := local 2 2 "p" (TPointer TVoid) None.

Definition void_pointer_local : list Stmt := [ DeclStmtS {| decls := [p_void] |} ].

(** void f(void) { va_list ap; } *)
Definition ap_local : VarDecl := local 2 2 "ap" va_list None.

Definition va_list_local : list Stmt := [ DeclStmtS {| decls := [ap_local] |} ].

(** va_list ap; at file scope. *)
Definition ap_global : VarDecl := global 3 1 "ap" va_list.

End Scenarios.

(* ===================================================================== *)
(** ** Properties of the constraint builder *)
(* ===================================================================== *)

Module BuilderFacts.

Lemma fold_left_appending {A} (f : ConstraintSet -> A -> ConstraintSet)
  (g : A -> list Constraint) :
  (forall cs x, f cs x = cs ++ g x) ->
  forall l cs, fold_left f l cs = cs ++ flat_map g l.
Proof.
  intros Hf. induction l as [|x l IH]; intros cs; simpl.
  - now rewrite app_nil_r.
  - now rewrite IH, Hf, <- app_assoc.
Qed.

Definition wildFor (q : nat) : Constraint := Eq (AVar q) (AConst Wild).

Lemma constrainVars_spec vars C cs :
  constrainVars vars C cs = cs ++ map (fun q => Eq (AVar q) C) vars.
Proof. apply (fold_addConstraint (fun q => Eq (AVar q) C)). Qed.

Lemma constrainCvarsWild_spec Vs cs :
  constrainCvarsWild Vs cs = cs ++ flat_map (fun U => map wildFor (getCvars U)) Vs.
Proof.
  unfold constrainCvarsWild. apply fold_left_appending.
  intros cs' U. apply constrainVars_spec.
Qed.

Lemma constrainCvarsWild_In Vs cs U q :
  In U Vs -> In q (getCvars U) -> In (wildFor q) (constrainCvarsWild Vs cs).
Proof.
  intros HU Hq. rewrite constrainCvarsWild_spec. apply in_or_app. right.
  apply in_flat_map. exists U. split; auto. now apply in_map.
Qed.

(** What constrainExprFirstArr adds for one constraint variable. *)
Definition firstArr (U : ConstraintVariable) : list Constraint :=
  match getCvars U with
  | q :: _ => [Eq (AVar q) (AConst Arr)]
  | [] => []
  end.

Lemma constrainExprFirstArr_spec getVariableE E Info :
  CS (constrainExprFirstArr getVariableE E Info) =
  CS Info ++ flat_map firstArr (getVariableE Info E false).
Proof.
  unfold constrainExprFirstArr. simpl. apply fold_left_appending.
  intros cs U. unfold firstArr. destruct (getCvars U); simpl.
  - now rewrite app_nil_r.
  - reflexivity.
Qed.

Lemma isPointerType_not_void t : isPointerType t = true -> isVoidType t = false.
Proof. induction t; simpl; auto; discriminate. Qed.

Lemma isArrayType_not_void t : isArrayType t = true -> isVoidType t = false.
Proof. induction t; simpl; auto; discriminate. Qed.

(** The test of specialCaseVarIntros on a type for which the visitors call
    it: only the printed name can make it succeed. *)
Lemma specialCase_test t :
  isPointerType t || isArrayType t = true ->
  String.eqb (getAsString t) "va_list" || isVoidType t = String.eqb (getAsString t) "va_list".
Proof.
  intros H. apply orb_true_iff in H as [H|H].
  - rewrite (isPointerType_not_void t H). apply orb_false_r.
  - rewrite (isArrayType_not_void t H). apply orb_false_r.
Qed.

(** No declaration of type pointer to void is special-cased. *)
Lemma specialCaseVarIntros_void_pointer getVariableD D Info :
  declType D = TPointer TVoid ->
  specialCaseVarIntros getVariableD D Info = Info.
Proof. intros H. unfold specialCaseVarIntros. now rewrite H. Qed.

(** A declaration printed as va_list has every level constrained to Wild. *)
Lemma specialCaseVarIntros_va_list getVariableD D Info U q :
  getAsString (declType D) = "va_list" ->
  In U (getVariableD Info D false) -> In q (getCvars U) ->
  In (wildFor q) (CS (specialCaseVarIntros getVariableD D Info)).
Proof.
  intros Hs HU Hq. unfold specialCaseVarIntros. rewrite Hs. simpl.
  now apply constrainCvarsWild_In with U.
Qed.

(** The visitor of global variables adds no constraint of its own. *)
Lemma GlobalVisitVarDecl_store addVariable G Info :
  GlobalVisitVarDecl addVariable G Info = Info \/
  GlobalVisitVarDecl addVariable G Info = addVariable Info (vdDecl G).
Proof.
  unfold GlobalVisitVarDecl.
  destruct (hasGlobalStorage G); auto.
  destruct (isPointerType _ || isArrayType _); auto.
Qed.

Lemma evaluateAsInt_IgnoreParens e : evaluateAsInt (IgnoreParens e) = evaluateAsInt e.
Proof. induction e; simpl; auto. Qed.

Lemma isIntegerConstantExpr_IgnoreParens e :
  isIntegerConstantExpr (IgnoreParens e) = isIntegerConstantExpr e.
Proof. unfold isIntegerConstantExpr. now rewrite evaluateAsInt_IgnoreParens. Qed.

Lemma isNullPointerConstant_IgnoreParens e :
  isNullPointerConstant (IgnoreParens e) = isNullPointerConstant e.
Proof. induction e; simpl; auto. Qed.

End BuilderFacts.
Import BuilderFacts.

Module BuilderClaims.

(** C5. constrainEq on two pointer variables: with as many levels on both
    sides it adds exactly one Eq per pair of corresponding levels; with
    different numbers of levels it adds an Eq for every pair of a level of
    the one and a level of the other; in both cases no added constraint
    mentions a constant, so neither side is constrained to Wild. *)
Theorem constrainEq_pointer_variables :
  forall bl nl (CL : CVars) fl al br nr (CR : CVars) fr ar (cs : ConstraintSet),
    let L := PVConstraint bl nl CL fl al in
    let R := PVConstraint br nr CR fr ar in
    exists added,
      constrainEq L R cs = cs ++ added /\
      Forall (fun c => constraint_consts c = []) added /\
      (length CL = length CR ->
         added = levelwise CL CR /\
         length added = length CL /\
         forall k i j, CL !! k = Some i -> CR !! k = Some j ->
                       added !! k = Some (Eq (AVar i) (AVar j))) /\
      (length CL <> length CR ->
         added = allPairs CL CR /\
         length added = length CL * length CR /\
         forall i j, In i CL -> In j CR -> In (Eq (AVar i) (AVar j)) added).
Proof.
  intros. simpl. destruct fl as [F|];
    destruct (Nat.eqb_spec (length CL) (length CR)) as [He|Hne].
  1, 3: exists (levelwise CL CR); (split; [apply constrainLevelwise_spec|]);
    (split; [apply levelwise_no_const|]); (split; [|tauto]);
    intros _; split; auto; (split; [now apply levelwise_length|]);
    intros k i j; apply levelwise_lookup.
  all: exists (allPairs CL CR); (split; [apply constrainAllPairs_spec|]);
    (split; [apply allPairs_no_const|]); (split; [tauto|]);
    intros _; split; auto; (split; [apply allPairs_length|]);
    intros i j; apply allPairs_In.
Qed.
Lemma constrainEq_pointer_variables_witness :
  exists added,
    constrainEq (PVConstraint "int" "p" [0; 1] None false)
                (PVConstraint "int" "q" [2] None false) [] = [] ++ added /\
    added = [Eq (AVar 0) (AVar 2); Eq (AVar 1) (AVar 2)].
Proof.
  destruct (constrainEq_pointer_variables "int" "p" [0; 1] None false
              "int" "q" [2] None false []) as (added & Hrun & _ & _ & Hne).
  exists added. split; [exact Hrun|].
  apply Hne. simpl. lia.
Defined.

(** C6. For a subscript b[i] where b resolves to a pointer variable with at
    least one level, Eq(q, Arr) is added for the outer-most level q of b,
    and the solved qualifier of q is at least Arr. *)
Theorem subscript_outer_level_at_least_Arr :
  forall (getVariableE : ProgramInfo -> Expr -> bool -> list ConstraintVariable)
         (Base : Expr) (Info : ProgramInfo) bt n q rest fv arr,
    In (PVConstraint bt n (q :: rest) fv arr) (getVariableE Info Base false) ->
    let Info' := VisitArraySubscriptExpr getVariableE Base Info in
    In (Eq (AVar q) (AConst Arr)) (CS Info') /\
    le Arr (Solver.solve (CS Info') q).
Proof.
  intros getVariableE Base Info bt n q rest fv arr Hin Info'.
  assert (In (Eq (AVar q) (AConst Arr)) (CS Info')) as Hc.
  { unfold Info', VisitArraySubscriptExpr. rewrite constrainExprFirstArr_spec.
    apply in_or_app. right. apply in_flat_map.
    exists (PVConstraint bt n (q :: rest) fv arr). split; auto. now left. }
  split; auto. now apply Solver.solve_Eq_var_const.
Qed.

Lemma subscript_outer_level_at_least_Arr_witness :
  let p := PVConstraint "int" "p" [0] None false in
  let Info' := VisitArraySubscriptExpr (fun _ _ _ => [p])
                 (DeclRefExpr (vdDecl Scenarios.p_int) 30) emptyInfo in
  In (Eq (AVar 0) (AConst Arr)) (CS Info') /\ le Arr (Solver.solve (CS Info') 0).
Proof.
  apply (subscript_outer_level_at_least_Arr (fun _ _ _ => [PVConstraint "int" "p" [0] None false])
           (DeclRefExpr (vdDecl Scenarios.p_int) 30) emptyInfo "int" "p" 0 [] None false).
  simpl. now left.
Defined.

(** The second case of constrainAssign, where it is reached: the
    right-hand side, under its parentheses, is itself an integer constant
    expression (of integer type, as an argument passed to a function
    without a prototype is), and has no constraint variables.  A null
    pointer constant leaves the program information unchanged; any other
    constant adds Eq(q, Wild) for every level q of every pointer variable of
    the left-hand side, whose solved qualifier is then Wild.  For the
    program [int *p; p = 0;] the store stays empty and p is solved to
    Ptr. *)
Lemma constrainAssign_integer_constant :
  (exists Info',
     Modelled.generateFunction (Scenarios.mkFunction 1 1 "f" true)
       (Some Scenarios.null_assignment) emptyInfo = Some Info' /\
     Modelled.getVariableD Info' (vdDecl Scenarios.p_int) false =
       [PVConstraint "int" "p" [0] None false] /\
     CS Info' = [] /\
     Solver.solve (CS Info') 0 = Ptr) /\
  forall (getVariableE : ProgramInfo -> Expr -> bool -> list ConstraintVariable)
         (checkStructuralEquality :
            list ConstraintVariable -> list ConstraintVariable ->
            QualType -> QualType -> bool)
         (V : list ConstraintVariable) (lhsType : QualType) (RHS : Expr)
         (Info : ProgramInfo),
    V <> [] ->
    getVariableE Info RHS false = [] ->
    isIntegerConstantExpr RHS = true ->
    (isNullPointerConstant RHS = true ->
       constrainAssign getVariableE checkStructuralEquality V lhsType (Some RHS) Info
       = Some Info) /\
    (isNullPointerConstant RHS = false ->
       exists Info',
         constrainAssign getVariableE checkStructuralEquality V lhsType (Some RHS) Info
         = Some Info' /\
         CS Info' = CS Info ++ flat_map (fun U => map wildFor (getCvars U)) V /\
         forall U q, In U V -> In q (getCvars U) ->
                     In (Eq (AVar q) (AConst Wild)) (CS Info') /\
                     Solver.solve (CS Info') q = Wild).
Proof.
  split.
  { eexists. split; [vm_compute; reflexivity|].
    split; [vm_compute; reflexivity|].
    split; [reflexivity|]. vm_compute. reflexivity. }
  intros getVariableE cse V lhsType RHS Info HV HW Hice.
  assert (Nat.eqb (length V) 0 = false) as HlenV.
  { destruct V; [congruence|reflexivity]. }
  unfold constrainAssign. rewrite HlenV, HW. simpl.
  rewrite isIntegerConstantExpr_IgnoreParens, Hice, isNullPointerConstant_IgnoreParens.
  split; intros Hnull; rewrite Hnull; simpl; [reflexivity|].
  eexists. split; [reflexivity|]. simpl.
  split; [apply constrainCvarsWild_spec|].
  intros U q HU Hq.
  assert (In (wildFor q) (constrainCvarsWild V (CS Info))) as Hin
    by now apply constrainCvarsWild_In with U.
  split; [exact Hin|]. now apply Solver.solve_Eq_var_Wild.
Qed.

Lemma constrainAssign_integer_constant_witness :
  exists Info',
    constrainAssign Modelled.getVariableE Modelled.checkStructuralEquality
      [PVConstraint "int" "p" [0] None false] (TPointer TInt)
      (Some (IntegerLiteral 7 34)) emptyInfo = Some Info' /\
    CS Info' = [Eq (AVar 0) (AConst Wild)].
Proof.
  destruct constrainAssign_integer_constant as [_ H].
  destruct (H Modelled.getVariableE Modelled.checkStructuralEquality
              [PVConstraint "int" "p" [0] None false] (TPointer TInt)
              (IntegerLiteral 7 34) emptyInfo) as [_ Hnonnull].
  - discriminate.
  - reflexivity.
  - reflexivity.
  - destruct (Hnonnull eq_refl) as (Info' & Hrun & Hcs & _).
    exists Info'. split; [exact Hrun|exact Hcs].
Defined.

(** C4, at the input on which it fails.  In [int *p; p = 7;] the
    right-hand side reaches constrainAssign under the implicit cast that
    converts it to the type of p.  constrainAssign strips parentheses only;
    what is left is not an integer constant expression, nor a unary operator
    nor a C-style cast, so nothing is added, whatever the constant: p is
    solved to Ptr, not to Wild.  (The cast placement strips such casts with
    IgnoreImplicit before it looks at the right-hand side.) *)
Theorem integer_assigned_to_pointer_is_not_constrained :
  (forall (getVariableE : ProgramInfo -> Expr -> bool -> list ConstraintVariable)
          (checkStructuralEquality :
             list ConstraintVariable -> list ConstraintVariable ->
             QualType -> QualType -> bool)
          (V : list ConstraintVariable) (lhsType ty : QualType) (Sub : Expr)
          (Info : ProgramInfo),
      getVariableE Info (ImplicitCastExpr ty Sub) false = [] ->
      constrainAssign getVariableE checkStructuralEquality V lhsType
        (Some (ImplicitCastExpr ty Sub)) Info = Some Info) /\
  (exists Info',
     (Modelled.generateFunction (Scenarios.mkFunction 1 1 "f" true)
        (Some Scenarios.seven_assignment) emptyInfo = Some Info') /\
     (Modelled.getVariableD Info' (vdDecl Scenarios.p_int) false =
        [PVConstraint "int" "p" [0] None false]) /\
     (CS Info' = []) /\
     (Solver.solve (CS Info') 0 = Ptr) /\
     (Solver.solve (CS Info') 0 <> Wild)).
Proof.
  split.
  - intros getVariableE cse V lhsType ty Sub Info HW.
    unfold constrainAssign. destruct (Nat.eqb (length V) 0); [reflexivity|].
    now rewrite HW.
  - eexists. split; [vm_compute; reflexivity|].
    split; [vm_compute; reflexivity|].
    split; [reflexivity|]. split; [vm_compute; reflexivity|]. vm_compute. discriminate.
Qed.

Lemma integer_assigned_to_pointer_is_not_constrained_witness :
  constrainAssign Modelled.getVariableE Modelled.checkStructuralEquality
    [PVConstraint "int" "p" [0] None false] (TPointer TInt)
    (Some (ImplicitCastExpr (TPointer TInt) (IntegerLiteral 7 34))) emptyInfo
  = Some emptyInfo.
Proof.
  apply (proj1 integer_assigned_to_pointer_is_not_constrained
           Modelled.getVariableE Modelled.checkStructuralEquality
           [PVConstraint "int" "p" [0] None false] (TPointer TInt) (TPointer TInt)
           (IntegerLiteral 7 34) emptyInfo).
  reflexivity.
Defined.

(** The levels constrained are those of getCvars: for a pointer to function
    the variables of the function part are left as they are. *)
Lemma constrainAssign_function_pointer :
  let fp := PVConstraint "void (int *)" "fp" [0]
              (Some (FVConstraint "fp" [PVConstraint "void" "" [] None false]
                       [[PVConstraint "int" "" [1] None false]] true false)) false in
  CS <$> constrainAssign Modelled.getVariableE Modelled.checkStructuralEquality
           [fp] (TPointer (TFunction TVoid [TPointer TInt]))
           (Some (IntegerLiteral 7 34)) emptyInfo
  = Some [Eq (AVar 0) (AConst Wild)].
Proof. reflexivity. Qed.

(** ProgramInfo::addVariable constrains the declarations of type void* and
    va_list when it creates their variables.  [void f(void) { void *p; }]:
    the one level of p is constrained to Wild. *)
Lemma void_pointer_local_is_constrained :
  exists Info',
    Modelled.generateFunction (Scenarios.mkFunction 1 1 "f" true)
      (Some Scenarios.void_pointer_local) emptyInfo = Some Info' /\
    Modelled.getVariableD Info' (vdDecl Scenarios.p_void) false =
      [PVConstraint "void" "p" [0] None false] /\
    CS Info' = [Eq (AVar 0) (AConst Wild)] /\
    Solver.solve (CS Info') 0 = Wild.
Proof.
  eexists. split; [vm_compute; reflexivity|].
  split; [vm_compute; reflexivity|].
  split; [reflexivity|]. vm_compute. reflexivity.
Qed.

(** A declaration of type va_list inside a function is constrained twice,
    by addVariable and by specialCaseVarIntros; at file scope, where the
    visitor does not call specialCaseVarIntros, once. *)
Lemma va_list_local_is_constrained :
  exists Info',
    Modelled.generateFunction (Scenarios.mkFunction 1 1 "f" true)
      (Some Scenarios.va_list_local) emptyInfo = Some Info' /\
    CS Info' = [Eq (AVar 0) (AConst Wild); Eq (AVar 0) (AConst Wild)] /\
    Solver.solve (CS Info') 0 = Wild.
Proof.
  eexists. split; [vm_compute; reflexivity|].
  split; [reflexivity|]. vm_compute. reflexivity.
Qed.

Lemma va_list_global_is_constrained :
  let Info' := Modelled.generateGlobal Scenarios.ap_global emptyInfo in
  Modelled.getVariableD Info' (vdDecl Scenarios.ap_global) false =
    [PVConstraint "struct __va_list_tag" "ap" [0] None true] /\
  CS Info' = [Eq (AVar 0) (AConst Wild)] /\
  Solver.solve (CS Info') 0 = Wild.
Proof. vm_compute. auto. Qed.

End BuilderClaims.

(* ===================================================================== *)
(** ** Properties of the rewrite planner *)
(* ===================================================================== *)

Module PlannerFacts.

Section Highest.

Variable isLt : ConstraintVariable -> ConstraintVariable -> ProgramInfo -> bool.
Variable isEq : ConstraintVariable -> ConstraintVariable -> ProgramInfo -> bool.
Variable Info : ProgramInfo.

(** P is below or equal to V. *)
Definition below (P V : ConstraintVariable) : bool :=
  isLt P V Info || isEq P V Info.

(** isLt, with isEq as its equality, is a total order on the elements of
    Vs. *)
Record TotalOrderOn (Vs : list ConstraintVariable) : Prop := {
  order_refl : forall x, In x Vs -> isEq x x Info = true;
  order_sym : forall x y, In x Vs -> In y Vs ->
                isEq x y Info = true -> isEq y x Info = true;
  order_trans : forall x y z, In x Vs -> In y Vs -> In z Vs ->
                  below x y = true -> below y z = true -> below x z = true;
  order_total : forall x y, In x Vs -> In y Vs ->
                  below x y = true \/ below y x = true
}.

Lemma getHighest_cons P Vs :
  getHighest isLt isEq (P :: Vs) Info = fold_left (higher isLt isEq Info) Vs (Some P).
Proof. reflexivity. Qed.

Lemma fold_higher_member Vs : forall v,
  exists r, fold_left (higher isLt isEq Info) Vs (Some v) = Some r /\ (r = v \/ In r Vs).
Proof.
  induction Vs as [|P Vs IH]; intros v; simpl.
  - exists v. auto.
  - destruct (isLt v P Info && negb (isEq v P Info)).
    + destruct (IH P) as (r & Hr & [Heq|Hin]); exists r; subst; auto.
    + destruct (IH v) as (r & Hr & [Heq|Hin]); exists r; subst; auto.
Qed.

Lemma fold_higher_maximum All (Hord : TotalOrderOn All) Vs : forall v r,
  In v All -> incl Vs All ->
  fold_left (higher isLt isEq Info) Vs (Some v) = Some r ->
  In r All /\ below v r = true /\ forall P, In P Vs -> below P r = true.
Proof.
  induction Vs as [|P Vs IH]; intros v r Hv Hincl Hrun; simpl in Hrun.
  - injection Hrun as <-. split; [exact Hv|]. split; [|intros P []].
    unfold below. rewrite (order_refl All Hord v Hv). apply orb_true_r.
  - assert (In P All) as HP by (apply Hincl; now left).
    assert (incl Vs All) as Hincl' by (intros x Hx; apply Hincl; now right).
    destruct (isLt v P Info && negb (isEq v P Info)) eqn:Hsw.
    + destruct (IH P r HP Hincl' Hrun) as (Hr & HPr & Hrest).
      apply andb_true_iff in Hsw as [Hlt _].
      assert (below v P = true) as HvP by (unfold below; now rewrite Hlt).
      split; [exact Hr|]. split.
      * now apply (order_trans All Hord v P r).
      * intros Q [<-|HQ]; auto.
    + destruct (IH v r Hv Hincl' Hrun) as (Hr & Hvr & Hrest).
      assert (below P v = true) as HPv.
      { destruct (order_total All Hord P v HP Hv) as [H|H]; auto.
        unfold below in H. apply orb_true_iff in H as [Hlt|Heq].
        - rewrite Hlt in Hsw. simpl in Hsw. apply negb_false_iff in Hsw.
          unfold below. rewrite (order_sym All Hord v P Hv HP Hsw). apply orb_true_r.
        - unfold below. rewrite (order_sym All Hord v P Hv HP Heq). apply orb_true_r. }
      split; [exact Hr|]. split; [exact Hvr|].
      intros Q [<-|HQ]; auto.
      now apply (order_trans All Hord P v r).
Qed.

End Highest.

Lemma sameFunctionDecl_sym a b : sameFunctionDecl a b = sameFunctionDecl b a.
Proof. unfold sameFunctionDecl. apply Nat.eqb_sym. Qed.

Lemma find_exists {A} (f : A -> bool) (l : list A) x :
  In x l -> f x = true -> exists y, find f l = Some y /\ In y l /\ f y = true.
Proof.
  intros Hin Hf. destruct (find f l) as [y|] eqn:Hfind.
  - exists y. apply find_some in Hfind. tauto.
  - apply (find_none f l Hfind) in Hin. congruence.
Qed.

Lemma find_all_false {A} (f : A -> bool) (l : list A) :
  (forall x, In x l -> f x = false) -> find f l = None.
Proof.
  induction l as [|a l IH]; intros H; simpl; auto.
  rewrite (H a) by now left. apply IH. intros x Hx. apply H. now right.
Qed.

(** There is no declaration to compare with exactly when every
    redeclaration is the definition. *)
Lemma findDeclaration_None FD Def :
  In (fdThis FD) (fdRedecls FD) ->
  (forall tD, In tD (fdRedecls FD) -> sameFunctionDecl tD Def = true) ->
  findDeclaration FD Def = None.
Proof.
  intros Hthis Hall. unfold findDeclaration.
  rewrite sameFunctionDecl_sym, (Hall _ Hthis).
  apply find_all_false. intros x Hx. now rewrite (Hall x Hx).
Qed.

Lemma findDeclaration_Some FD Def tD :
  In tD (fdRedecls FD) -> sameFunctionDecl tD Def = false ->
  exists Decl, findDeclaration FD Def = Some Decl /\ sameFunctionDecl Decl Def = false.
Proof.
  intros Hin Hne. unfold findDeclaration.
  destruct (sameFunctionDecl Def (fdThis FD)) eqn:Hsame.
  - destruct (find_exists (fun t => negb (sameFunctionDecl t Def)) (fdRedecls FD) tD Hin)
      as (y & Hy & _ & Hfy); [now rewrite Hne|].
    exists y. split; auto. now apply negb_true_iff.
  - exists (fdThis FD). split; auto. now rewrite sameFunctionDecl_sym.
Qed.

(** On pointer variables of one level the modelled isLt and isEq are the
    order and the equality of the solved qualifiers. *)
Lemma isLt_single_level bA nA a fA rA bB nB b fB rB Info :
  Modelled.isLt (PVConstraint bA nA [a] fA rA) (PVConstraint bB nB [b] fB rB) Info =
  Lattice.ltb (Solver.solve (CS Info) a) (Solver.solve (CS Info) b).
Proof.
  unfold Modelled.isLt, Modelled.liftedOnCVars. simpl. apply andb_true_r.
Qed.

Lemma isEq_single_level bA nA a fA rA bB nB b fB rB Info :
  Modelled.isEq (PVConstraint bA nA [a] fA rA) (PVConstraint bB nB [b] fB rB) Info =
  Lattice.eqb (Solver.solve (CS Info) a) (Solver.solve (CS Info) b).
Proof.
  unfold Modelled.isEq, Modelled.liftedOnCVars. simpl. apply andb_true_r.
Qed.

Section HighestFacts.

Variable isLt : ConstraintVariable -> ConstraintVariable -> ProgramInfo -> bool.
Variable isEq : ConstraintVariable -> ConstraintVariable -> ProgramInfo -> bool.

Lemma getHighest_Some_length Vs Info V :
  getHighest isLt isEq Vs Info = Some V -> Nat.eqb (length Vs) 0 = false.
Proof. destruct Vs; [discriminate|reflexivity]. Qed.

Lemma getHighest_nonempty Vs Info :
  Vs <> [] -> exists V, getHighest isLt isEq Vs Info = Some V.
Proof.
  destruct Vs as [|P Vs]; [congruence|]. intros _.
  rewrite getHighest_cons.
  destruct (fold_higher_member isLt isEq Info Vs P) as (r & Hr & _). now exists r.
Qed.

End HighestFacts.

End PlannerFacts.
Import PlannerFacts.

Module PlannerClaims.

(** C9. getHighest returns nullptr exactly when its set is empty; on a
    non-empty set it returns an element of the set; and when isLt (with isEq
    as its equality) is a total order on the set, every element of the set
    is below or equal to the one returned. *)
Theorem getHighest_spec :
  forall (isLt isEq : ConstraintVariable -> ConstraintVariable -> ProgramInfo -> bool)
         (Vs : list ConstraintVariable) (Info : ProgramInfo),
    (getHighest isLt isEq Vs Info = None <-> Vs = []) /\
    (Vs <> [] -> exists V, getHighest isLt isEq Vs Info = Some V /\ In V Vs) /\
    (TotalOrderOn isLt isEq Info Vs ->
       forall V, getHighest isLt isEq Vs Info = Some V ->
                 forall P, In P Vs -> below isLt isEq Info P V = true).
Proof.
  intros isLt isEq Vs Info. destruct Vs as [|P0 Vs].
  - split; [split; reflexivity|]. split; [congruence|].
    intros _ V HV. discriminate.
  - rewrite getHighest_cons.
    destruct (fold_higher_member isLt isEq Info Vs P0) as (r & Hr & Hmem).
    split; [split; [rewrite Hr|]; discriminate|].
    split.
    + intros _. exists r. split; auto. destruct Hmem as [->|H]; [now left|now right].
    + intros Hord V HV P HP.
      destruct (fold_higher_maximum isLt isEq Info (P0 :: Vs) Hord Vs P0 V) as (_ & H0 & Hrest).
      * now left.
      * intros x Hx. now right.
      * exact HV.
      * destruct HP as [<-|HP]; auto.
Qed.

Definition wild1 : ProgramInfo :=
  {| freeKey := 2; Variables := ∅; CS := [Eq (AVar 1) (AConst Wild)] |}.

Definition cv0 : ConstraintVariable := PVConstraint "int" "p" [0] None false.
Definition cv1 : ConstraintVariable := PVConstraint "int" "q" [1] None false.

Lemma getHighest_spec_witness :
  getHighest Modelled.isLt Modelled.isEq [cv1; cv0] wild1 = Some cv1 /\
  below Modelled.isLt Modelled.isEq wild1 cv0 cv1 = true.
Proof.
  destruct (getHighest_spec Modelled.isLt Modelled.isEq [cv1; cv0] wild1)
    as (_ & Hmem & Hmax).
  split; [reflexivity|].
  apply Hmax.
  - split.
    + intros x [<-|[<-|[]]]; reflexivity.
    + intros x y [<-|[<-|[]]] [<-|[<-|[]]]; vm_compute; auto.
    + intros x y z [<-|[<-|[]]] [<-|[<-|[]]] [<-|[<-|[]]]; vm_compute; auto.
    + intros x y [<-|[<-|[]]] [<-|[<-|[]]]; vm_compute; auto.
  - reflexivity.
  - right. now left.
Defined.

(** C10. When the callee of a call is a variadic function declaration the
    cast placement visitor returns at once: the rewriter is as it was. *)
Theorem VisitCallExpr_variadic_unchanged :
  forall (isLt isEq : ConstraintVariable -> ConstraintVariable -> ProgramInfo -> bool)
         (mkString : ConstraintVariable -> ProgramInfo -> bool -> string)
         (getVariableE : ProgramInfo -> Expr -> bool -> list ConstraintVariable)
         (getVariableD : ProgramInfo -> DeclaratorDecl -> bool -> list ConstraintVariable)
         (Info : ProgramInfo) (FD : FunctionDecl) (args : list Expr) (R : Rewriter),
    isVariadic FD = true ->
    CheckedCConvert.VisitCallExpr isLt isEq mkString getVariableE getVariableD Info
      (Some (CalleeFunction FD)) args R = Some R.
Proof. intros. unfold CheckedCConvert.VisitCallExpr. now rewrite H. Qed.

Definition printf_decl : FunctionDecl :=
  let d := {| fnDecl := mkDecl 30 (mkPSL "stdio.h" 5 1) "printf"
                          (TFunction TInt [TPointer TChar]) true true false;
              fnParams := [mkDecl 31 (mkPSL "stdio.h" 5 12) "fmt" (TPointer TChar)
                             true true false];
              fnVariadic := true; fnHasBodyHere := false |} in
  {| fdThis := d; fdRedecls := [d] |}.

Lemma VisitCallExpr_variadic_unchanged_witness :
  CheckedCConvert.VisitCallExpr Modelled.isLt Modelled.isEq Modelled.mkString
    Modelled.getVariableE Modelled.getVariableD wild1
    (Some (CalleeFunction printf_decl))
    [DeclRefExpr (vdDecl Scenarios.p_int) 40] [] = Some [].
Proof.
  apply (VisitCallExpr_variadic_unchanged Modelled.isLt Modelled.isEq Modelled.mkString
           Modelled.getVariableE Modelled.getVariableD wild1 printf_decl).
  reflexivity.
Defined.

Lemma lookup_In {A} (l : list A) : forall i x, l !! i = Some x -> In x l.
Proof.
  induction l as [|a l IH]; intros [|i] x H; simpl in *; try discriminate.
  - injection H as ->. now left.
  - right. now apply (IH i).
Qed.

(** The loop that looks D up among the parameters of FD finds it at its
    position: the parameters of a function are distinct declarations. *)
Lemma paramIndex_position (D : DeclaratorDecl) (ps : list DeclaratorDecl) :
  forall i k,
    ps !! i = Some D ->
    List.NoDup (map declId ps) ->
    paramIndex D ps k = Some (k + i).
Proof.
  induction ps as [|p ps IH]; intros i k Hi Hnd; [destruct i; discriminate|].
  inversion Hnd as [|? ? Hnotin Hnd']; subst. destruct i as [|i]; simpl in *.
  - injection Hi as ->. unfold sameDecl. rewrite Nat.eqb_refl. f_equal. lia.
  - assert (sameDecl D p = false) as ->.
    { unfold sameDecl. apply Nat.eqb_neq. intros Heq. apply Hnotin.
      rewrite <- Heq. apply in_map. now apply (lookup_In ps i D). }
    rewrite (IH i (S k) Hi Hnd'). f_equal. lia.
Qed.

(** C3. For a pointer-typed parameter D of FD: the decision is DoNothing
    when FD has no body or is variadic, and when every redeclaration of FD
    is the definition; otherwise, D being the i-th parameter of FD, with U
    the highest constraint variable of the i-th parameter of the definition
    and V that of the i-th parameter of the declaration, it is MakeBoundary
    when U is below V and IncreaseCallers in every other case. *)
Theorem canInterface_cases :
  forall (isLt isEq : ConstraintVariable -> ConstraintVariable -> ProgramInfo -> bool)
         (getVariableD : ProgramInfo -> DeclaratorDecl -> bool -> list ConstraintVariable)
         (P : ProgramInfo) (FD : FunctionDecl) (D : DeclaratorDecl),
    isPointerType (declType D) = true ->
    (hasBody FD = None \/ isVariadic FD = true ->
       canInterface isLt isEq getVariableD P FD D = Some DoNothing) /\
    (forall Def,
       hasBody FD = Some Def ->
       In (fdThis FD) (fdRedecls FD) ->
       (forall tD, In tD (fdRedecls FD) -> sameFunctionDecl tD Def = true) ->
       canInterface isLt isEq getVariableD P FD D = Some DoNothing) /\
    (forall Def tD,
       hasBody FD = Some Def ->
       isVariadic FD = false ->
       In tD (fdRedecls FD) -> sameFunctionDecl tD Def = false ->
       exists Decl,
         findDeclaration FD Def = Some Decl /\
         sameFunctionDecl Decl Def = false /\
         forall i pDecl pDef U V,
           fnParams (fdThis FD) !! i = Some D ->
           List.NoDup (map declId (fnParams (fdThis FD))) ->
           fnParams Decl !! i = Some pDecl ->
           fnParams Def !! i = Some pDef ->
           getHighest isLt isEq (getVariableD P pDef true) P = Some U ->
           getHighest isLt isEq (getVariableD P pDecl false) P = Some V ->
           canInterface isLt isEq getVariableD P FD D =
             Some (if isLt U V P then MakeBoundary else IncreaseCallers)).
Proof.
  intros isLt isEq getVariableD P FD D Hptr.
  unfold canInterface. rewrite Hptr. simpl.
  split; [|split].
  - intros [Hnb|Hvar].
    + now rewrite Hnb.
    + destruct (hasBody FD); [now rewrite Hvar|reflexivity].
  - intros Def Hbody Hthis Hall. rewrite Hbody.
    destruct (isVariadic FD); [reflexivity|].
    now rewrite (findDeclaration_None FD Def Hthis Hall).
  - intros Def tD Hbody Hvar Hin Hne.
    destruct (findDeclaration_Some FD Def tD Hin Hne) as (Decl & Hfind & Hdiff).
    exists Decl. split; [exact Hfind|]. split; [exact Hdiff|].
    intros i pDecl pDef U V Hi Hnd HpDecl HpDef HU HV.
    rewrite Hbody, Hvar, Hfind, (paramIndex_position D _ i 0 Hi Hnd). simpl.
    rewrite HpDecl. simpl. rewrite HpDef. simpl.
    rewrite HU, HV. simpl. now destruct (isLt U V P).
Qed.

(** void f(int *q); void f(int *q) { ... }, where the callers have made the
    declaration's parameter Wild and the body leaves the definition's at
    Ptr. *)
Definition q_decl : DeclaratorDecl :=
  mkDecl 11 (mkPSL "a.c" 1 13) "q" (TPointer TInt) true false false.
Definition q_def : DeclaratorDecl :=
  mkDecl 21 (mkPSL "a.c" 2 13) "q" (TPointer TInt) true false false.
Definition f_decl : FunctionDeclData :=
  {| fnDecl := mkDecl 10 (mkPSL "a.c" 1 1) "f" (TFunction TVoid [TPointer TInt])
                 true false false;
     fnParams := [q_decl]; fnVariadic := false; fnHasBodyHere := false |}.
Definition f_def : FunctionDeclData :=
  {| fnDecl := mkDecl 20 (mkPSL "a.c" 2 1) "f" (TFunction TVoid [TPointer TInt])
                 true false false;
     fnParams := [q_def]; fnVariadic := false; fnHasBodyHere := true |}.
Definition f_fn : FunctionDecl := {| fdThis := f_def; fdRedecls := [f_def; f_decl] |}.

Definition callers_wild : ProgramInfo :=
  {| freeKey := 2;
     Variables := <[declPSL q_decl := [cv0]]> (<[declPSL q_def := [cv1]]> ∅);
     CS := [Eq (AVar 0) (AConst Wild)] |}.

(** void k(int *a, int *b); void k(int *a, int *b) { ... }, where the
    callers have made the declaration's first parameter Wild and the body
    has made the definition's second parameter Wild: the first parameter
    gets a boundary, for the second the callers are raised. *)
Definition a_decl : DeclaratorDecl :=
  mkDecl 111 (mkPSL "a.c" 5 13) "a" (TPointer TInt) true false false.
Definition b_decl : DeclaratorDecl :=
  mkDecl 112 (mkPSL "a.c" 5 21) "b" (TPointer TInt) true false false.
Definition a_def : DeclaratorDecl :=
  mkDecl 121 (mkPSL "a.c" 6 13) "a" (TPointer TInt) true false false.
Definition b_def : DeclaratorDecl :=
  mkDecl 122 (mkPSL "a.c" 6 21) "b" (TPointer TInt) true false false.
Definition k_decl : FunctionDeclData :=
  {| fnDecl := mkDecl 110 (mkPSL "a.c" 5 1) "k"
                 (TFunction TVoid [TPointer TInt; TPointer TInt]) true false false;
     fnParams := [a_decl; b_decl]; fnVariadic := false; fnHasBodyHere := false |}.
Definition k_def : FunctionDeclData :=
  {| fnDecl := mkDecl 120 (mkPSL "a.c" 6 1) "k"
                 (TFunction TVoid [TPointer TInt; TPointer TInt]) true false false;
     fnParams := [a_def; b_def]; fnVariadic := false; fnHasBodyHere := true |}.
Definition k_fn : FunctionDecl := {| fdThis := k_def; fdRedecls := [k_def; k_decl] |}.

Definition cv_a_decl : ConstraintVariable := PVConstraint "int" "a" [0] None false.
Definition cv_b_decl : ConstraintVariable := PVConstraint "int" "b" [1] None false.
Definition cv_a_def : ConstraintVariable := PVConstraint "int" "a" [2] None false.
Definition cv_b_def : ConstraintVariable := PVConstraint "int" "b" [3] None false.

Definition two_parameters : ProgramInfo :=
  {| freeKey := 4;
     Variables := <[declPSL a_decl := [cv_a_decl]]>
                    (<[declPSL b_decl := [cv_b_decl]]>
                       (<[declPSL a_def := [cv_a_def]]>
                          (<[declPSL b_def := [cv_b_def]]> ∅)));
     CS := [Eq (AVar 0) (AConst Wild); Eq (AVar 3) (AConst Wild)] |}.

Lemma canInterface_cases_witness :
  canInterface Modelled.isLt Modelled.isEq Modelled.getVariableD callers_wild f_fn q_def
  = Some MakeBoundary /\
  canInterface Modelled.isLt Modelled.isEq Modelled.getVariableD two_parameters k_fn a_def
  = Some MakeBoundary /\
  canInterface Modelled.isLt Modelled.isEq Modelled.getVariableD two_parameters k_fn b_def
  = Some IncreaseCallers.
Proof.
  split; [|split].
  - destruct (canInterface_cases Modelled.isLt Modelled.isEq Modelled.getVariableD
                callers_wild f_fn q_def eq_refl) as (_ & _ & H).
    destruct (H f_def f_decl) as (Decl & Hfind & _ & Hrun).
    + reflexivity.
    + reflexivity.
    + right. now left.
    + reflexivity.
    + vm_compute in Hfind. injection Hfind as <-.
      rewrite (Hrun 0 q_decl q_def cv1 cv0);
        [reflexivity|reflexivity|repeat constructor; simpl; tauto|reflexivity..].
  - destruct (canInterface_cases Modelled.isLt Modelled.isEq Modelled.getVariableD
                two_parameters k_fn a_def eq_refl) as (_ & _ & H).
    destruct (H k_def k_decl) as (Decl & Hfind & _ & Hrun).
    + reflexivity.
    + reflexivity.
    + right. now left.
    + reflexivity.
    + vm_compute in Hfind. injection Hfind as <-.
      rewrite (Hrun 0 a_decl a_def cv_a_def cv_a_decl);
        [reflexivity|reflexivity|repeat constructor; simpl; intuition discriminate
        |reflexivity..].
  - destruct (canInterface_cases Modelled.isLt Modelled.isEq Modelled.getVariableD
                two_parameters k_fn b_def eq_refl) as (_ & _ & H).
    destruct (H k_def k_decl) as (Decl & Hfind & _ & Hrun).
    + reflexivity.
    + reflexivity.
    + right. now left.
    + reflexivity.
    + vm_compute in Hfind. injection Hfind as <-.
      rewrite (Hrun 1 b_decl b_def cv_b_def cv_b_decl);
        [reflexivity|reflexivity|repeat constructor; simpl; intuition discriminate
        |reflexivity..].
Defined.







(** [p = q;] with p solved to Ptr and q to Wild; and the call [h(p)] of
    [void h(int *x); void h(int *x) { ... }] where p is solved to Ptr, the
    parameter of the declaration to Wild and that of the definition to Arr:
    the argument is compared with the definition's parameter. *)
Definition q_var : DeclaratorDecl :=
  mkDecl 2 (mkPSL "a.c" 3 3) "q" (TPointer TInt) true false false.
Definition p_var : DeclaratorDecl :=
  mkDecl 3 (mkPSL "a.c" 4 3) "p" (TPointer TInt) true false false.
Definition h_param : DeclaratorDecl :=
  mkDecl 71 (mkPSL "a.c" 9 9) "x" (TPointer TInt) true false false.
Definition h_decl : FunctionDeclData :=
  {| fnDecl := mkDecl 70 (mkPSL "a.c" 9 1) "h" (TFunction TVoid [TPointer TInt])
                 true false false;
     fnParams := [h_param]; fnVariadic := false; fnHasBodyHere := false |}.





(** With the order on solved qualifiers, a left-hand side that is strictly
    higher is neither equal nor below. *)
Lemma strictly_higher_not_below bA nA a fA rA bB nB b fB rB Info :
  let A := PVConstraint bA nA [a] fA rA in
  let B := PVConstraint bB nB [b] fB rB in
  Modelled.isLt B A Info = true ->
  Modelled.isEq A B Info = false /\ Modelled.isLt A B Info = false.
Proof.
  simpl. unfold Modelled.isLt, Modelled.isEq, Modelled.liftedOnCVars. simpl.
  unfold Lattice.ltb, Lattice.eqb. rewrite !andb_true_r.
  intros H. apply Nat.ltb_lt in H. split.
  - apply Nat.eqb_neq. lia.
  - apply Nat.ltb_ge. lia.
Qed.

(** In a call the closing parenthesis of _Assume_bounds_cast is inserted
    where the opening text is, at the expression location of the argument
    (here its start, 80), where assign inserts it at the end location of
    the source expression. *)
Lemma call_argument_cast_closes_at_start :
  let h := {| fnDecl := mkDecl 70 (mkPSL "a.c" 1 1) "h" (TFunction TVoid [TPointer TInt])
                          true false false;
              fnParams := [mkDecl 71 (mkPSL "a.c" 9 9) "x" (TPointer TInt) true false false];
              fnVariadic := false; fnHasBodyHere := false |} in
  let q := mkDecl 72 (mkPSL "a.c" 3 3) "q" (TPointer TInt) true false false in
  let Info := {| freeKey := 2;
                 Variables := <[mkPSL "a.c" 9 9 := [cv0]]> (<[mkPSL "a.c" 3 3 := [cv1]]> ∅);
                 CS := [Eq (AVar 1) (AConst Wild)] |} in
  let Arg := ParenExpr (DeclRefExpr q 81) 80 82 in
  placeArgumentCast Modelled.isLt Modelled.isEq Modelled.mkString
    Modelled.getVariableE Modelled.getVariableD Info [Arg] h h 0 []
  = Some [InsertTextBefore 80 "_Assume_bounds_cast<ptr<int>>("; InsertTextAfter 80 ")"]
  /\ getLocEnd Arg = 82.
Proof. split; reflexivity. Qed.

(** The sets of constraint variables are ordered by the addresses of their
    elements.  On two variables that are not comparable the result of
    getHighest depends on which of them is iterated first. *)
Definition cvA : ConstraintVariable := PVConstraint "int" "a" [0; 1] None false.
Definition cvB : ConstraintVariable := PVConstraint "int" "b" [2; 3] None false.

Definition crossed : ProgramInfo :=
  {| freeKey := 4; Variables := ∅;
     CS := [Eq (AVar 1) (AConst Wild); Eq (AVar 2) (AConst Wild)] |}.

Lemma getHighest_depends_on_iteration_order :
  getHighest Modelled.isLt Modelled.isEq [cvA; cvB] crossed = Some cvA /\
  getHighest Modelled.isLt Modelled.isEq [cvB; cvA] crossed = Some cvB.
Proof. split; reflexivity. Qed.

End PlannerClaims.

(* ===================================================================== *)
(** ** The file write policy *)
(* ===================================================================== *)

Module WritePolicy.

(** *** llvm::sys::path on POSIX paths

    The functions of llvm/lib/Support/Path.cpp that canWrite and emit call,
    as LLVM has them at the time of this tool (no Windows branches).  A
    position is an index into the text; None stands for StringRef::npos. *)

Definition is_separator (c : ascii) : bool := Ascii.eqb c "/"%char.

(** The name that starts at the head of the text, and what follows it:
    path.slice(Position, path.find_first_of(separators, Position)). *)
Fixpoint upToSeparator (l : list ascii) : list ascii * list ascii :=
  match l with
  | [] => ([], [])
  | c :: l' =>
      if is_separator c then ([], l)
      else let '(n, r) := upToSeparator l' in (c :: n, r)
  end.

Fixpoint skipSeparators (l : list ascii) : list ascii :=
  match l with
  | c :: l' => if is_separator c then skipSeparators l' else l
  | [] => []
  end.

(** find_first_component, with what follows the component: a leading
    //net, else the root directory /, else a name. *)
Definition find_first_component (path : list ascii) : list ascii * list ascii :=
  match path with
  | [] => ([], [])
  | c0 :: c1 :: c2 :: rest =>
      if is_separator c0 && Ascii.eqb c0 c1 && negb (is_separator c2) then
        let '(n, r) := upToSeparator (c2 :: rest) in (c0 :: c1 :: n, r)
      else if is_separator c0 then ([c0], c1 :: c2 :: rest)
      else upToSeparator path
  | c0 :: rest =>
      if is_separator c0 then ([c0], rest) else upToSeparator path
  end.

Definition was_net (Component : list ascii) : bool :=
  match Component with
  | c0 :: c1 :: c2 :: _ => is_separator c0 && Ascii.eqb c1 c0 && negb (is_separator c2)
  | _ => false
  end.

(** const_iterator::operator++ on the component just yielded and the text
    that follows it; None when the end is reached.  After //net a separator
    is the root directory; otherwise separators are skipped, and a trailing
    run of them yields the component "." . *)
Definition increment (Component rest : list ascii) : option (list ascii * list ascii) :=
  match rest with
  | [] => None
  | c :: rest' =>
      if is_separator c then
        if was_net Component then Some ([c], rest')
        else
          match skipSeparators rest with
          | [] => Some (["."%char], [])
          | l => Some (upToSeparator l)
          end
      else Some (upToSeparator rest)
  end.

(** The components from the one at hand to the end.  Every increment
    consumes at least one character of the text (increment_consumes), so
    fuel equal to the length of the text is never used up
    (iterate_fuel). *)
Fixpoint iterate (fuel : nat) (Component rest : list ascii) : list string :=
  string_of_list_ascii Component ::
  match fuel with
  | 0 => []
  | S fuel' =>
      match increment Component rest with
      | None => []
      | Some (Component', rest') => iterate fuel' Component' rest'
      end
  end.

(** What iterating from path::begin to path::end yields. *)
Definition posix_components (s : string) : list string :=
  match list_ascii_of_string s with
  | [] => []
  | path => let '(Component, rest) := find_first_component path in
            iterate (length rest) Component rest
  end.

Definition sepAt (str : list ascii) (i : nat) : bool :=
  match nth_error str i with
  | Some c => is_separator c
  | None => false
  end.

(** str.find_last_of(separators) and str.find_first_of(separators, from). *)
Definition find_last_of (str : list ascii) : option nat :=
  (fix go (l : list ascii) (i : nat) (found : option nat) : option nat :=
     match l with
     | [] => found
     | c :: l' => go l' (S i) (if is_separator c then Some i else found)
     end) str 0 None.

Definition find_first_of (str : list ascii) (from : nat) : option nat :=
  (fix go (l : list ascii) (i : nat) : option nat :=
     match l with
     | [] => None
     | c :: l' => if Nat.leb from i && is_separator c then Some i else go l' (S i)
     end) str 0.

Definition filename_pos (str : list ascii) : nat :=
  if Nat.eqb (length str) 2 && sepAt str 0 && sepAt str 1 then 0
  else if Nat.ltb 0 (length str) && sepAt str (length str - 1) then length str - 1
  else
    match find_last_of str with
    | None => 0
    | Some pos => if Nat.eqb pos 1 && sepAt str 0 then 0 else pos + 1
    end.

Definition root_dir_start (str : list ascii) : option nat :=
  if Nat.eqb (length str) 2 && sepAt str 0 && sepAt str 1 then None
  else if Nat.ltb 3 (length str) && sepAt str 0 && sepAt str 1 && negb (sepAt str 2)
  then find_first_of str 2
  else if Nat.ltb 0 (length str) && sepAt str 0 then Some 0
  else None.

(** The loop of parent_path_end: separators before the file name are
    skipped, the root directory excepted. *)
Fixpoint skipBack (path : list ascii) (root_dir_pos : option nat) (end_pos : nat) : nat :=
  match end_pos with
  | 0 => 0
  | S e =>
      if negb (bool_decide (root_dir_pos = Some e)) && sepAt path e
      then skipBack path root_dir_pos e
      else end_pos
  end.

Definition parent_path_end (path : list ascii) : option nat :=
  let end_pos := filename_pos path in
  let filename_was_sep := Nat.ltb 0 (length path) && sepAt path end_pos in
  let root_dir_pos := root_dir_start (firstn end_pos path) in
  let end_pos := skipBack path root_dir_pos end_pos in
  if Nat.eqb end_pos 1 && bool_decide (root_dir_pos = Some 0) && filename_was_sep
  then None
  else Some end_pos.

(** llvm::sys::path::remove_filename: the text is cut at parent_path_end,
    and left as it is when that is npos. *)
Definition remove_filename (s : string) : string :=
  let path := list_ascii_of_string s in
  match parent_path_end path with
  | Some end_pos => string_of_list_ascii (firstn end_pos path)
  | None => s
  end.

Lemma upToSeparator_length l :
  length (upToSeparator l).2 <= length l.
Proof.
  induction l as [|c l IH]; simpl; [lia|].
  destruct (is_separator c); simpl; [lia|].
  destruct (upToSeparator l) as [n r]. simpl in *. lia.
Qed.

Lemma upToSeparator_consumes c l :
  is_separator c = false -> length (upToSeparator (c :: l)).2 < length (c :: l).
Proof.
  intros Hc. simpl. rewrite Hc. pose proof (upToSeparator_length l) as H.
  destruct (upToSeparator l) as [n r]. simpl in *. lia.
Qed.

Lemma skipSeparators_head l :
  match skipSeparators l with
  | [] => True
  | c :: l' => is_separator c = false /\ length (c :: l') <= length l
  end.
Proof.
  induction l as [|c l IH]; simpl; [exact Logic.I|].
  destruct (is_separator c) eqn:Hc.
  - destruct (skipSeparators l); [exact Logic.I|]. simpl in *. split; [tauto|lia].
  - split; [exact Hc|lia].
Qed.

(** Every increment consumes text. *)
Lemma increment_consumes Component rest Component' rest' :
  increment Component rest = Some (Component', rest') -> length rest' < length rest.
Proof.
  unfold increment. destruct rest as [|c rest0]; [discriminate|].
  destruct (is_separator c) eqn:Hc.
  - destruct (was_net Component).
    + intros [= _ <-]. simpl. lia.
    + pose proof (skipSeparators_head (c :: rest0)) as Hs.
      destruct (skipSeparators (c :: rest0)) as [|d l].
      * intros [= _ <-]. simpl. lia.
      * destruct Hs as [Hd Hlen]. intros H. injection H as H.
        change (upToSeparator (d :: l) = (Component', rest')) in H.
        pose proof (upToSeparator_consumes d l Hd) as Hcons.
        rewrite H in Hcons. simpl in Hcons, Hlen |- *. lia.
  - intros H. injection H as H.
    change (upToSeparator (c :: rest0) = (Component', rest')) in H.
    pose proof (upToSeparator_consumes c rest0 Hc) as Hcons.
    rewrite H in Hcons. simpl in Hcons |- *. lia.
Qed.

(** The iteration ends before its fuel does: more fuel yields the same
    components. *)
Lemma iterate_fuel : forall fuel fuel' Component rest,
  length rest <= fuel -> length rest <= fuel' ->
  iterate fuel Component rest = iterate fuel' Component rest.
Proof.
  induction fuel as [|fuel IH]; intros fuel' Component rest Hf Hf'.
  - destruct rest; [|simpl in Hf; lia]. destruct fuel'; reflexivity.
  - destruct fuel' as [|fuel'].
    + destruct rest; [reflexivity|simpl in Hf'; lia].
    + simpl. destruct (increment Component rest) as [[C' r']|] eqn:Hinc; [|reflexivity].
      apply increment_consumes in Hinc. f_equal. apply IH; lia.
Qed.

(** The components of some paths, and what remove_filename leaves of
    them. *)
Lemma posix_components_examples :
  posix_components "/a/b" = ["/"; "a"; "b"] /\
  posix_components "/a/b/" = ["/"; "a"; "b"; "."] /\
  posix_components "/l/b/x.c" = ["/"; "l"; "b"; "x.c"] /\
  posix_components "///a" = ["/"; "a"] /\
  posix_components "//" = ["/"; "."] /\
  posix_components "//a/b/x.c" = ["//a"; "/"; "b"; "x.c"] /\
  posix_components "a/b" = ["a"; "b"] /\
  posix_components "" = [].
Proof. repeat split; reflexivity. Qed.

Lemma remove_filename_examples :
  remove_filename "/a/b" = "/a" /\
  remove_filename "/a/b/" = "/a/b" /\
  remove_filename "/a" = "/" /\
  remove_filename "/" = "" /\
  remove_filename "a" = "" /\
  remove_filename "//net/x" = "//net/".
Proof. repeat split; reflexivity. Qed.

(** A file system in which /l is a symbolic link to the directory /a, which
    has a subdirectory b. *)
Definition symlink_fs (p : string) : option nat :=
  if String.eqb p "//" then Some 1
  else if String.eqb p "//a/" then Some 2
  else if String.eqb p "//l/" then Some 2
  else if String.eqb p "//a/b/" then Some 3
  else if String.eqb p "//l/b/" then Some 3
  else None.

Section Policy.

Variable status : string -> option nat.
Variable components : string -> list string.

(** The path text canWrite builds from a first component and the
    components that follow it. *)
Definition soFar (first : string) (rest : list string) : string :=
  fold_left extend rest (first +:+ get_separator).

(** The claim's reading of "descendant of the base directory, equivalence
    following symlinks": some directory on the way to the file is the base
    directory itself, as the file system resolves the two paths. *)
Definition descendantFollowingSymlinks (filePath b : string) : Prop :=
  let baseIt := components b in
  let pathIt := components filePath in
  exists k st,
    k <= length (tl pathIt) /\
    status (soFar (hd "" baseIt) (tl baseIt)) = Some st /\
    status (soFar (hd "" pathIt) (firstn k (tl pathIt))) = Some st.

(** What the loop of canWrite requires: the base has no more components
    than the path, each pair of prefixes the loop visits can be stat'ed and
    is one file, and the texts built from all of the base's components and
    from as many of the path's are equal. *)
Definition textualPrefix (filePath b : string) : Prop :=
  let baseIt := components b in
  let pathIt := components filePath in
  length (tl baseIt) <= length (tl pathIt) /\
  (forall k, k < length (tl baseIt) ->
     exists st,
       status (soFar (hd "" baseIt) (firstn k (tl baseIt))) = Some st /\
       status (soFar (hd "" pathIt) (firstn k (tl pathIt))) = Some st) /\
  soFar (hd "" baseIt) (tl baseIt) =
  soFar (hd "" pathIt) (firstn (length (tl baseIt)) (tl pathIt)).

Lemma canWriteLoop_true : forall bs ps B P,
  canWriteLoop status bs ps B P = true <->
  length bs <= length ps /\
  (forall k, k < length bs ->
     exists st, status (fold_left extend (firstn k bs) B) = Some st /\
                status (fold_left extend (firstn k ps) P) = Some st) /\
  fold_left extend bs B = fold_left extend (firstn (length bs) ps) P.
Proof.
  induction bs as [|s1 bs IH]; intros ps B P.
  - assert (canWriteLoop status [] ps B P = String.eqb B P) as -> by now destruct ps.
    rewrite String.eqb_eq. simpl. split.
    + intros ->. split; [lia|]. split; [intros k Hk; lia|reflexivity].
    + tauto.
  - destruct ps as [|s2 ps]; simpl.
    { split; [discriminate|]. intros [H _]. lia. }
    destruct (status B) as [bst|] eqn:HB.
    2:{ split; [discriminate|]. intros (_ & H & _).
        destruct (H 0) as (st & Hst & _); [lia|]. simpl in Hst. congruence. }
    destruct (status P) as [pst|] eqn:HP.
    2:{ split; [discriminate|]. intros (_ & H & _).
        destruct (H 0) as (st & _ & Hst); [lia|]. simpl in Hst. congruence. }
    unfold equivalent. destruct (Nat.eqb_spec bst pst) as [->|Hne]; simpl.
    + rewrite IH. split.
      * intros (Hlen & Hst & Heq). split; [lia|]. split; [|exact Heq].
        intros [|k] Hk; simpl.
        -- exists pst. auto.
        -- apply Hst. lia.
      * intros (Hlen & Hst & Heq). split; [lia|]. split; [|exact Heq].
        intros k Hk. apply (Hst (S k)). lia.
    + split; [discriminate|]. intros (_ & H & _).
      destruct (H 0) as (st & Hb & Hp); [lia|]. simpl in Hb, Hp. congruence.
Qed.

End Policy.

(** The file /l/b/x.c with its rewrite buffer, and the functions of
    llvm::sys::path at that name: the path is absolute and has no leading
    ./ , its file name is x.c, its parent path /l/b, its extension .c and
    its stem x. *)
Definition linked_file : TouchedFile := mkTouched (Some "/l/b/x.c") (Some "int x;").

(** C7, at the input on which it fails.  /l is a symbolic link to /a, the
    base directory is /a/b, given as --base-dir /a/b/ so that emit, which
    removes the last component, hands /a/b to canWrite, and the file
    /l/b/x.c is not named on the command line.  The file lies in the base
    directory once the link is followed.  The loop of canWrite stats the
    prefixes of the two paths, finds each pair to be one file and runs to
    the end of the base; the comparison of the two texts after the loop,
    //a/b/ against //l/b/, then rejects the file, and emit writes
    nothing. *)
Theorem canWrite_symlink_counterexample :
  descendantFollowingSymlinks symlink_fs posix_components "/l/b/x.c" "/a/b" /\
  ("/l/b/x.c" ∉ (∅ : gset string)) /\
  canWrite symlink_fs posix_components "/l/b/x.c" ∅ "/a/b" = false /\
  emitFile symlink_fs posix_components Some id
    (fun _ => "x.c") (fun _ => "/l/b") (fun _ => ".c") (fun _ => "x") (fun _ => true)
    "checked" ∅ "/a/b" (mkTouched (Some "/l/b/x.c") (Some "int x;")) = [] /\
  (symlink_fs "//a/" = symlink_fs "//l/") /\
  (canWriteLoop symlink_fs ["a"; "b"] ["l"; "b"; "x.c"] "//" "//" =
   atBaseEnd [] "//a/b/" "//l/b/") /\
  remove_filename "/a/b/" = "/a/b" /\
  emit symlink_fs posix_components Some remove_filename id
    (fun _ => "x.c") (fun _ => "/l/b") (fun _ => ".c") (fun _ => "x") (fun _ => true)
    "/a/b/" "checked" linked_file [linked_file] ∅ = Some [].
Proof.
  split; [|split; [|split]].
  - exists 2, 3. split; [vm_compute; lia|]. split; reflexivity.
  - apply not_elem_of_empty.
  - reflexivity.
  - repeat split; reflexivity.
Qed.

(** canWrite in terms of the loop: the file is accepted exactly when its
    path is one of the paths of the command line or the loop reaches the end
    of the base. *)
Lemma canWrite_loop_policy :
  forall (status : string -> option nat) (components : string -> list string)
         (filePath : string) (iof : gset string) (b : string),
    canWrite status components filePath iof b = true <->
    filePath ∈ iof \/ textualPrefix status components filePath b.
Proof.
  intros status components filePath iof b. unfold canWrite, textualPrefix, soFar.
  destruct (decide (filePath ∈ iof)) as [Hin|Hout].
  - split; [intros _; now left|reflexivity].
  - rewrite (canWriteLoop_true status components). split; [intros H; now right|].
    intros [Hin|H]; [contradiction|exact H].
Qed.

(** *** The text built from separator-free components determines them *)

Definition sepFree (c : string) : bool :=
  forallb (fun a => negb (Ascii.eqb a "/"%char)) (list_ascii_of_string c).

(** The components after the first hold no separator, as the iteration of
    a path yields them. *)
Definition wellFormed (cs : list string) : bool := forallb sepFree (tl cs).

Lemma list_ascii_of_string_app s t :
  list_ascii_of_string (s +:+ t) = list_ascii_of_string s ++ list_ascii_of_string t.
Proof. induction s as [|a s IH]; simpl; [reflexivity|now rewrite IH]. Qed.

Lemma list_ascii_of_string_inj s t :
  list_ascii_of_string s = list_ascii_of_string t -> s = t.
Proof.
  intros H. rewrite <- (string_of_list_ascii_of_string s),
              <- (string_of_list_ascii_of_string t). now rewrite H.
Qed.

Lemma sepFree_not_In c :
  sepFree c = true -> ~ In "/"%char (list_ascii_of_string c).
Proof.
  unfold sepFree. intros H Hin.
  rewrite forallb_forall in H. specialize (H _ Hin). discriminate.
Qed.

Lemma split_at_first {A} (a : A) : forall c d l1 l2,
  ~ In a c -> ~ In a d -> c ++ a :: l1 = d ++ a :: l2 -> c = d /\ l1 = l2.
Proof.
  induction c as [|x c IH]; intros [|y d] l1 l2 Hc Hd Heq; simpl in *.
  - injection Heq as ->. auto.
  - injection Heq as -> _. tauto.
  - injection Heq as -> _. tauto.
  - injection Heq as -> Heq. destruct (IH d l1 l2) as [-> ->]; auto.
Qed.

Lemma split_at_last {A} (a : A) l1 l2 c d :
  ~ In a c -> ~ In a d -> l1 ++ a :: c = l2 ++ a :: d -> l1 = l2 /\ c = d.
Proof.
  intros Hc Hd Heq. apply (f_equal (@rev A)) in Heq.
  rewrite !rev_app_distr in Heq. simpl in Heq. rewrite <- !app_assoc in Heq. simpl in Heq.
  destruct (split_at_first a (rev c) (rev d) (rev l1) (rev l2)) as [H1 H2]; auto.
  - now rewrite <- in_rev.
  - now rewrite <- in_rev.
  - split; now apply rev_inj.
Qed.

Definition endsWithSeparator (s : string) : Prop := exists s', s = s' +:+ get_separator.

Lemma extend_sepFree B c : sepFree c = true -> extend B c = B +:+ (c +:+ get_separator).
Proof.
  intros Hc. unfold extend. destruct (String.eqb_spec c get_separator) as [->|_]; auto.
  discriminate.
Qed.

Lemma extend_ends B c : endsWithSeparator B -> endsWithSeparator (extend B c).
Proof.
  intros HB. unfold extend. destruct (String.eqb c get_separator); auto.
  exists (B +:+ c). apply list_ascii_of_string_inj.
  rewrite !list_ascii_of_string_app. now rewrite app_assoc.
Qed.

Lemma soFar_ends cs : forall B,
  endsWithSeparator B -> endsWithSeparator (fold_left extend cs B).
Proof.
  induction cs as [|c cs IH]; intros B HB; simpl; auto. apply IH. now apply extend_ends.
Qed.

Lemma extend_inj B P c d :
  endsWithSeparator B -> endsWithSeparator P ->
  sepFree c = true -> sepFree d = true ->
  extend B c = extend P d -> B = P /\ c = d.
Proof.
  intros [B' ->] [P' ->] Hc Hd. rewrite !extend_sepFree by assumption.
  intros Heq. apply (f_equal list_ascii_of_string) in Heq.
  rewrite !list_ascii_of_string_app in Heq. simpl in Heq.
  rewrite !app_assoc in Heq. apply app_inj_tail in Heq as [Heq _].
  rewrite <- !app_assoc in Heq. simpl in Heq.
  apply split_at_last in Heq as [HB Hcd]; try now apply sepFree_not_In.
  apply list_ascii_of_string_inj in HB, Hcd. now subst.
Qed.

Lemma soFar_inj : forall bs ps B P,
  length bs = length ps ->
  forallb sepFree bs = true -> forallb sepFree ps = true ->
  endsWithSeparator B -> endsWithSeparator P ->
  fold_left extend bs B = fold_left extend ps P -> B = P /\ bs = ps.
Proof.
  induction bs as [|c bs IH]; intros [|d ps] B P Hlen Hb Hp HB HP Heq;
    simpl in *; try discriminate; auto.
  apply andb_true_iff in Hb as [Hc Hb]. apply andb_true_iff in Hp as [Hd Hp].
  destruct (IH ps (extend B c) (extend P d)) as [Hext ->]; auto using extend_ends.
  destruct (extend_inj B P c d) as [-> ->]; auto.
Qed.

Lemma forallb_firstn {A} (f : A -> bool) n l :
  forallb f l = true -> forallb f (firstn n l) = true.
Proof.
  revert l. induction n as [|n IH]; intros [|x l] H; simpl in *; auto.
  apply andb_true_iff in H as [Hx Hl]. now rewrite Hx, IH.
Qed.

(** The paths canWrite accepts: those of the command line, and those whose
    leading components are, text for text, the components of the base,
    every directory prefix on the way being one that can be stat'ed. *)
Definition accepted (status : string -> option nat) (components : string -> list string)
  (filePath : string) (iof : gset string) (b : string) : Prop :=
  filePath ∈ iof \/
  (hd "" (components b) = hd "" (components filePath) /\
   (exists rest, tl (components filePath) = tl (components b) ++ rest) /\
   forall k, k < length (tl (components b)) ->
     is_Some (status (soFar (hd "" (components b)) (firstn k (tl (components b)))))).

Lemma canWrite_accepted :
  forall (status : string -> option nat) (components : string -> list string)
         (filePath : string) (iof : gset string) (b : string),
    wellFormed (components b) = true ->
    wellFormed (components filePath) = true ->
    (canWrite status components filePath iof b = true <->
     accepted status components filePath iof b).
Proof.
  intros status components filePath iof b Hwb Hwp. unfold accepted.
  rewrite canWrite_loop_policy. unfold textualPrefix, soFar, wellFormed in *.
  set (b0 := hd "" (components b)) in *. set (p0 := hd "" (components filePath)) in *.
  set (bs := tl (components b)) in *. set (ps := tl (components filePath)) in *.
  split; (intros [Hin|H]; [now left|right]).
  - destruct H as (Hlen & Hst & Heq).
    destruct (soFar_inj bs (firstn (length bs) ps)
                (b0 +:+ get_separator) (p0 +:+ get_separator)) as [H0 Hbs]; auto.
    + rewrite length_firstn. lia.
    + now apply forallb_firstn.
    + now exists b0.
    + now exists p0.
    + split; [|split].
      * apply list_ascii_of_string_inj.
        apply (f_equal list_ascii_of_string) in H0.
        rewrite !list_ascii_of_string_app in H0. now apply app_inj_tail in H0 as [H0 _].
      * exists (skipn (length bs) ps). rewrite Hbs at 1. symmetry. apply firstn_skipn.
      * intros k Hk. destruct (Hst k Hk) as (st & Hs & _). now exists st.
  - destruct H as (H0 & (rest & Hps) & Hst).
    assert (firstn (length bs) ps = bs) as Hfirst.
    { rewrite Hps, firstn_app, Nat.sub_diag, firstn_all. simpl. apply app_nil_r. }
    split; [|split].
    + rewrite Hps, length_app. lia.
    + intros k Hk. destruct (Hst k Hk) as (st & Hs). exists st. split; auto.
      rewrite <- H0. rewrite Hps, firstn_app.
      replace (k - length bs) with 0 by lia. simpl. now rewrite app_nil_r.
    + now rewrite Hfirst, H0.
Qed.

(** What the body of emit's loop does with the base it is given.  Under a
    postfix other than "-", a touched file that has a rewrite buffer and a
    file entry, and whose output file can be opened, is written exactly
    when its absolute path is one of the paths of the command line, or the
    components of the base are, text for text, the leading components of
    that path and every directory prefix the loop visits on the way can be
    stat'ed; the components after the first are taken to hold no
    separator. *)
Lemma write_policy :
  forall (status : string -> option nat) (components : string -> list string)
         (make_absolute : string -> option string)
         (remove_leading_dotslash filename parent_path extension stem : string -> string)
         (canOpen : string -> bool)
         (OutputPostfix : string) (InOutFiles : gset string) (base : string)
         (F : TouchedFile) (name B : string),
    getFileEntryForID F = Some name ->
    getRewriteBufferFor F = Some B ->
    let feAbsS := match make_absolute name with
                  | Some feAbs => remove_leading_dotslash feAbs
                  | None => ""
                  end in
    let nFile := outputName remove_leading_dotslash filename parent_path extension stem
                   OutputPostfix name in
    canOpen nFile = true ->
    wellFormed (components base) = true ->
    wellFormed (components feAbsS) = true ->
    (In (OutputFile nFile, B)
        (emitFile status components make_absolute remove_leading_dotslash
           filename parent_path extension stem canOpen
           OutputPostfix InOutFiles base F)
     <-> accepted status components feAbsS InOutFiles base).
Proof.
  intros status components make_absolute remove_leading_dotslash filename parent_path
    extension stem canOpen OutputPostfix InOutFiles base F name B HFE HB feAbsS nFile
    Hopen Hwb Hwp.
  rewrite <- (canWrite_accepted status components feAbsS InOutFiles base Hwb Hwp).
  unfold emitFile. rewrite HB, HFE. fold feAbsS. fold nFile. rewrite Hopen.
  destruct (canWrite status components feAbsS InOutFiles base); simpl.
  - split; auto.
  - split; [tauto|discriminate].
Qed.

Lemma write_policy_witness :
  In (OutputFile "/a/b/x.checked.c", "int x;")
     (emitFile symlink_fs posix_components Some id
        (fun _ => "x.c") (fun _ => "/a/b") (fun _ => ".c") (fun _ => "x") (fun _ => true)
        "checked" ∅ "/a/b" (mkTouched (Some "/a/b/x.c") (Some "int x;"))).
Proof.
  apply (write_policy symlink_fs posix_components Some id
           (fun _ => "x.c") (fun _ => "/a/b") (fun _ => ".c") (fun _ => "x") (fun _ => true)
           "checked" ∅ "/a/b" (mkTouched (Some "/a/b/x.c") (Some "int x;"))
           "/a/b/x.c" "int x;");
    [reflexivity..|].
  right. split; [reflexivity|]. split; [now exists ["x.c"]|].
  intros k Hk. change (k < 2) in Hk.
  destruct k as [|[|k]]; [now exists 1|now exists 2|lia].
Defined.

(** A file of the base directory is accepted, a file reached through the
    link is not. *)
Lemma canWrite_examples :
  canWrite symlink_fs posix_components "/a/b/x.c" ∅ "/a/b" = true /\
  canWrite symlink_fs posix_components "/l/b/x.c" {["/l/b/x.c"]} "/a/b" = true /\
  canWrite symlink_fs posix_components "/a/x.c" ∅ "/a/b" = false.
Proof. repeat split; reflexivity. Qed.

(** emit hands canWrite the absolute base directory with its last component
    removed: for --base-dir /a/b the base is /a, and the file /a/x.c, which
    lies outside /a/b, is written. *)
Lemma emit_base_is_the_parent :
  remove_filename "/a/b" = "/a" /\
  canWrite symlink_fs posix_components "/a/x.c" ∅ (remove_filename "/a/b") = true /\
  emit symlink_fs posix_components Some remove_filename id
    (fun _ => "x.c") (fun _ => "/a") (fun _ => ".c") (fun _ => "x") (fun _ => true)
    "/a/b" "checked" (mkTouched (Some "/a/x.c") (Some "int x;"))
    [mkTouched (Some "/a/x.c") (Some "int x;")] ∅
  = Some [(OutputFile "/a/x.checked.c", "int x;")].
Proof. repeat split; reflexivity. Qed.

End WritePolicy.

(* ===================================================================== *)
(** ** More of ConstraintBuilder.cpp: what the visitors add to the store *)
(* ===================================================================== *)

Module BuilderExtras.

(** Induction on a constraint variable and the variables nested in it. *)
Lemma ConstraintVariable_nested_ind (P : ConstraintVariable -> Prop) :
  (forall b n vars arr, P (PVConstraint b n vars None arr)) ->
  (forall b n vars F arr, P F -> P (PVConstraint b n vars (Some F) arr)) ->
  (forall n rs ps hp hb,
     Forall P rs -> Forall (Forall P) ps -> P (FVConstraint n rs ps hp hb)) ->
  forall V, P V.
Proof.
  intros HPN HPS HF. fix IH 1. intros [b n vars [F|] arr | n rs ps hp hb].
  - apply HPS. apply IH.
  - apply HPN.
  - apply HF.
    + induction rs as [|U rs IHrs]; constructor; [apply IH | exact IHrs].
    + induction ps as [|l ps IHps]; constructor; [|exact IHps].
      induction l as [|U l IHl]; constructor; [apply IH | exact IHl].
Qed.

(** The qualifier variables within a constraint variable, in the order in
    which constrainTo visits them. *)
Fixpoint allVars (V : ConstraintVariable) : list nat :=
  match V with
  | PVConstraint _ _ vars FV _ =>
      vars ++ match FV with Some F => allVars F | None => [] end
  | FVConstraint _ rs ps _ _ =>
      (fix each (l : list ConstraintVariable) : list nat :=
         match l with
         | [] => []
         | U :: l' => allVars U ++ each l'
         end) rs ++
      (fix params (ll : list (list ConstraintVariable)) : list nat :=
         match ll with
         | [] => []
         | l :: ll' =>
             (fix each (l : list ConstraintVariable) : list nat :=
                match l with
                | [] => []
                | U :: l' => allVars U ++ each l'
                end) l ++ params ll'
         end) ps
  end.

Definition allVarsOf (l : list ConstraintVariable) : list nat := flat_map allVars l.

Lemma allVars_FV n rs ps hp hb :
  allVars (FVConstraint n rs ps hp hb) = allVarsOf rs ++ flat_map allVarsOf ps.
Proof. reflexivity. Qed.

Lemma constrainTo_FV n rs ps hp hb C cs :
  constrainTo (FVConstraint n rs ps hp hb) C cs =
  fold_left (fun cs l => fold_left (fun cs U => constrainTo U C cs) l cs) ps
    (fold_left (fun cs U => constrainTo U C cs) rs cs).
Proof. reflexivity. Qed.

Definition eqTo (C : Atom) (q : nat) : Constraint := Eq (AVar q) C.

Lemma fold_constrainTo C l :
  Forall (fun U => forall cs, constrainTo U C cs = cs ++ map (eqTo C) (allVars U)) l ->
  forall cs, fold_left (fun cs U => constrainTo U C cs) l cs
             = cs ++ map (eqTo C) (allVarsOf l).
Proof.
  induction 1 as [|U l HU _ IH]; intros cs; simpl.
  - now rewrite app_nil_r.
  - rewrite IH, HU. unfold allVarsOf. simpl. now rewrite map_app, app_assoc.
Qed.

(** constrainTo adds Eq(q, C) for each variable within V, and nothing
    else. *)
Lemma constrainTo_spec C V :
  forall cs, constrainTo V C cs = cs ++ map (eqTo C) (allVars V).
Proof.
  induction V as [b n vars arr | b n vars F arr IHF | n rs ps hp hb Hrs Hps]
    using ConstraintVariable_nested_ind; intros cs.
  - simpl. rewrite app_nil_r. apply constrainVars_spec.
  - simpl. rewrite IHF, constrainVars_spec, map_app. now rewrite app_assoc.
  - rewrite constrainTo_FV, allVars_FV, (fold_constrainTo C rs Hrs), map_app, app_assoc.
    generalize (cs ++ map (eqTo C) (allVarsOf rs)). clear Hrs cs.
    induction Hps as [|l ps Hl _ IH]; intros cs; simpl.
    + now rewrite app_nil_r.
    + rewrite IH, (fold_constrainTo C l Hl), map_app. now rewrite app_assoc.
Qed.

(** *** constrainEq only ties the variables of its arguments *)

(** cs' is cs followed by constraints that all satisfy Q. *)
Definition Extends (Q : Constraint -> Prop) (cs cs' : ConstraintSet) : Prop :=
  exists added, cs' = cs ++ added /\ List.Forall Q added.

Lemma Extends_refl Q cs : Extends Q cs cs.
Proof. exists []. split; [now rewrite app_nil_r | constructor]. Qed.

Lemma Extends_trans Q cs1 cs2 cs3 :
  Extends Q cs1 cs2 -> Extends Q cs2 cs3 -> Extends Q cs1 cs3.
Proof.
  intros (a1 & -> & H1) (a2 & -> & H2). exists (a1 ++ a2).
  split; [now rewrite app_assoc | apply List.Forall_app; now split].
Qed.

Lemma Extends_mono (Q Q' : Constraint -> Prop) cs cs' :
  (forall c, Q c -> Q' c) -> Extends Q cs cs' -> Extends Q' cs cs'.
Proof.
  intros HQ (a & -> & H). exists a. split; auto. eapply List.Forall_impl; eauto.
Qed.

Lemma Extends_exact (Q : Constraint -> Prop) cs added :
  List.Forall Q added -> Extends Q cs (cs ++ added).
Proof. intros H. now exists added. Qed.

Lemma Extends_fold {A} Q (f : ConstraintSet -> A -> ConstraintSet) (l : list A) :
  (forall x, In x l -> forall cs, Extends Q cs (f cs x)) ->
  forall cs, Extends Q cs (fold_left f l cs).
Proof.
  induction l as [|x l IH]; intros Hf cs; simpl; [apply Extends_refl|].
  eapply Extends_trans; [apply Hf; now left|]. apply IH. intros y Hy. apply Hf. now right.
Qed.

(** An equality between two variables of vs, or of a variable of vs with
    Wild. *)
Definition ties (vs : list nat) (c : Constraint) : Prop :=
  match c with
  | Eq (AVar i) (AVar j) => In i vs /\ In j vs
  | Eq (AVar q) (AConst Wild) => In q vs
  | _ => False
  end.

Lemma ties_mono vs vs' c : incl vs vs' -> ties vs c -> ties vs' c.
Proof.
  intros Hincl. destruct c as [[k|i] [k'|j]| |]; simpl; auto.
  - destruct k'; auto.
  - intros [Hi Hj]. split; now apply Hincl.
Qed.

Lemma allVars_In_set U l : In U l -> incl (allVars U) (allVarsOf l).
Proof. intros HU q Hq. apply in_flat_map. now exists U. Qed.

Lemma allVarsOf_In_params l ll : In l ll -> incl (allVarsOf l) (flat_map allVarsOf ll).
Proof. intros Hl q Hq. apply in_flat_map. now exists l. Qed.

Lemma constrainTo_ties V cs : Extends (ties (allVars V)) cs (constrainTo V getWild cs).
Proof.
  rewrite constrainTo_spec. apply Extends_exact.
  apply List.Forall_forall. intros c Hc. apply in_map_iff in Hc as (q & <- & Hq). exact Hq.
Qed.

(** The loop over the parameters of two function variables of equal
    arity. *)
Fixpoint constrainParams (pl pr : list (list ConstraintVariable)) (cs : ConstraintSet)
  : ConstraintSet :=
  match pl, pr with
  | V1 :: pl', V2 :: pr' => constrainParams pl' pr' (constrainEqSet V1 V2 cs)
  | _, _ => cs
  end.

Lemma constrainEq_FV_FV nl retL parL hpl hbl nr retR parR hpr hbr cs :
  constrainEq (FVConstraint nl retL parL hpl hbl) (FVConstraint nr retR parR hpr hbr) cs =
  let cs1 := constrainEqSet retL retR cs in
  if Nat.eqb (length parL) (length parR)
  then constrainParams parL parR cs1
  else constrainTo (FVConstraint nl retL parL hpl hbl) getWild
         (constrainTo (FVConstraint nr retR parR hpr hbr) getWild cs1).
Proof. reflexivity. Qed.

Definition tiesBoth (L R : ConstraintVariable) : Constraint -> Prop :=
  ties (allVars L ++ allVars R).

Lemma constrainEqSet_ties A B :
  List.Forall (fun L => forall R cs, Extends (tiesBoth L R) cs (constrainEq L R cs)) A ->
  forall cs, Extends (ties (allVarsOf A ++ allVarsOf B)) cs (constrainEqSet A B cs).
Proof.
  intros HA cs. unfold constrainEqSet. apply Extends_fold. intros Ci HCi cs1.
  apply Extends_fold. intros Cj HCj cs2.
  rewrite List.Forall_forall in HA.
  eapply Extends_mono; [|apply (HA Ci HCi Cj cs2)].
  intros c. apply ties_mono. apply incl_app.
  - apply incl_appl. now apply allVars_In_set.
  - apply incl_appr. now apply allVars_In_set.
Qed.

Lemma constrainParams_ties pl :
  List.Forall
    (List.Forall (fun L => forall R cs, Extends (tiesBoth L R) cs (constrainEq L R cs))) pl ->
  forall pr cs,
    Extends (ties (flat_map allVarsOf pl ++ flat_map allVarsOf pr)) cs
            (constrainParams pl pr cs).
Proof.
  induction 1 as [|V1 pl HV1 _ IH]; intros [|V2 pr] cs; simpl; try apply Extends_refl.
  eapply Extends_trans.
  - eapply Extends_mono; [|apply (constrainEqSet_ties V1 V2 HV1)].
    intros c. apply ties_mono. apply incl_app.
    + apply incl_appl, incl_appl, incl_refl.
    + apply incl_appr, incl_appl, incl_refl.
  - eapply Extends_mono; [|apply IH].
    intros c. apply ties_mono. apply incl_app.
    + apply incl_appl, incl_appr, incl_refl.
    + apply incl_appr, incl_appr, incl_refl.
Qed.

Lemma levelwise_ties CL CR :
  List.Forall (ties (CL ++ CR)) (levelwise CL CR).
Proof.
  apply List.Forall_forall. intros c Hc. unfold levelwise in Hc.
  apply in_map_iff in Hc as ([i j] & <- & Hij). simpl.
  split; apply in_or_app; [left; eapply in_combine_l | right; eapply in_combine_r]; eauto.
Qed.

Lemma allPairs_ties CL CR :
  List.Forall (ties (CL ++ CR)) (allPairs CL CR).
Proof.
  apply List.Forall_forall. intros c Hc. unfold allPairs in Hc.
  apply in_flat_map in Hc as (i & Hi & Hc). apply in_map_iff in Hc as (j & <- & Hj).
  simpl. split; apply in_or_app; auto.
Qed.

Lemma constrainEq_PV_PV bl nl CL fl al br nr CR fr ar cs :
  constrainEq (PVConstraint bl nl CL fl al) (PVConstraint br nr CR fr ar) cs =
  cs ++ (if Nat.eqb (length CL) (length CR) then levelwise CL CR else allPairs CL CR).
Proof.
  simpl. destruct fl; destruct (Nat.eqb (length CL) (length CR));
    auto using constrainLevelwise_spec, constrainAllPairs_spec.
Qed.

Lemma constrainEq_PV_FV_none b n vars arr nr rr pr hpr hbr cs :
  constrainEq (PVConstraint b n vars None arr) (FVConstraint nr rr pr hpr hbr) cs =
  constrainTo (FVConstraint nr rr pr hpr hbr) getWild
    (constrainTo (PVConstraint b n vars None arr) getWild cs).
Proof. reflexivity. Qed.

Lemma constrainEq_PV_FV_some b n vars F arr nr rr pr hpr hbr cs :
  constrainEq (PVConstraint b n vars (Some F) arr) (FVConstraint nr rr pr hpr hbr) cs =
  constrainEq F (FVConstraint nr rr pr hpr hbr) cs.
Proof. reflexivity. Qed.

Lemma constrainEq_FV_PV n rs ps hp hb br nr CR fr ar cs :
  constrainEq (FVConstraint n rs ps hp hb) (PVConstraint br nr CR fr ar) cs =
  constrainTo (PVConstraint br nr CR fr ar) getWild
    (constrainTo (FVConstraint n rs ps hp hb) getWild cs).
Proof. reflexivity. Qed.

Lemma constrainEq_ties (L : ConstraintVariable) :
  forall R cs, Extends (tiesBoth L R) cs (constrainEq L R cs).
Proof.
  induction L as [b n vars arr | b n vars F arr IHF | n rs ps hp hb Hrs Hps]
    using ConstraintVariable_nested_ind; intros R cs.
  - destruct R as [br nr CR fr ar | nr rr pr hpr hbr].
    + rewrite constrainEq_PV_PV. apply Extends_exact. unfold tiesBoth. simpl.
      rewrite app_nil_r.
      eapply List.Forall_impl;
        [|destruct (Nat.eqb (length vars) (length CR));
          [apply levelwise_ties | apply allPairs_ties]].
      intros c. apply ties_mono. apply incl_app; [apply incl_appl, incl_refl|].
      apply incl_appr, incl_appl, incl_refl.
    + rewrite constrainEq_PV_FV_none. eapply Extends_trans.
      * eapply Extends_mono; [|apply constrainTo_ties].
        intros c. apply ties_mono. apply incl_appl, incl_refl.
      * eapply Extends_mono; [|apply constrainTo_ties].
        intros c. apply ties_mono. apply incl_appr, incl_refl.
  - destruct R as [br nr CR fr ar | nr rr pr hpr hbr].
    + rewrite constrainEq_PV_PV. apply Extends_exact. unfold tiesBoth. simpl.
      eapply List.Forall_impl;
        [|destruct (Nat.eqb (length vars) (length CR));
          [apply levelwise_ties | apply allPairs_ties]].
      intros c. apply ties_mono. apply incl_app; [apply incl_appl, incl_appl, incl_refl|].
      apply incl_appr, incl_appl, incl_refl.
    + rewrite constrainEq_PV_FV_some. eapply Extends_mono; [|apply IHF].
      intros c. apply ties_mono. apply incl_app; [|apply incl_appr, incl_refl].
      apply incl_appl. simpl. apply incl_appr, incl_refl.
  - destruct R as [br nr CR fr ar | nr rr pr hpr hbr].
    + rewrite constrainEq_FV_PV. eapply Extends_trans.
      * eapply Extends_mono; [|apply constrainTo_ties].
        intros c. apply ties_mono. apply incl_appl, incl_refl.
      * eapply Extends_mono; [|apply constrainTo_ties].
        intros c. apply ties_mono. apply incl_appr, incl_refl.
    + rewrite constrainEq_FV_FV. cbv zeta. unfold tiesBoth. rewrite !allVars_FV.
      eapply Extends_trans.
      * eapply Extends_mono; [|apply (constrainEqSet_ties rs rr Hrs)].
        intros c. apply ties_mono. apply incl_app.
        -- apply incl_appl, incl_appl, incl_refl.
        -- apply incl_appr, incl_appl, incl_refl.
      * destruct (Nat.eqb (length ps) (length pr)).
        -- eapply Extends_mono; [|apply (constrainParams_ties ps Hps)].
           intros c. apply ties_mono. apply incl_app.
           ++ apply incl_appl, incl_appr, incl_refl.
           ++ apply incl_appr, incl_appr, incl_refl.
        -- eapply Extends_trans.
           ++ eapply Extends_mono; [|apply constrainTo_ties].
              intros c. apply ties_mono. rewrite allVars_FV. apply incl_appr, incl_refl.
           ++ eapply Extends_mono; [|apply constrainTo_ties].
              intros c. apply ties_mono. rewrite allVars_FV. apply incl_appl, incl_refl.
Qed.

(** X1.  constrainEq, on constraint variables of any shape, only appends to
    the store, and what it appends are equalities between two qualifier
    variables of its arguments or between one of them and Wild: no
    constraint is removed, no other constant, no negation and no implication
    is introduced, and no variable foreign to the two arguments is
    mentioned. *)
Theorem constrainEq_only_ties_its_arguments :
  forall (L R : ConstraintVariable) (cs : ConstraintSet),
  exists added,
    constrainEq L R cs = cs ++ added /\
    List.Forall (ties (allVars L ++ allVars R)) added.
Proof. intros L R cs. exact (constrainEq_ties L R cs). Qed.

(** *** constrainAssign *)

(** A constraint that equates a qualifier variable with another one or
    with Wild. *)
Definition equatesOrWild (c : Constraint) : Prop := exists vs, ties vs c.

(** Info' differs from Info by constraints appended to the store: no
    qualifier variable was allocated and the variable map is the same. *)
Definition OnlyAdds (Q : Constraint -> Prop) (Info Info' : ProgramInfo) : Prop :=
  freeKey Info' = freeKey Info /\
  Variables Info' = Variables Info /\
  Extends Q (CS Info) (CS Info').

Lemma OnlyAdds_refl Q Info : OnlyAdds Q Info Info.
Proof. repeat split. apply Extends_refl. Qed.

Lemma OnlyAdds_trans Q I1 I2 I3 : OnlyAdds Q I1 I2 -> OnlyAdds Q I2 I3 -> OnlyAdds Q I1 I3.
Proof.
  intros (F1 & V1 & E1) (F2 & V2 & E2). repeat split; try congruence.
  eapply Extends_trans; eauto.
Qed.

Lemma OnlyAdds_set Q Info cs : Extends Q (CS Info) cs -> OnlyAdds Q Info (setConstraints Info cs).
Proof. intros H. repeat split. exact H. Qed.

Lemma OnlyAdds_mono (Q Q' : Constraint -> Prop) I1 I2 :
  (forall c, Q c -> Q' c) -> OnlyAdds Q I1 I2 -> OnlyAdds Q' I1 I2.
Proof. intros HQ (F & V & E). repeat split; auto. eapply Extends_mono; eauto. Qed.

Lemma constrainCvarsWild_Extends Vs cs : Extends equatesOrWild cs (constrainCvarsWild Vs cs).
Proof.
  rewrite constrainCvarsWild_spec. apply Extends_exact.
  apply List.Forall_forall. intros c Hc.
  apply in_flat_map in Hc as (U & _ & Hc). apply in_map_iff in Hc as (q & <- & _).
  exists [q]. simpl. now left.
Qed.

Lemma constrainEqSet_Extends A B cs : Extends equatesOrWild cs (constrainEqSet A B cs).
Proof.
  eapply Extends_mono; [|apply (constrainEqSet_ties A B)].
  - intros c Hc. now exists (allVarsOf A ++ allVarsOf B).
  - apply List.Forall_forall. intros L _ R cs'.
    apply constrainEq_ties.
Qed.

Lemma constrainAllWild_Extends Vs cs : Extends equatesOrWild cs (constrainAllWild Vs cs).
Proof.
  unfold constrainAllWild. apply Extends_fold. intros U _ cs'.
  eapply Extends_mono; [|apply constrainTo_ties]. intros c Hc. now exists (allVars U).
Qed.

Lemma constrainAssign_OnlyAdds
  (gE : ProgramInfo -> Expr -> bool -> list ConstraintVariable)
  (cse : list ConstraintVariable -> list ConstraintVariable -> QualType -> QualType -> bool)
  V lhsType RHS Info Info' :
  constrainAssign gE cse V lhsType RHS Info = Some Info' ->
  OnlyAdds equatesOrWild Info Info'.
Proof.
  intros Hrun.
  unfold constrainAssign in Hrun. destruct RHS as [E|].
  2:{ injection Hrun as <-. apply OnlyAdds_refl. }
  destruct (Nat.eqb (length V) 0).
  { injection Hrun as <-. apply OnlyAdds_refl. }
  destruct (Nat.ltb 0 (length (gE Info E false))).
  { injection Hrun as <-. apply OnlyAdds_set, constrainEqSet_Extends. }
  destruct (isIntegerConstantExpr (IgnoreParens E)).
  { destruct (negb (isNullPointerConstant (IgnoreParens E))); injection Hrun as <-.
    - apply OnlyAdds_set, constrainCvarsWild_Extends.
    - apply OnlyAdds_refl. }
  destruct (IgnoreParens E) as [| | | |ty Sub l| | | | |];
    try (injection Hrun as <-; apply OnlyAdds_refl).
  destruct (if cse V (gE Info Sub false) lhsType (getType (CStyleCastExpr ty Sub l))
            then mallocRule cse V (gE Info Sub false) lhsType
                   (getType (CStyleCastExpr ty Sub l)) Sub
            else Some false) as [[|]|]; simpl in Hrun; try discriminate;
    injection Hrun as <-.
  - apply OnlyAdds_refl.
  - apply OnlyAdds_set. eapply Extends_trans; apply constrainCvarsWild_Extends.
Qed.

(** X2.  Whenever constrainAssign returns, it has allocated no qualifier
    variable, has left the variable map as it was and has only appended to
    the store, and every constraint it appended equates a qualifier variable
    with another one or with Wild. *)
Theorem constrainAssign_only_adds :
  forall (getVariableE : ProgramInfo -> Expr -> bool -> list ConstraintVariable)
         (checkStructuralEquality :
            list ConstraintVariable -> list ConstraintVariable ->
            QualType -> QualType -> bool)
         (V : list ConstraintVariable) (lhsType : QualType) (RHS : option Expr)
         (Info Info' : ProgramInfo),
    constrainAssign getVariableE checkStructuralEquality V lhsType RHS Info = Some Info' ->
    freeKey Info' = freeKey Info /\
    Variables Info' = Variables Info /\
    exists added,
      CS Info' = CS Info ++ added /\ List.Forall equatesOrWild added.
Proof.
  intros gE cse V lhsType RHS Info Info' Hrun.
  exact (constrainAssign_OnlyAdds gE cse V lhsType RHS Info Info' Hrun).
Qed.

Lemma constrainAssign_only_adds_witness :
  exists Info',
    constrainAssign Modelled.getVariableE Modelled.checkStructuralEquality
      [PVConstraint "int" "p" [0] None false] (TPointer TInt)
      (Some (IntegerLiteral 7 34)) emptyInfo = Some Info' /\
    freeKey Info' = 0 /\ Variables Info' = ∅.
Proof.
  eexists. split; [reflexivity|].
  destruct (constrainAssign_only_adds Modelled.getVariableE Modelled.checkStructuralEquality
              [PVConstraint "int" "p" [0] None false] (TPointer TInt)
              (Some (IntegerLiteral 7 34)) emptyInfo _ eq_refl) as (HF & HV & _).
  split; [exact HF | exact HV].
Defined.

(** X3.  constrainAssign fails to return in one situation only: the
    left-hand side has constraint variables, the right-hand side has none
    and is, under its parentheses, a C-style cast of a call that has no
    callee declaration, and the cast is structurally equal to the left-hand
    side's type (the malloc rule then applies dyn_cast to the null callee
    declaration). *)
Theorem constrainAssign_fails_only_on_unresolved_call :
  forall (getVariableE : ProgramInfo -> Expr -> bool -> list ConstraintVariable)
         (checkStructuralEquality :
            list ConstraintVariable -> list ConstraintVariable ->
            QualType -> QualType -> bool)
         (V : list ConstraintVariable) (lhsType : QualType) (RHS : option Expr)
         (Info : ProgramInfo),
    constrainAssign getVariableE checkStructuralEquality V lhsType RHS Info = None <->
    exists E ty args cty b r l,
      RHS = Some E /\ V <> [] /\ getVariableE Info E false = [] /\
      IgnoreParens E = CStyleCastExpr ty (CallExpr None args cty b r) l /\
      checkStructuralEquality V (getVariableE Info (CallExpr None args cty b r) false)
        lhsType ty = true.
Proof.
  intros gE cse V lhsType RHS Info. unfold constrainAssign. split.
  - destruct RHS as [E|]; [|discriminate].
    destruct V as [|U V]; [discriminate|]. simpl Nat.eqb. cbv iota.
    destruct (gE Info E false) as [|W0 W] eqn:HW; [|discriminate]. simpl Nat.ltb. cbv iota.
    destruct (isIntegerConstantExpr (IgnoreParens E));
      [destruct (negb (isNullPointerConstant (IgnoreParens E))); discriminate|].
    destruct (IgnoreParens E) as [| | | |ty Sub l| | | | |] eqn:HE; try discriminate.
    simpl getType.
    destruct (cse (U :: V) (gE Info Sub false) lhsType ty) eqn:Hcse;
      [|simpl; discriminate].
    destruct Sub as [| | | | | | | |[[FD|D|]|] args cty b r|]; simpl;
      try discriminate.
    + destruct (String.eqb _ "malloc"); [|simpl; discriminate].
      destruct args as [|[| | | | | | | | |argTy l1 r1] args]; simpl; try discriminate.
      destruct (cse _ _ _ lhsType && cse _ _ _ ty); discriminate.
    + intros _. exists E, ty, args, cty, b, r, l. repeat split; auto; discriminate.
  - intros (E & ty & args & cty & b & r & l & -> & HV & HW & HE & Hcse).
    destruct V as [|U V]; [congruence|]. simpl Nat.eqb. cbv iota.
    rewrite HW. simpl Nat.ltb. cbv iota.
    assert (isIntegerConstantExpr (IgnoreParens E) = false) as ->
      by (rewrite HE; reflexivity).
    rewrite HE. simpl getType. rewrite Hcse. reflexivity.
Qed.

(** The cast of a call through a function pointer held in an array,
    [p = (int * )( *fs[0])()]. *)
Lemma constrainAssign_unresolved_call_example :
  constrainAssign Modelled.getVariableE Modelled.checkStructuralEquality
    [PVConstraint "int" "p" [0] None false] (TPointer TInt)
    (Some (CStyleCastExpr (TPointer TInt) (CallExpr None [] (TPointer TInt) 40 48) 32))
    emptyInfo = None.
Proof. reflexivity. Qed.







(** X5.  The malloc rule: an assignment from a C-style cast of a call to a
    function named malloc whose first argument is sizeof of a type T leaves
    the program information unchanged when the cast's type and the
    left-hand side's type are structurally equal to each other and to
    pointer-to-T. *)
Theorem malloc_cast_adds_nothing :
  forall (getVariableE : ProgramInfo -> Expr -> bool -> list ConstraintVariable)
         (checkStructuralEquality :
            list ConstraintVariable -> list ConstraintVariable ->
            QualType -> QualType -> bool)
         (V : list ConstraintVariable) (lhsType : QualType) (E : Expr)
         (ty : QualType) (FD : FunctionDecl) (argTy : QualType)
         (l1 r1 : SourceLocation) (args : list Expr) (cty : QualType)
         (b r l : SourceLocation) (Info : ProgramInfo),
    let Sub := CallExpr (Some (CalleeFunction FD))
                 (SizeOfTypeExpr argTy l1 r1 :: args) cty b r in
    let W := getVariableE Info Sub false in
    V <> [] ->
    getVariableE Info E false = [] ->
    IgnoreParens E = CStyleCastExpr ty Sub l ->
    declName (fnDecl (fdThis FD)) = "malloc" ->
    checkStructuralEquality V W lhsType ty = true ->
    checkStructuralEquality V W (getPointerType argTy) lhsType = true ->
    checkStructuralEquality V W (getPointerType argTy) ty = true ->
    constrainAssign getVariableE checkStructuralEquality V lhsType (Some E) Info
      = Some Info.
Proof.
  intros gE cse V lhsType E ty FD argTy l1 r1 args cty b r l Info Sub W
    HV HW HE Hname H1 H2 H3.
  unfold constrainAssign. destruct V as [|U V]; [congruence|]. simpl Nat.eqb. cbv iota.
  rewrite HW. simpl Nat.ltb. cbv iota.
  assert (isIntegerConstantExpr (IgnoreParens E) = false) as ->
    by (rewrite HE; reflexivity).
  rewrite HE. simpl getType. fold Sub. fold W. rewrite H1.
  unfold mallocRule, Sub. rewrite Hname. simpl String.eqb. cbv iota.
  fold Sub. fold W. now rewrite H2, H3.
Qed.

Definition malloc_decl : FunctionDecl :=
  let d := {| fnDecl := mkDecl 50 (mkPSL "stdlib.h" 9 1) "malloc"
                          (TFunction (TPointer TVoid) [TInt]) true true false;
              fnParams := [mkDecl 51 (mkPSL "stdlib.h" 9 20) "n" TInt true true false];
              fnVariadic := false; fnHasBodyHere := false |} in
  {| fdThis := d; fdRedecls := [d] |}.

(** p = (int * )malloc(sizeof(int)) *)
Lemma malloc_cast_adds_nothing_witness :
  constrainAssign Modelled.getVariableE Modelled.checkStructuralEquality
    [PVConstraint "int" "p" [0] None false] (TPointer TInt)
    (Some (CStyleCastExpr (TPointer TInt)
             (CallExpr (Some (CalleeFunction malloc_decl)) [SizeOfTypeExpr TInt 50 60]
                (TPointer TVoid) 42 61) 34)) emptyInfo
  = Some emptyInfo.
Proof.
  apply (malloc_cast_adds_nothing Modelled.getVariableE Modelled.checkStructuralEquality
           [PVConstraint "int" "p" [0] None false] (TPointer TInt)
           (CStyleCastExpr (TPointer TInt)
              (CallExpr (Some (CalleeFunction malloc_decl)) [SizeOfTypeExpr TInt 50 60]
                 (TPointer TVoid) 42 61) 34)
           (TPointer TInt) malloc_decl TInt 50 60 [] (TPointer TVoid) 42 61 34 emptyInfo);
    [discriminate | reflexivity..].
Defined.

(** With an argument that is not sizeof of a type the rule does not fire:
    [p = (int * )malloc(4)] makes p Wild. *)
Lemma malloc_of_a_number_forces_Wild :
  CS <$> constrainAssign Modelled.getVariableE Modelled.checkStructuralEquality
           [PVConstraint "int" "p" [0] None false] (TPointer TInt)
           (Some (CStyleCastExpr (TPointer TInt)
                    (CallExpr (Some (CalleeFunction malloc_decl)) [IntegerLiteral 4 50]
                       (TPointer TVoid) 42 51) 34)) emptyInfo
  = Some [Eq (AVar 0) (AConst Wild)].
Proof. reflexivity. Qed.

(** *** Pointer arithmetic *)

(** What constrainExprFirst adds for one constraint variable. *)
Definition firstNotPtr (U : ConstraintVariable) : list Constraint :=
  match getCvars U with
  | q :: _ => [Not (Eq (AVar q) (AConst Ptr))]
  | [] => []
  end.

Lemma constrainExprFirst_spec getVariableE E Info :
  CS (constrainExprFirst getVariableE E Info) =
  CS Info ++ flat_map firstNotPtr (getVariableE Info E false).
Proof.
  unfold constrainExprFirst. simpl. apply fold_left_appending.
  intros cs U. unfold firstNotPtr. destruct (getCvars U); simpl.
  - now rewrite app_nil_r.
  - reflexivity.
Qed.

Lemma pass_Not_Ptr CS v s :
  In (Not (Eq (AVar v) (AConst Ptr))) CS -> le Arr (Solver.pass s CS v).
Proof.
  intros Hin. apply in_split in Hin as (l1 & l2 & ->).
  unfold Solver.pass. rewrite fold_left_app. simpl.
  eapply le_trans; [|apply (Solver.pass_inflationary l2)].
  apply (Solver.raise_var_reaches _ v Arr).
Qed.

Lemma solve_Not_Ptr CS v :
  In (Not (Eq (AVar v) (AConst Ptr))) CS -> le Arr (Solver.solve CS v).
Proof.
  intros Hin. unfold Solver.solve.
  eapply le_trans; [|apply Solver.iterate_after_pass]. now apply pass_Not_Ptr.
Qed.

(** X6.  Pointer arithmetic: for ++ and -- on E, and for each operand E of
    +, -, += and -=, every pointer variable of E that has levels gets
    Not(Eq(q, Ptr)) on its outer-most level q, exactly one constraint per
    such variable and none on the inner levels, so that q is solved to at
    least Arr. *)
Theorem arithmetic_outer_level_not_Ptr :
  forall (getVariableE : ProgramInfo -> Expr -> bool -> list ConstraintVariable)
         (checkStructuralEquality :
            list ConstraintVariable -> list ConstraintVariable ->
            QualType -> QualType -> bool)
         (E : Expr) (Info : ProgramInfo),
    let Info' := constrainExprFirst getVariableE E Info in
    CS Info' = CS Info ++ flat_map firstNotPtr (getVariableE Info E false) /\
    length (CS Info') =
      length (CS Info) +
      length (List.filter (fun U => Nat.ltb 0 (length (getCvars U)))
                (getVariableE Info E false)) /\
    (forall U q rest, In U (getVariableE Info E false) -> getCvars U = q :: rest ->
       In (Not (Eq (AVar q) (AConst Ptr))) (CS Info') /\
       le Arr (Solver.solve (CS Info') q)) /\
    (forall op, isPostfix op = true \/ op = UO_PreInc \/ op = UO_PreDec ->
       VisitUnaryOperator getVariableE op E Info = Info') /\
    (forall op Other, op = BO_Add \/ op = BO_Sub \/ op = BO_AddAssign \/ op = BO_SubAssign ->
       VisitBinaryOperator getVariableE checkStructuralEquality op E Other Info
       = Some (constrainExprFirst getVariableE Other Info')).
Proof.
  intros gE cse E Info Info'. split; [apply constrainExprFirst_spec|]. split; [|split; [|split]].
  - unfold Info'. rewrite constrainExprFirst_spec, length_app. f_equal.
    induction (gE Info E false) as [|U l IH]; simpl; auto.
    rewrite length_app, IH. unfold firstNotPtr. destruct (getCvars U); reflexivity.
  - intros U q rest HU Hq.
    assert (In (Not (Eq (AVar q) (AConst Ptr))) (CS Info')) as Hin.
    { unfold Info'. rewrite constrainExprFirst_spec. apply in_or_app. right.
      apply in_flat_map. exists U. split; auto. unfold firstNotPtr. rewrite Hq. now left. }
    split; auto. now apply solve_Not_Ptr.
  - intros op [Hp | [-> | ->]]; [destruct op; try discriminate|..]; reflexivity.
  - intros op Other [-> | [-> | [-> | ->]]]; reflexivity.
Qed.

(** int *p; p++; *)
Lemma arithmetic_outer_level_not_Ptr_witness :
  let p := PVConstraint "int" "p" [0; 1] None false in
  let Info' := constrainExprFirst (fun _ _ _ => [p])
                 (DeclRefExpr (vdDecl Scenarios.p_int) 30) emptyInfo in
  In (Not (Eq (AVar 0) (AConst Ptr))) (CS Info') /\ le Arr (Solver.solve (CS Info') 0).
Proof.
  destruct (arithmetic_outer_level_not_Ptr
              (fun _ _ _ => [PVConstraint "int" "p" [0; 1] None false])
              Modelled.checkStructuralEquality
              (DeclRefExpr (vdDecl Scenarios.p_int) 30) emptyInfo) as (_ & _ & H & _).
  apply (H (PVConstraint "int" "p" [0; 1] None false) 0 [1]); [now left | reflexivity].
Defined.

(** *** Calls *)

Section CallArguments.

Variable getVariableE : ProgramInfo -> Expr -> bool -> list ConstraintVariable.
Variable getVariableD : ProgramInfo -> DeclaratorDecl -> bool -> list ConstraintVariable.
Variable checkStructuralEquality :
  list ConstraintVariable -> list ConstraintVariable -> QualType -> QualType -> bool.

Definition argumentStep {A} (f : nat -> Expr -> A -> A) (st : nat * A) (E : Expr)
  : nat * A := (S st.1, f st.1 E st.2).

Lemma forArguments_fold {A} (f : nat -> Expr -> A -> A) args a :
  forArguments f args a = (fold_left (argumentStep f) args (0, a)).2.
Proof. reflexivity. Qed.

Lemma argumentStep_index {A} (f : nat -> Expr -> A -> A) args : forall k a,
  (fold_left (argumentStep f) args (k, a)).1 = k + length args.
Proof.
  induction args as [|E args IH]; intros k a; simpl; [lia|].
  unfold argumentStep at 2. simpl. rewrite IH. lia.
Qed.

(** The treatment of one argument of a direct call. *)
Definition directArgument (FD : FunctionDecl) (i : nat) (E : Expr)
  (oi : option ProgramInfo) : option ProgramInfo :=
  Info ← oi;
  let ParameterEC := getVariableE Info E false in
  if Nat.ltb i (getNumParams FD) then
    match fnParams (fdThis FD) !! i with
    | Some P => constrainAssignD getVariableE getVariableD checkStructuralEquality
                  P (Some E) Info
    | None => None
    end
  else Some (setConstraints Info (constrainAllWild ParameterEC (CS Info))).

Lemma VisitCallExpr_direct FD args Info :
  ConstraintBuilder.VisitCallExpr getVariableE getVariableD checkStructuralEquality
    (Some (CalleeFunction FD)) args Info
  = forArguments (directArgument FD) args (Some Info).
Proof. reflexivity. Qed.

Lemma extra_arguments FD args : forall k oi,
  getNumParams FD <= k ->
  (fold_left (argumentStep (directArgument FD)) args (k, oi)).2
  = argumentsWild getVariableE args <$> oi.
Proof.
  induction args as [|E args IH]; intros k oi Hk; simpl.
  - now destruct oi.
  - unfold argumentStep at 2. simpl. rewrite IH by lia.
    destruct oi as [Info|]; simpl; [|reflexivity].
    destruct (Nat.ltb_spec k (getNumParams FD)); [lia|]. reflexivity.
Qed.

End CallArguments.

(** X7.  In a direct call the arguments beyond the callee's parameters are
    treated like the arguments of a call through an unknown callee: once
    the leading arguments have been handled as assignments to the
    parameters, every constraint variable of each further argument is
    constrained to Wild.  This is what happens to the variable arguments of
    a variadic call. *)
Theorem extra_call_arguments_are_forced_Wild :
  forall (getVariableE : ProgramInfo -> Expr -> bool -> list ConstraintVariable)
         (getVariableD : ProgramInfo -> DeclaratorDecl -> bool -> list ConstraintVariable)
         (checkStructuralEquality :
            list ConstraintVariable -> list ConstraintVariable ->
            QualType -> QualType -> bool)
         (FD : FunctionDecl) (args1 args2 : list Expr) (Info : ProgramInfo),
    getNumParams FD <= length args1 ->
    ConstraintBuilder.VisitCallExpr getVariableE getVariableD checkStructuralEquality
      (Some (CalleeFunction FD)) (args1 ++ args2) Info
    = argumentsWild getVariableE args2 <$>
        ConstraintBuilder.VisitCallExpr getVariableE getVariableD checkStructuralEquality
          (Some (CalleeFunction FD)) args1 Info.
Proof.
  intros gE gD cse FD args1 args2 Info Hn.
  rewrite !VisitCallExpr_direct, !forArguments_fold, fold_left_app.
  destruct (fold_left (argumentStep (directArgument gE gD cse FD)) args1 (0, Some Info))
    as [k oi] eqn:Hrun.
  assert (k = 0 + length args1) as Hk.
  { rewrite <- (argumentStep_index (directArgument gE gD cse FD) args1 0 (Some Info)).
    now rewrite Hrun. }
  simpl. apply extra_arguments. lia.
Qed.

(** printf("x", p) with p a pointer that has one level: the format string
    has no constraint variables, p becomes Wild. *)
Definition p_info : ProgramInfo :=
  {| freeKey := 1;
     Variables := <[declPSL (vdDecl Scenarios.p_int) :=
                      [PVConstraint "int" "p" [0] None false]]> ∅;
     CS := [] |}.

Lemma extra_call_arguments_are_forced_Wild_witness :
  CS <$> ConstraintBuilder.VisitCallExpr Modelled.getVariableE Modelled.getVariableD
           Modelled.checkStructuralEquality
           (Some (CalleeFunction PlannerClaims.printf_decl))
           ([IntegerLiteral 0 40] ++ [DeclRefExpr (vdDecl Scenarios.p_int) 44]) p_info
  = Some [Eq (AVar 0) (AConst Wild)].
Proof.
  rewrite (extra_call_arguments_are_forced_Wild Modelled.getVariableE Modelled.getVariableD
             Modelled.checkStructuralEquality PlannerClaims.printf_decl
             [IntegerLiteral 0 40] [DeclRefExpr (vdDecl Scenarios.p_int) 44] p_info).
  - reflexivity.
  - vm_compute. lia.
Defined.

(** *** What a traversal can add *)

(** The four forms of constraint the visitors produce. *)
Definition generated (c : Constraint) : Prop :=
  equatesOrWild c \/
  (exists q, c = Eq (AVar q) (AConst Arr)) \/
  (exists q, c = Not (Eq (AVar q) (AConst Ptr))).

Lemma Expr_nested_ind (P : Expr -> Prop) :
  (forall D l, P (DeclRefExpr D l)) ->
  (forall v l, P (IntegerLiteral v l)) ->
  (forall s l r, P s -> P (ParenExpr s l r)) ->
  (forall ty s, P s -> P (ImplicitCastExpr ty s)) ->
  (forall ty s l, P s -> P (CStyleCastExpr ty s l)) ->
  (forall op s l, P s -> P (UnaryOperator op s l)) ->
  (forall op a b l, P a -> P b -> P (BinaryOperator op a b l)) ->
  (forall a b r, P a -> P b -> P (ArraySubscriptExpr a b r)) ->
  (forall callee args ty b r, List.Forall P args -> P (CallExpr callee args ty b r)) ->
  (forall ty l r, P (SizeOfTypeExpr ty l r)) ->
  forall e, P e.
Proof.
  intros H1 H2 H3 H4 H5 H6 H7 H8 H9 H10. fix IH 1.
  intros [D l|v l|s l r|ty s|ty s l|op s l|op a b l|a b r|callee args ty b r|ty l r].
  - apply H1.
  - apply H2.
  - apply H3, IH.
  - apply H4, IH.
  - apply H5, IH.
  - apply H6, IH.
  - apply H7; apply IH.
  - apply H8; apply IH.
  - apply H9. induction args as [|a args IHargs]; constructor; [apply IH | exact IHargs].
  - apply H10.
Qed.

Section Traversal.

Variable getVariableE : ProgramInfo -> Expr -> bool -> list ConstraintVariable.
Variable getVariableD : ProgramInfo -> DeclaratorDecl -> bool -> list ConstraintVariable.
Variable addVariable : ProgramInfo -> DeclaratorDecl -> ProgramInfo.
Variable checkStructuralEquality :
  list ConstraintVariable -> list ConstraintVariable -> QualType -> QualType -> bool.
Variable checkStructuralEqualityTy : QualType -> QualType -> bool.

Lemma generated_equatesOrWild c : equatesOrWild c -> generated c.
Proof. now left. Qed.

Lemma Adds_set_equates Info cs :
  Extends equatesOrWild (CS Info) cs -> OnlyAdds generated Info (setConstraints Info cs).
Proof.
  intros H. apply OnlyAdds_set. eapply Extends_mono; [apply generated_equatesOrWild|exact H].
Qed.

Lemma constrainAssign_Adds V lhsType RHS Info Info' :
  constrainAssign getVariableE checkStructuralEquality V lhsType RHS Info = Some Info' ->
  OnlyAdds generated Info Info'.
Proof.
  intros Hrun.
  eapply OnlyAdds_mono; [apply generated_equatesOrWild|].
  exact (constrainAssign_OnlyAdds _ _ _ _ _ _ _ Hrun).
Qed.

Lemma constrainExprFirst_Adds E Info : OnlyAdds generated Info (constrainExprFirst getVariableE E Info).
Proof.
  repeat split. rewrite constrainExprFirst_spec. apply Extends_exact.
  apply List.Forall_forall. intros c Hc. apply in_flat_map in Hc as (U & _ & Hc).
  unfold firstNotPtr in Hc. destruct (getCvars U) as [|q rest]; [destruct Hc|].
  destruct Hc as [<-|[]]. right. right. now exists q.
Qed.

Lemma constrainExprFirstArr_Adds E Info : OnlyAdds generated Info (constrainExprFirstArr getVariableE E Info).
Proof.
  repeat split. rewrite constrainExprFirstArr_spec. apply Extends_exact.
  apply List.Forall_forall. intros c Hc. apply in_flat_map in Hc as (U & _ & Hc).
  unfold firstArr in Hc. destruct (getCvars U) as [|q rest]; [destruct Hc|].
  destruct Hc as [<-|[]]. right. left. now exists q.
Qed.

Lemma VisitCStyleCastExpr_Adds Dest Sub Info :
  OnlyAdds generated Info (VisitCStyleCastExpr getVariableE checkStructuralEqualityTy Dest Sub Info).
Proof.
  unfold VisitCStyleCastExpr.
  destruct (Nat.ltb 0 (length (getVariableE Info Sub true))); [|apply OnlyAdds_refl].
  destruct (negb (checkStructuralEqualityTy Dest (getType Sub))); [|apply OnlyAdds_refl].
  apply Adds_set_equates, constrainAllWild_Extends.
Qed.

Lemma VisitUnaryOperator_Adds op Sub Info :
  OnlyAdds generated Info (VisitUnaryOperator getVariableE op Sub Info).
Proof. destruct op; simpl; auto using OnlyAdds_refl, constrainExprFirst_Adds. Qed.

Lemma VisitBinaryOperator_Adds op LHS RHS Info Info' :
  VisitBinaryOperator getVariableE checkStructuralEquality op LHS RHS Info = Some Info' ->
  OnlyAdds generated Info Info'.
Proof.
  destruct op; simpl; intros Hrun;
    try (injection Hrun as <-;
         first [apply OnlyAdds_refl
               |eapply OnlyAdds_trans; apply constrainExprFirst_Adds]).
  unfold ConstraintBuilder.VisitBinAssign, constrainAssignE in Hrun.
  now apply constrainAssign_Adds in Hrun.
Qed.

Lemma argumentsWild_Adds args : forall Info, OnlyAdds generated Info (argumentsWild getVariableE args Info).
Proof.
  induction args as [|E args IH]; intros Info; simpl; [apply OnlyAdds_refl|].
  eapply OnlyAdds_trans; [|apply IH]. apply Adds_set_equates, constrainAllWild_Extends.
Qed.

Lemma argumentStep_Adds (f : nat -> Expr -> ProgramInfo -> ProgramInfo) args :
  (forall i E Info, OnlyAdds generated Info (f i E Info)) ->
  forall k Info, OnlyAdds generated Info (fold_left (argumentStep f) args (k, Info)).2.
Proof.
  intros Hf. induction args as [|E args IH]; intros k Info; simpl; [apply OnlyAdds_refl|].
  unfold argumentStep at 2. simpl. eapply OnlyAdds_trans; [apply Hf | apply IH].
Qed.

Lemma argumentStep_option_Adds
  (f : nat -> Expr -> option ProgramInfo -> option ProgramInfo) args :
  (forall i E, f i E None = None) ->
  (forall i E Info Info', f i E (Some Info) = Some Info' -> OnlyAdds generated Info Info') ->
  forall k oi Info',
    (fold_left (argumentStep f) args (k, oi)).2 = Some Info' ->
    exists Info, oi = Some Info /\ OnlyAdds generated Info Info'.
Proof.
  intros HN HS. induction args as [|E args IH]; intros k oi Info' Hrun; simpl in Hrun.
  - exists Info'. split; auto. apply OnlyAdds_refl.
  - unfold argumentStep at 2 in Hrun. simpl in Hrun.
    destruct (IH _ _ _ Hrun) as (I1 & H1 & HA).
    destruct oi as [Info|]; [|rewrite HN in H1; discriminate].
    exists Info. split; auto. eapply OnlyAdds_trans; [apply (HS _ _ _ _ H1) | exact HA].
Qed.

Lemma directArgument_Adds FD i E Info Info' :
  directArgument getVariableE getVariableD checkStructuralEquality FD i E (Some Info)
  = Some Info' ->
  OnlyAdds generated Info Info'.
Proof.
  unfold directArgument. cbn [mbind option_bind]. intros H.
  destruct (Nat.ltb i (getNumParams FD)).
  - destruct (fnParams (fdThis FD) !! i) as [P|]; [|discriminate].
    exact (constrainAssign_Adds _ _ _ _ _ H).
  - injection H as <-. apply Adds_set_equates, constrainAllWild_Extends.
Qed.

Lemma VisitCallExpr_Adds callee args Info Info' :
  ConstraintBuilder.VisitCallExpr getVariableE getVariableD checkStructuralEquality
    callee args Info = Some Info' ->
  OnlyAdds generated Info Info'.
Proof.
  destruct callee as [[FD|DD|]|].
  - intros Hrun. rewrite (VisitCallExpr_direct getVariableE getVariableD) in Hrun.
    rewrite forArguments_fold in Hrun.
    destruct (argumentStep_option_Adds _ args (fun i E => eq_refl) (directArgument_Adds FD)
                0 (Some Info) Info' Hrun) as (I0 & [= <-] & HA).
    exact HA.
  - simpl. destruct (Nat.ltb 0 (length (getVariableD Info DD false)));
      intros [= <-]; [|apply argumentsWild_Adds].
    generalize (getVariableD Info DD false). intros V. revert Info.
    induction V as [|C V IH]; intros I0; simpl; [apply OnlyAdds_refl|].
    eapply OnlyAdds_trans; [|apply IH].
    destruct (match C with
              | PVConstraint _ _ _ F _ => F
              | FVConstraint _ _ _ _ _ => Some C
              end) as [FV|].
    + rewrite forArguments_fold. apply argumentStep_Adds. intros i E I1.
      destruct (Nat.ltb i (numParams FV)); apply Adds_set_equates;
        [apply constrainEqSet_Extends | apply constrainAllWild_Extends].
    + eapply OnlyAdds_trans; [apply argumentsWild_Adds|].
      apply Adds_set_equates.
      eapply Extends_mono; [|apply constrainTo_ties]. intros c Hc. now exists (allVars C).
  - intros [= <-]. apply argumentsWild_Adds.
  - intros [= <-]. apply OnlyAdds_refl.
Qed.

(** The traversal of the arguments of a call. *)
Fixpoint traverseArguments (l : list Expr) (i : ProgramInfo) : option ProgramInfo :=
  match l with
  | [] => Some i
  | a :: l' =>
      i' ← TraverseExpr getVariableE getVariableD checkStructuralEquality
             checkStructuralEqualityTy a i;
      traverseArguments l' i'
  end.

Lemma TraverseExpr_call callee args ty b r Info :
  TraverseExpr getVariableE getVariableD checkStructuralEquality checkStructuralEqualityTy
    (CallExpr callee args ty b r) Info
  = (i1 ← ConstraintBuilder.VisitCallExpr getVariableE getVariableD
            checkStructuralEquality callee args Info;
     traverseArguments args i1).
Proof. reflexivity. Qed.

Lemma TraverseExpr_Adds e : forall Info Info',
  TraverseExpr getVariableE getVariableD checkStructuralEquality checkStructuralEqualityTy
    e Info = Some Info' ->
  OnlyAdds generated Info Info'.
Proof.
  induction e as [D l|v l|s l r IHs|ty s IHs|ty s l IHs|op s l IHs|op a b l IHa IHb
                 |a b r IHa IHb|callee args ty b r Hargs|ty l r] using Expr_nested_ind;
    intros Info Info' Hrun.
  - injection Hrun as <-. apply OnlyAdds_refl.
  - injection Hrun as <-. apply OnlyAdds_refl.
  - now apply IHs.
  - now apply IHs.
  - eapply OnlyAdds_trans; [apply VisitCStyleCastExpr_Adds | exact (IHs _ _ Hrun)].
  - eapply OnlyAdds_trans; [apply VisitUnaryOperator_Adds | exact (IHs _ _ Hrun)].
  - change ((i1 ← VisitBinaryOperator getVariableE checkStructuralEquality op a b Info;
             i2 ← TraverseExpr getVariableE getVariableD checkStructuralEquality
                    checkStructuralEqualityTy a i1;
             TraverseExpr getVariableE getVariableD checkStructuralEquality
               checkStructuralEqualityTy b i2) = Some Info') in Hrun.
    destruct (VisitBinaryOperator getVariableE checkStructuralEquality op a b Info)
      as [i1|] eqn:H1; [|discriminate]. cbn [mbind option_bind] in Hrun.
    destruct (TraverseExpr _ _ _ _ a i1) as [i2|] eqn:H2; [|discriminate].
    cbn [mbind option_bind] in Hrun.
    eapply OnlyAdds_trans; [exact (VisitBinaryOperator_Adds _ _ _ _ _ H1)|].
    eapply OnlyAdds_trans; [exact (IHa _ _ H2) | exact (IHb _ _ Hrun)].
  - change ((i1 ← TraverseExpr getVariableE getVariableD checkStructuralEquality
                    checkStructuralEqualityTy a
                    (VisitArraySubscriptExpr getVariableE a Info);
             TraverseExpr getVariableE getVariableD checkStructuralEquality
               checkStructuralEqualityTy b i1) = Some Info') in Hrun.
    destruct (TraverseExpr _ _ _ _ a _) as [i1|] eqn:H1; [|discriminate].
    cbn [mbind option_bind] in Hrun.
    eapply OnlyAdds_trans; [apply constrainExprFirstArr_Adds|].
    eapply OnlyAdds_trans; [exact (IHa _ _ H1) | exact (IHb _ _ Hrun)].
  - rewrite TraverseExpr_call in Hrun.
    destruct (ConstraintBuilder.VisitCallExpr _ _ _ callee args Info) as [i1|] eqn:H1;
      [|discriminate]. cbn [mbind option_bind] in Hrun.
    eapply OnlyAdds_trans; [exact (VisitCallExpr_Adds _ _ _ _ H1)|].
    clear H1. revert i1 Hrun. induction Hargs as [|a args Ha _ IH]; intros i1 Hrun.
    + injection Hrun as <-. apply OnlyAdds_refl.
    + cbn [traverseArguments] in Hrun.
      destruct (TraverseExpr _ _ _ _ a i1) as [i2|] eqn:H2; [|discriminate].
      cbn [mbind option_bind] in Hrun.
      eapply OnlyAdds_trans; [exact (Ha _ _ H2) | exact (IH _ Hrun)].
  - injection Hrun as <-. apply OnlyAdds_refl.
Qed.

End Traversal.

(** X8.  Traversing an expression, however deep, never allocates a qualifier
    variable, never changes the variable map, and only appends to the
    store; every constraint it appends is q = q', q = Wild, q = Arr or
    not(q = Ptr).  In particular the visitors never produce an implication
    and never mention NTArr. *)
Theorem TraverseExpr_only_adds_generated_constraints :
  forall (getVariableE : ProgramInfo -> Expr -> bool -> list ConstraintVariable)
         (getVariableD : ProgramInfo -> DeclaratorDecl -> bool -> list ConstraintVariable)
         (checkStructuralEquality :
            list ConstraintVariable -> list ConstraintVariable ->
            QualType -> QualType -> bool)
         (checkStructuralEqualityTy : QualType -> QualType -> bool)
         (e : Expr) (Info Info' : ProgramInfo),
    TraverseExpr getVariableE getVariableD checkStructuralEquality checkStructuralEqualityTy
      e Info = Some Info' ->
    freeKey Info' = freeKey Info /\
    Variables Info' = Variables Info /\
    exists added, CS Info' = CS Info ++ added /\ List.Forall generated added.
Proof. intros gE gD cse cseTy e Info Info' Hrun. now apply TraverseExpr_Adds in Hrun. Qed.

(** p[0] = p + 1, with p a pointer of one level. *)
Definition subscript_assignment : Expr :=
  BinaryOperator BO_Assign
    (ArraySubscriptExpr (DeclRefExpr (vdDecl Scenarios.p_int) 30) (IntegerLiteral 0 32) 33)
    (BinaryOperator BO_Add (DeclRefExpr (vdDecl Scenarios.p_int) 37) (IntegerLiteral 1 41) 39)
    35.

Lemma TraverseExpr_only_adds_generated_constraints_witness :
  exists Info',
    (TraverseExpr Modelled.getVariableE Modelled.getVariableD
       Modelled.checkStructuralEquality Modelled.structuralEqual
       subscript_assignment p_info = Some Info') /\
    (CS Info' = CS p_info ++ [Eq (AVar 0) (AConst Arr); Not (Eq (AVar 0) (AConst Ptr))]) /\
    (freeKey Info' = freeKey p_info) /\
    (Variables Info' = Variables p_info) /\
    exists added, (CS Info' = CS p_info ++ added) /\ List.Forall generated added.
Proof.
  eexists. split; [reflexivity|]. split; [reflexivity|].
  apply (TraverseExpr_only_adds_generated_constraints
           Modelled.getVariableE Modelled.getVariableD
           Modelled.checkStructuralEquality Modelled.structuralEqual
           subscript_assignment p_info).
  reflexivity.
Defined.

(** *** What the analysis of a translation unit can add *)

Section TranslationUnit.

Variable getVariableE : ProgramInfo -> Expr -> bool -> list ConstraintVariable.
Variable getVariableD : ProgramInfo -> DeclaratorDecl -> bool -> list ConstraintVariable.
Variable addVariable : ProgramInfo -> DeclaratorDecl -> ProgramInfo.
Variable checkStructuralEquality :
  list ConstraintVariable -> list ConstraintVariable -> QualType -> QualType -> bool.
Variable checkStructuralEqualityTy : QualType -> QualType -> bool.

(** ProgramInfo::addVariable (ProgramInfo.cpp) allocates constraint
    variables; all that is assumed of it is that it only appends to the
    store, and constraints of the four forms of generated: the add_variable
    of the specification appends Eq(qv, Wild) for void* and va_list. *)
Hypothesis addVariable_adds_generated :
  forall Info D, Extends generated (CS Info) (CS (addVariable Info D)).

Definition Grows (Info Info' : ProgramInfo) : Prop :=
  Extends generated (CS Info) (CS Info').

Lemma Grows_refl Info : Grows Info Info.
Proof. apply Extends_refl. Qed.

Lemma Grows_trans I1 I2 I3 : Grows I1 I2 -> Grows I2 I3 -> Grows I1 I3.
Proof. apply Extends_trans. Qed.

Lemma OnlyAdds_Grows I1 I2 : OnlyAdds generated I1 I2 -> Grows I1 I2.
Proof. now intros (_ & _ & H). Qed.

Lemma addVariable_Grows Info D : Grows Info (addVariable Info D).
Proof. apply addVariable_adds_generated. Qed.

Lemma specialCaseVarIntros_Grows D Info : Grows Info (specialCaseVarIntros getVariableD D Info).
Proof.
  unfold specialCaseVarIntros.
  destruct (String.eqb (getAsString (declType D)) "va_list" || isVoidType (declType D));
    [|apply Grows_refl].
  apply OnlyAdds_Grows, Adds_set_equates, constrainCvarsWild_Extends.
Qed.

Lemma MyVisitVarDecl_Grows D Info :
  Grows Info (MyVisitVarDecl getVariableD addVariable D Info).
Proof.
  unfold MyVisitVarDecl. destruct (isLocalVarDecl D); [|apply Grows_refl].
  destruct (_ && _); [|apply Grows_refl].
  eapply Grows_trans; [apply addVariable_Grows | apply specialCaseVarIntros_Grows].
Qed.

Lemma fold_Grows {A} (f : ProgramInfo -> A -> ProgramInfo) (l : list A) :
  (forall Info x, Grows Info (f Info x)) ->
  forall Info, Grows Info (fold_left f l Info).
Proof.
  intros Hf. induction l as [|x l IH]; intros Info; simpl; [apply Grows_refl|].
  eapply Grows_trans; [apply Hf | apply IH].
Qed.

Lemma thread_Grows {A} (g : A -> ProgramInfo -> option ProgramInfo) (l : list A) :
  (forall x Info Info', g x Info = Some Info' -> Grows Info Info') ->
  forall oi Info',
    fold_left (fun oi x => i ← oi; g x i) l oi = Some Info' ->
    exists Info, oi = Some Info /\ Grows Info Info'.
Proof.
  intros Hg. induction l as [|x l IH]; intros oi Info' Hrun; simpl in Hrun.
  - exists Info'. split; [exact Hrun | apply Grows_refl].
  - destruct (IH _ _ Hrun) as (I1 & H1 & HG).
    destruct oi as [Info|]; [|discriminate].
    exists Info. split; [reflexivity|].
    eapply Grows_trans; [exact (Hg _ _ _ H1) | exact HG].
Qed.

Lemma VisitDeclStmt_Grows DS Info Info' :
  ConstraintBuilder.VisitDeclStmt getVariableE getVariableD addVariable
    checkStructuralEquality DS Info
  = Some Info' ->
  Grows Info Info'.
Proof.
  unfold ConstraintBuilder.VisitDeclStmt. intros Hrun.
  destruct (thread_Grows
              (fun VD i => constrainAssignD getVariableE getVariableD checkStructuralEquality
                             (vdDecl VD) (getInit VD) i)
              (decls DS)
              (fun VD I1 I2 H => OnlyAdds_Grows _ _ (constrainAssign_Adds _ _ _ _ _ _ _ H))
              _ _ Hrun) as (I0 & [= <-] & HG).
  eapply Grows_trans; [|exact HG].
  apply (fold_Grows (fun i VD => MyVisitVarDecl getVariableD addVariable VD i)).
  intros I1 VD. apply MyVisitVarDecl_Grows.
Qed.

Lemma VisitReturnStmt_Grows F r Info :
  Grows Info (VisitReturnStmt getVariableE getVariableD F r Info).
Proof.
  unfold VisitReturnStmt. apply OnlyAdds_Grows, Adds_set_equates.
  apply Extends_fold. intros C _ cs. destruct C; [apply Extends_refl|].
  apply constrainEqSet_Extends.
Qed.

Lemma TraverseExpr_Grows e Info Info' :
  TraverseExpr getVariableE getVariableD checkStructuralEquality checkStructuralEqualityTy
    e Info = Some Info' ->
  Grows Info Info'.
Proof. intros H. exact (OnlyAdds_Grows _ _ (TraverseExpr_Adds _ _ _ _ _ _ _ H)). Qed.

Lemma TraverseStmt_Grows F s Info Info' :
  TraverseStmt getVariableE getVariableD addVariable checkStructuralEquality
    checkStructuralEqualityTy F s Info = Some Info' ->
  Grows Info Info'.
Proof.
  destruct s as [DS|e|r]; unfold TraverseStmt; intros Hrun.
  - destruct (ConstraintBuilder.VisitDeclStmt _ _ _ _ DS Info) as [i1|] eqn:H1;
      [|discriminate].
    cbn [mbind option_bind] in Hrun.
    destruct (thread_Grows
                (fun VD i => match getInit VD with
                             | Some E =>
                                 TraverseExpr getVariableE getVariableD
                                   checkStructuralEquality checkStructuralEqualityTy E i
                             | None => Some i
                             end)
                (decls DS)
                ltac:(intros VD I1 I2 H; cbv beta in H; destruct (getInit VD);
                      [exact (TraverseExpr_Grows _ _ _ H)
                      |injection H as <-; apply Grows_refl])
                _ _ Hrun) as (I0 & [= <-] & HG).
    eapply Grows_trans; [exact (VisitDeclStmt_Grows _ _ _ H1) | exact HG].
  - exact (TraverseExpr_Grows _ _ _ Hrun).
  - cbv zeta in Hrun. eapply Grows_trans; [apply (VisitReturnStmt_Grows F r)|].
    destruct r as [E|]; [exact (TraverseExpr_Grows _ _ _ Hrun)|].
    injection Hrun as <-. apply Grows_refl.
Qed.

Lemma TraverseBody_Grows F Body Info Info' :
  TraverseBody getVariableE getVariableD addVariable checkStructuralEquality
    checkStructuralEqualityTy F Body Info = Some Info' ->
  Grows Info Info'.
Proof.
  unfold TraverseBody. intros Hrun.
  destruct (thread_Grows
              (fun s i => TraverseStmt getVariableE getVariableD addVariable
                            checkStructuralEquality checkStructuralEqualityTy F s i)
              Body (fun s I1 I2 H => TraverseStmt_Grows F s I1 I2 H)
              _ _ Hrun) as (I0 & [= <-] & HG).
  exact HG.
Qed.

Lemma GlobalVisitFunctionDecl_Grows D Body Info Info' :
  GlobalVisitFunctionDecl getVariableE getVariableD addVariable checkStructuralEquality
    checkStructuralEqualityTy D Body Info = Some Info' ->
  Grows Info Info'.
Proof.
  unfold GlobalVisitFunctionDecl. destruct (declValidLoc (fnDecl (fdThis D))).
  - cbv zeta. intros Hrun. eapply Grows_trans; [apply addVariable_Grows|].
    destruct Body as [B|]; [destruct (fnHasBodyHere (fdThis D))|].
    + exact (TraverseBody_Grows _ _ _ _ Hrun).
    + injection Hrun as <-. apply Grows_refl.
    + injection Hrun as <-. apply Grows_refl.
  - intros [= <-]. apply Grows_refl.
Qed.

Lemma GlobalVisitVarDecl_Grows G Info : Grows Info (GlobalVisitVarDecl addVariable G Info).
Proof.
  unfold GlobalVisitVarDecl. destruct (hasGlobalStorage G); [|apply Grows_refl].
  destruct (_ || _); [apply addVariable_Grows | apply Grows_refl].
Qed.

Lemma GlobalVisitRecordDecl_Grows R Info :
  Grows Info (GlobalVisitRecordDecl getVariableD addVariable R Info).
Proof.
  unfold GlobalVisitRecordDecl. destruct (getDefinition R) as [fields|]; [|apply Grows_refl].
  destruct (_ && _); [|apply Grows_refl].
  destruct (recFileEntryValid R); [|apply Grows_refl].
  apply (fold_Grows (fun i D => if isPointerType (declType D) || isArrayType (declType D)
                                then specialCaseVarIntros getVariableD D (addVariable i D)
                                else i)).
  intros I1 D. destruct (_ || _); [|apply Grows_refl].
  eapply Grows_trans; [apply addVariable_Grows | apply specialCaseVarIntros_Grows].
Qed.

End TranslationUnit.

Lemma Modelled_addVariable_adds_generated Info D :
  Extends generated (CS Info) (CS (Modelled.addVariable Info D)).
Proof.
  unfold Modelled.addVariable. cbv zeta.
  destruct (negb _); [apply Extends_refl|].
  destruct (declInSystemHeader D); [apply Extends_refl|].
  destruct (Modelled.allocCV D (freeKey Info)) as [V K']. cbn [CS].
  destruct (Modelled.isVoidPointerOrVaList (declType D)); [|apply Extends_refl].
  eapply Extends_mono; [|apply constrainTo_ties].
  intros c Hc. left. now exists (allVars V).
Qed.

(** X9.  Whatever declaration of a translation unit is visited (a function
    with or without a body, a global variable, a record), the constraint
    store only grows, and only by constraints of the forms q = q',
    q = Wild, q = Arr and not(q = Ptr), provided ProgramInfo::addVariable
    itself only appends constraints of these forms, as the add_variable of
    the specification does (Eq(qv, Wild) for void* and va_list).  So the
    analysis never retracts a constraint, and the solver is never handed an
    implication or the constant NTArr by these visitors. *)
Theorem visitors_only_grow_the_store :
  forall (getVariableE : ProgramInfo -> Expr -> bool -> list ConstraintVariable)
         (getVariableD : ProgramInfo -> DeclaratorDecl -> bool -> list ConstraintVariable)
         (addVariable : ProgramInfo -> DeclaratorDecl -> ProgramInfo)
         (checkStructuralEquality :
            list ConstraintVariable -> list ConstraintVariable ->
            QualType -> QualType -> bool)
         (checkStructuralEqualityTy : QualType -> QualType -> bool),
    (forall Info D,
        exists added,
          CS (addVariable Info D) = CS Info ++ added /\ List.Forall generated added) ->
    (forall D Body Info Info',
        GlobalVisitFunctionDecl getVariableE getVariableD addVariable
          checkStructuralEquality checkStructuralEqualityTy D Body Info = Some Info' ->
        exists added, CS Info' = CS Info ++ added /\ List.Forall generated added) /\
    (forall G Info,
        exists added,
          CS (GlobalVisitVarDecl addVariable G Info) = CS Info ++ added /\
          List.Forall generated added) /\
    (forall R Info,
        exists added,
          CS (GlobalVisitRecordDecl getVariableD addVariable R Info) = CS Info ++ added /\
          List.Forall generated added).
Proof.
  intros gE gD addV cse cseTy Hadd. split; [|split].
  - intros D Body Info Info' Hrun.
    exact (GlobalVisitFunctionDecl_Grows gE gD addV cse cseTy Hadd D Body Info Info' Hrun).
  - intros G Info. exact (GlobalVisitVarDecl_Grows addV Hadd G Info).
  - intros R Info. exact (GlobalVisitRecordDecl_Grows gD addV Hadd R Info).
Qed.

(** void f(void) { void *p; }, with the addVariable of the specification,
    which constrains p to Wild. *)
Lemma visitors_only_grow_the_store_witness :
  exists Info',
    (GlobalVisitFunctionDecl Modelled.getVariableE Modelled.getVariableD
       Modelled.addVariable Modelled.checkStructuralEquality Modelled.structuralEqual
       (Scenarios.mkFunction 1 1 "f" true) (Some Scenarios.void_pointer_local) emptyInfo
     = Some Info') /\
    (CS Info' = [Eq (AVar 0) (AConst Wild)]) /\
    exists added, (CS Info' = CS emptyInfo ++ added) /\ List.Forall generated added.
Proof.
  eexists. split; [reflexivity|]. split; [reflexivity|].
  apply (proj1 (visitors_only_grow_the_store
                  Modelled.getVariableE Modelled.getVariableD
                  Modelled.addVariable Modelled.checkStructuralEquality
                  Modelled.structuralEqual Modelled_addVariable_adds_generated)
           (Scenarios.mkFunction 1 1 "f" true) (Some Scenarios.void_pointer_local)
           emptyInfo).
  reflexivity.
Defined.

End BuilderExtras.

(* ===================================================================== *)
(** ** Declarations of type void* and va_list *)
(* ===================================================================== *)

Module CreationClaims.

Import BuilderExtras.

















End CreationClaims.

(* ===================================================================== *)
(** ** More of CheckedCConvert.cpp: where the casts are placed *)
(* ===================================================================== *)

Module PlannerExtras.

Import PlannerFacts.

(** The location of an insertion. *)
Definition opLoc (op : RewriteOp) : SourceLocation :=
  match op with
  | InsertTextBefore Loc _ => Loc
  | InsertTextAfter Loc _ => Loc
  end.

Section Placement.

Variable isLt : ConstraintVariable -> ConstraintVariable -> ProgramInfo -> bool.
Variable isEq : ConstraintVariable -> ConstraintVariable -> ProgramInfo -> bool.
Variable mkString : ConstraintVariable -> ProgramInfo -> bool -> string.
Variable getVariableE : ProgramInfo -> Expr -> bool -> list ConstraintVariable.
Variable getVariableD : ProgramInfo -> DeclaratorDecl -> bool -> list ConstraintVariable.

(** An insertion made for the call of FD with the arguments args: it sits
    at the expression location (getExprLoc) of a pointer-typed argument
    that has a parameter, the implicit casts of the argument stripped. *)
Definition atPointerArgument (n : nat) (args : list Expr) (op : RewriteOp) : Prop :=
  exists i Arg,
    i < n /\ args !! i = Some Arg /\
    isPointerType (getType Arg) = true /\
    opLoc op = getExprLoc (IgnoreImpCasts Arg).

Lemma placeArgumentCast_adds Info args Declaration Definition_ i R R' :
  placeArgumentCast isLt isEq mkString getVariableE getVariableD
    Info args Declaration Definition_ i R = Some R' ->
  exists added,
    R' = R ++ added /\ length added <= 2 /\
    List.Forall (atPointerArgument (S i) args) added.
Proof.
  unfold placeArgumentCast. intros Hrun.
  assert (exists added, R = R ++ added /\ length added <= 2 /\
                        List.Forall (atPointerArgument (S i) args) added) as Hnone.
  { exists []. rewrite app_nil_r. repeat split; [simpl; lia | constructor]. }
  destruct (fnParams Declaration !! i) as [pDecl|]; [|discriminate].
  cbn [mbind option_bind] in Hrun.
  destruct (declHasBoundsExpr pDecl); [injection Hrun as <-; exact Hnone|].
  destruct (args !! i) as [Arg|] eqn:HArg; [|discriminate].
  cbn [mbind option_bind] in Hrun.
  destruct (isPointerType (getType Arg)) eqn:Hptr; [|injection Hrun as <-; exact Hnone].
  destruct (fnParams Definition_ !! i) as [pDef|]; [|discriminate].
  cbn [mbind option_bind] in Hrun.
  destruct (Nat.ltb 0 (length (getVariableE Info Arg true)));
    [|injection Hrun as <-; exact Hnone].
  destruct (getHighest isLt isEq (getVariableE Info Arg true) Info) as [ExpCst|];
    destruct (getHighest isLt isEq (getVariableD Info pDecl false) Info) as [ParamCst|];
    try discriminate; try (injection Hrun as <-; exact Hnone).
  cbv zeta in Hrun.
  assert (forall op, opLoc op = getExprLoc (IgnoreImpCasts Arg) ->
                     atPointerArgument (S i) args op) as Hat.
  { intros op Hop. exists i, Arg. repeat split; auto. }
  destruct (negb (isEq ExpCst _ Info)); [|injection Hrun as <-; exact Hnone].
  destruct (isLt _ ExpCst Info); injection Hrun as <-; eexists; split; try reflexivity;
    (split; [simpl; lia|]); repeat constructor; apply Hat; reflexivity.
Qed.

Lemma atPointerArgument_mono n m args op :
  n <= m -> atPointerArgument n args op -> atPointerArgument m args op.
Proof. intros Hnm (i & Arg & Hi & H). exists i, Arg. split; [lia | exact H]. Qed.

Lemma placeArguments_add Info args Declaration Definition_ n : forall R R',
  fold_left
    (fun oR i => R ← oR; placeArgumentCast isLt isEq mkString getVariableE getVariableD
                          Info args Declaration Definition_ i R)
    (seq 0 n) (Some R) = Some R' ->
  exists added,
    R' = R ++ added /\ length added <= 2 * n /\
    List.Forall (atPointerArgument n args) added.
Proof.
  induction n as [|n IH]; intros R R' Hrun.
  - injection Hrun as <-. exists []. rewrite app_nil_r. repeat split; [simpl; lia|constructor].
  - rewrite seq_S, fold_left_app in Hrun. simpl in Hrun.
    match type of Hrun with
    | (?m ≫= _) = _ => destruct m as [R1|] eqn:H1; [|discriminate]
    end.
    cbn [mbind option_bind] in Hrun.
    destruct (IH _ _ H1) as (a1 & -> & Hl1 & Ha1).
    destruct (placeArgumentCast_adds _ _ _ _ _ _ _ Hrun) as (a2 & -> & Hl2 & Ha2).
    exists (a1 ++ a2). rewrite app_assoc. split; [reflexivity|].
    split; [rewrite length_app; lia|].
    apply List.Forall_app. split; [|exact Ha2].
    eapply List.Forall_impl; [|exact Ha1]. intros op. apply atPointerArgument_mono. lia.
Qed.

End Placement.

(** X10.  When the right-hand side of an assignment is an explicit C-style
    cast that has no constraint variables of its own, assign compares the
    left-hand side with the operand of the cast.  If the two are equal
    nothing is inserted.  Otherwise the text of the new cast is inserted at
    the expression location of the operand (getExprLoc: its start for a
    name or a parenthesis, the operator for a unary or binary operator, so
    that for q++ it lies after the start of the operand) and the closing
    parenthesis of an _Assume_bounds_cast at the end location of the
    operand; then the text "/*" is inserted at the left parenthesis of the
    old cast and "*/" at the expression location of its operand. *)
Theorem assign_comments_out_an_explicit_cast :
  forall (isLt isEq : ConstraintVariable -> ConstraintVariable -> ProgramInfo -> bool)
         (mkString : ConstraintVariable -> ProgramInfo -> bool -> string)
         (getVariableE : ProgramInfo -> Expr -> bool -> list ConstraintVariable)
         (Info : ProgramInfo) (R : Rewriter)
         (lhs : list ConstraintVariable) (ty : QualType) (Sub : Expr) (l : SourceLocation)
         (A B : ConstraintVariable),
    getHighest isLt isEq lhs Info = Some A ->
    getHighest isLt isEq (getVariableE Info Sub false) Info = Some B ->
    let Source := CStyleCastExpr ty Sub l in
    let run := assign isLt isEq mkString getVariableE Info lhs [] Source R in
    (isEq A B Info = true -> run = R) /\
    (isEq A B Info = false -> isLt A B Info = true ->
       run = R ++ [InsertTextBefore (getExprLoc Sub)
                     ("_Assume_bounds_cast<" +:+ mkString A Info false +:+ ">(");
                   InsertTextAfter (getLocEnd Sub) ")";
                   InsertTextBefore (getExprLoc Source) "/*";
                   InsertTextBefore (getExprLoc Sub) "*/"]) /\
    (isEq A B Info = false -> isLt A B Info = false ->
       run = R ++ [InsertTextBefore (getExprLoc Sub)
                     ("(" +:+ mkString A Info false +:+ ")");
                   InsertTextBefore (getExprLoc Source) "/*";
                   InsertTextBefore (getExprLoc Sub) "*/"]).
Proof.
  intros isLt isEq mkString gE Info R lhs ty Sub l A B HA HB Source run.
  subst run Source. unfold assign.
  rewrite (getHighest_Some_length _ _ _ _ _ HA). simpl hasBoundsSafeInterface. cbv iota.
  cbv zeta. change (Nat.eqb (length (@nil ConstraintVariable)) 0) with true. cbv iota.
  simpl asCStyleCast. cbv iota beta.
  rewrite (getHighest_Some_length _ _ _ _ _ HB), HA, HB.
  repeat split.
  - intros ->. reflexivity.
  - intros -> ->. unfold assumeBoundsCastOpen. now rewrite <- app_assoc.
  - intros -> ->. unfold cStyleCast. now rewrite <- app_assoc.
Qed.

(** Modelled from the spec: ProgramInfo::getVariable on an expression
    (ProgramInfo.cpp), cvs_of, for operands of pointer arithmetic: the
    constraint variables of q++ and of q + 1 are those of the pointer. *)
Fixpoint getVariableArith (Info : ProgramInfo) (E : Expr) (inFunctionContext : bool)
  : list ConstraintVariable :=
  match E with
  | DeclRefExpr D _ => Modelled.getVariableD Info D inFunctionContext
  | ParenExpr s _ _ => getVariableArith Info s inFunctionContext
  | ImplicitCastExpr _ s => getVariableArith Info s inFunctionContext
  | UnaryOperator (UO_PreInc | UO_PostInc | UO_PreDec | UO_PostDec) s _ =>
      getVariableArith Info s inFunctionContext
  | BinaryOperator (BO_Add | BO_Sub) l r _ =>
      getVariableArith Info l inFunctionContext ++ getVariableArith Info r inFunctionContext
  | _ => []
  end.

(** int *p; p = (int * ) q++;  with p solved to Ptr and q to Wild.  The
    cast starts at 60, q at 67 and the operator ++ is at 68. *)
Definition cast_info : ProgramInfo :=
  {| freeKey := 2;
     Variables := <[declPSL PlannerClaims.q_var := [PlannerClaims.cv1]]> ∅;
     CS := [Eq (AVar 1) (AConst Wild)] |}.

Definition q_incremented : Expr :=
  UnaryOperator UO_PostInc (DeclRefExpr PlannerClaims.q_var 67) 68.

Definition cast_of_q : Expr := CStyleCastExpr (TPointer TInt) q_incremented 60.

Lemma assign_comments_out_an_explicit_cast_witness :
  getLocStart q_incremented = 67 /\
  getExprLoc q_incremented = 68 /\
  assign Modelled.isLt Modelled.isEq Modelled.mkString getVariableArith
    cast_info [PlannerClaims.cv0] [] cast_of_q []
  = [InsertTextBefore 68 "_Assume_bounds_cast<ptr<int>>(";
     InsertTextAfter 68 ")";
     InsertTextBefore 60 "/*";
     InsertTextBefore 68 "*/"].
Proof.
  split; [reflexivity|]. split; [reflexivity|].
  destruct (assign_comments_out_an_explicit_cast
              Modelled.isLt Modelled.isEq Modelled.mkString getVariableArith
              cast_info [] [PlannerClaims.cv0] (TPointer TInt)
              q_incremented 60
              PlannerClaims.cv0 PlannerClaims.cv1 eq_refl eq_refl) as (_ & Hlower & _).
  exact (Hlower eq_refl eq_refl).
Defined.

(** The number of parameters the cast placement looks at in a call. *)
Definition placedParams (callee : option Callee) : nat :=
  match callee with
  | Some (CalleeFunction FD) => if isVariadic FD then 0 else getNumParams FD
  | _ => 0
  end.

(** X11.  Whatever the cast placement does to a call, it only appends
    insertions, at most two for each parameter of the callee, and each of
    them sits at the expression location (getExprLoc) of an argument of
    pointer type that corresponds to a parameter, the implicit casts of the
    argument stripped: its start for a name or a parenthesis, the operator
    for an argument such as q + 1.  The closing parenthesis of an
    _Assume_bounds_cast is inserted at that same location, not at the end
    of the argument.  A call of a variadic function, a call through a
    pointer and the arguments beyond the parameters receive no edit. *)
Theorem call_casts_sit_at_the_location_of_pointer_arguments :
  forall (isLt isEq : ConstraintVariable -> ConstraintVariable -> ProgramInfo -> bool)
         (mkString : ConstraintVariable -> ProgramInfo -> bool -> string)
         (getVariableE : ProgramInfo -> Expr -> bool -> list ConstraintVariable)
         (getVariableD : ProgramInfo -> DeclaratorDecl -> bool -> list ConstraintVariable)
         (Info : ProgramInfo) (callee : option Callee) (args : list Expr)
         (R R' : Rewriter),
    CheckedCConvert.VisitCallExpr isLt isEq mkString getVariableE getVariableD
      Info callee args R = Some R' ->
    exists added,
      R' = R ++ added /\
      length added <= 2 * placedParams callee /\
      List.Forall (atPointerArgument (placedParams callee) args) added.
Proof.
  intros isLt isEq mkString gE gD Info callee args R R' Hrun.
  assert (forall n, exists added, R = R ++ added /\ length added <= 2 * n /\
                                  List.Forall (atPointerArgument n args) added) as Hnone.
  { intros n. exists []. rewrite app_nil_r. repeat split; [simpl; lia | constructor]. }
  destruct callee as [[FD|DD|]|]; cbn [CheckedCConvert.VisitCallExpr placedParams] in *;
    try (injection Hrun as <-; apply Hnone).
  unfold CheckedCConvert.VisitCallExpr in Hrun.
  destruct (isVariadic FD); [injection Hrun as <-; apply Hnone|].
  exact (placeArguments_add isLt isEq mkString gE gD Info args _ _ _ _ _ Hrun).
Qed.

(** h(q + 1, 3) with the parameter of h solved to Ptr and q to Wild.  The
    argument starts at 80 and its operator + is at 82. *)
Definition h_fn : FunctionDecl :=
  {| fdThis := PlannerClaims.h_decl; fdRedecls := [PlannerClaims.h_decl] |}.

Definition q_is_wild : ProgramInfo :=
  {| freeKey := 2;
     Variables := <[declPSL PlannerClaims.h_param := [PlannerClaims.cv0]]>
                    (<[declPSL PlannerClaims.q_var := [PlannerClaims.cv1]]> ∅);
     CS := [Eq (AVar 1) (AConst Wild)] |}.

Definition q_plus_one : Expr :=
  BinaryOperator BO_Add
    (ImplicitCastExpr (TPointer TInt) (DeclRefExpr PlannerClaims.q_var 80))
    (IntegerLiteral 1 84) 82.

Lemma call_casts_sit_at_the_location_of_pointer_arguments_witness :
  getLocStart q_plus_one = 80 /\
  (CheckedCConvert.VisitCallExpr Modelled.isLt Modelled.isEq Modelled.mkString
     getVariableArith Modelled.getVariableD q_is_wild
     (Some (CalleeFunction h_fn)) [q_plus_one; IntegerLiteral 3 87] []
   = Some [InsertTextBefore 82 "_Assume_bounds_cast<ptr<int>>("; InsertTextAfter 82 ")"]) /\
  exists added,
    ([InsertTextBefore 82 "_Assume_bounds_cast<ptr<int>>("; InsertTextAfter 82 ")"]
     = [] ++ added) /\
    length added <= 2 * 1 /\
    List.Forall (atPointerArgument 1 [q_plus_one; IntegerLiteral 3 87]) added.
Proof.
  split; [reflexivity|]. split; [reflexivity|].
  exact (call_casts_sit_at_the_location_of_pointer_arguments
           Modelled.isLt Modelled.isEq Modelled.mkString
           getVariableArith Modelled.getVariableD q_is_wild
           (Some (CalleeFunction h_fn)) [q_plus_one; IntegerLiteral 3 87] []
           _ eq_refl).
Defined.

(** *** When the cast placement of a call does not return *)

(** The definition and the declaration VisitCallExpr works with: the
    definition is the redeclaration that has the body, or FD itself; the
    declaration is another redeclaration when the definition is FD itself,
    and FD otherwise. *)
Definition definitionOf (FD : FunctionDecl) : FunctionDeclData :=
  match hasBody FD with Some d => d | None => fdThis FD end.

Definition declarationOf (FD : FunctionDecl) : FunctionDeclData :=
  if sameFunctionDecl (definitionOf FD) (fdThis FD)
  then match otherRedecl FD (definitionOf FD) with
       | Some tD => tD
       | None => fdThis FD
       end
  else fdThis FD.

(** What the loop of VisitCallExpr dereferences at index i without having
    it: the parameter of the declaration; or, when that parameter has no
    bounds expression, the argument; or, when the argument is of pointer
    type, the parameter of the definition. *)
Definition missingAt (Declaration Definition_ : FunctionDeclData) (args : list Expr)
  (i : nat) : Prop :=
  fnParams Declaration !! i = None \/
  exists pDecl,
    fnParams Declaration !! i = Some pDecl /\
    declHasBoundsExpr pDecl = false /\
    (args !! i = None \/
     exists Arg, args !! i = Some Arg /\
                 isPointerType (getType Arg) = true /\
                 fnParams Definition_ !! i = None).

Section Failure.

Variable isLt : ConstraintVariable -> ConstraintVariable -> ProgramInfo -> bool.
Variable isEq : ConstraintVariable -> ConstraintVariable -> ProgramInfo -> bool.
Variable mkString : ConstraintVariable -> ProgramInfo -> bool -> string.
Variable getVariableE : ProgramInfo -> Expr -> bool -> list ConstraintVariable.
Variable getVariableD : ProgramInfo -> DeclaratorDecl -> bool -> list ConstraintVariable.

Lemma placeArgumentCast_None Info args Declaration Definition_ i R :
  placeArgumentCast isLt isEq mkString getVariableE getVariableD
    Info args Declaration Definition_ i R = None <->
  missingAt Declaration Definition_ args i.
Proof.
  unfold placeArgumentCast, missingAt.
  destruct (fnParams Declaration !! i) as [pDecl|]; cbn [mbind option_bind];
    [|split; [now left|reflexivity]].
  destruct (declHasBoundsExpr pDecl) eqn:Hb.
  { split; [discriminate|]. intros [H|(p & [= <-] & H & _)]; congruence. }
  destruct (args !! i) as [Arg|]; cbn [mbind option_bind].
  2:{ split; [|reflexivity]. intros _. right. exists pDecl. auto. }
  destruct (isPointerType (getType Arg)) eqn:Hptr.
  2:{ split; [discriminate|].
      intros [H|(p & _ & _ & [H|(A & [= <-] & H & _)])]; congruence. }
  destruct (fnParams Definition_ !! i) as [pDef|]; cbn [mbind option_bind].
  2:{ split; [|reflexivity]. intros _. right. exists pDecl.
      repeat split; auto. right. now exists Arg. }
  split.
  2:{ intros [H|(p & _ & _ & [H|(A & _ & _ & H)])]; discriminate. }
  destruct (Nat.ltb 0 (length (getVariableE Info Arg true))) eqn:Hlen; [|discriminate].
  destruct (getHighest_nonempty isLt isEq (getVariableE Info Arg true) Info) as (E & ->).
  { intros HE. rewrite HE in Hlen. discriminate. }
  destruct (getHighest isLt isEq (getVariableD Info pDecl false) Info); [|discriminate].
  cbv zeta. destruct (negb _); [|discriminate]. destruct (isLt _ _ _); discriminate.
Qed.

Lemma placeArguments_from_None (f : nat -> Rewriter -> option Rewriter) l :
  fold_left (fun oR i => R ← oR; f i R) l None = None.
Proof. induction l as [|i l IH]; simpl; [reflexivity|exact IH]. Qed.

Lemma placeArguments_None (f : nat -> Rewriter -> option Rewriter) (fails : nat -> Prop) l :
  (forall i R, f i R = None <-> fails i) ->
  forall R,
    fold_left (fun oR i => R ← oR; f i R) l (Some R) = None <->
    exists i, In i l /\ fails i.
Proof.
  intros Hf. induction l as [|a l IH]; intros R; simpl.
  - split; [discriminate|]. now intros (i & [] & _).
  - destruct (f a R) as [R1|] eqn:Ha.
    + rewrite IH. split.
      * intros (i & Hi & Hfail). exists i. auto.
      * intros (i & [<-|Hi] & Hfail); [|now exists i].
        apply (Hf a R) in Hfail. congruence.
    + rewrite placeArguments_from_None. split; [|reflexivity].
      intros _. exists a. split; [now left|]. now apply (Hf a R).
Qed.

End Failure.

(** X17.  The cast placement of a call fails to return in these cases
    only: the callee is a function that is not variadic and, for some
    parameter position of it, the declaration it compares with has no
    parameter there (as with an earlier declaration without a prototype);
    or, that parameter having no bounds expression, the call has no argument
    there; or, the argument being of pointer type, the definition has no
    parameter there. *)
Theorem call_cast_placement_fails_only_on_a_missing_parameter_or_argument :
  forall (isLt isEq : ConstraintVariable -> ConstraintVariable -> ProgramInfo -> bool)
         (mkString : ConstraintVariable -> ProgramInfo -> bool -> string)
         (getVariableE : ProgramInfo -> Expr -> bool -> list ConstraintVariable)
         (getVariableD : ProgramInfo -> DeclaratorDecl -> bool -> list ConstraintVariable)
         (Info : ProgramInfo) (callee : option Callee) (args : list Expr) (R : Rewriter),
    CheckedCConvert.VisitCallExpr isLt isEq mkString getVariableE getVariableD
      Info callee args R = None <->
    exists FD i,
      callee = Some (CalleeFunction FD) /\
      isVariadic FD = false /\
      i < getNumParams FD /\
      missingAt (declarationOf FD) (definitionOf FD) args i.
Proof.
  intros isLt isEq mkString gE gD Info callee args R.
  destruct callee as [[FD|DD|]|]; cbn [CheckedCConvert.VisitCallExpr];
    try (split; [discriminate|]; intros (FD' & i & H & _); discriminate).
  unfold CheckedCConvert.VisitCallExpr.
  destruct (isVariadic FD) eqn:Hv.
  { split; [discriminate|]. intros (FD' & i & [= <-] & H & _). congruence. }
  cbv zeta. fold (definitionOf FD). fold (declarationOf FD).
  rewrite (placeArguments_None
             (placeArgumentCast isLt isEq mkString gE gD Info args
                (declarationOf FD) (definitionOf FD))
             (missingAt (declarationOf FD) (definitionOf FD) args)
             (seq 0 (getNumParams FD))
             (placeArgumentCast_None isLt isEq mkString gE gD Info args
                (declarationOf FD) (definitionOf FD))).
  split.
  - intros (i & Hi & Hm). exists FD, i. apply in_seq in Hi. repeat split; auto. lia.
  - intros (FD' & i & [= <-] & _ & Hi & Hm). exists i. split; [|exact Hm].
    apply in_seq. lia.
Qed.

(** void f();  void f(int *q) { }  ...  f(p);
    the call resolves to the definition, the declaration compared with
    is the one without a prototype, and the placement does not return. *)
Definition f_without_prototype : FunctionDeclData :=
  {| fnDecl := mkDecl 30 (mkPSL "a.c" 1 1) "f" (TFunction TVoid []) true false false;
     fnParams := []; fnVariadic := false; fnHasBodyHere := false |}.

Definition f_defined_later : FunctionDecl :=
  {| fdThis := PlannerClaims.f_def;
     fdRedecls := [PlannerClaims.f_def; f_without_prototype] |}.

Lemma call_of_a_function_declared_without_prototype :
  CheckedCConvert.VisitCallExpr Modelled.isLt Modelled.isEq Modelled.mkString
    Modelled.getVariableE Modelled.getVariableD PlannerClaims.callers_wild
    (Some (CalleeFunction f_defined_later)) [DeclRefExpr PlannerClaims.p_var 90] []
  = None.
Proof. reflexivity. Qed.

End PlannerExtras.

(* ===================================================================== *)
(** ** CheckedCConvert.cpp: rewriting the declarations *)
(* ===================================================================== *)

Module Rewriting.

(** A clang SourceRange. *)
Record SourceRange : Type := mkRange {
  getBegin : SourceLocation;
  getEnd : SourceLocation
}.

Definition setEnd (SR : SourceRange) (e : SourceLocation) : SourceRange :=
  mkRange (getBegin SR) e.

(** The calls rewrite makes on clang's Rewriter: besides the insertions of
    the cast placement, replacements and removals of ranges. *)
Inductive Edit : Type :=
| ReplaceText (SR : SourceRange) (s : string)
| RemoveText (SR : SourceRange)
| Insert (op : RewriteOp).

Definition FileID := nat.

(** The declarations rewrite tells apart with dyn_cast, in the order in
    which it tries them.  A parameter comes with its parent function and
    the chain of that function's previous declarations, when it has a
    parent. *)
Inductive Decl : Type :=
| ParmVarDeclD (PV : DeclaratorDecl)
    (getParentFunctionOrMethod : option (FunctionDeclData * list FunctionDeclData))
| VarDeclD (VD : VarDecl)
| FunctionDeclD (UD : FunctionDeclData)
| FieldDeclD (FD : DeclaratorDecl)
| OtherDecl (id : nat) (range : SourceRange).

(** A Decl pointer is identified by the number of its declaration. *)
Definition getDeclId (D : Decl) : nat :=
  match D with
  | ParmVarDeclD PV _ => declId PV
  | VarDeclD VD => declId (vdDecl VD)
  | FunctionDeclD UD => declId (fnDecl UD)
  | FieldDeclD FD => declId FD
  | OtherDecl id _ => id
  end.

(** A declaration statement: its identity, its range and the declarations
    of its group. *)
Record DeclStmtR : Type := mkDeclStmtR {
  stmtId : nat;
  stmtRange : SourceRange;
  stmtDecls : list Decl
}.

Definition isSingleDecl (W : DeclStmtR) : bool := Nat.eqb (length (stmtDecls W)) 1.

(** typedef std::pair<Decl*, DeclStmt*> DeclNStmt;
    typedef std::pair<DeclNStmt, std::string> DAndReplace; *)
Definition DeclNStmt : Type := Decl * option DeclStmtR.
Definition DAndReplace : Type := DeclNStmt * string.

Definition sameWhere (a b : option DeclStmtR) : bool :=
  match a, b with
  | Some x, Some y => Nat.eqb (stmtId x) (stmtId y)
  | None, None => true
  | _, _ => false
  end.

(** Equality of two elements of a std::set<DAndReplace>. *)
Definition sameEntry (a b : DAndReplace) : bool :=
  Nat.eqb (getDeclId a.1.1) (getDeclId b.1.1) &&
  sameWhere a.1.2 b.1.2 &&
  String.eqb a.2 b.2.

(** std::set<FileID>::insert, the set being kept in increasing order. *)
Fixpoint insertFile (f : FileID) (Files : list FileID) : list FileID :=
  match Files with
  | [] => [f]
  | g :: rest =>
      if Nat.ltb f g then f :: g :: rest
      else if Nat.eqb f g then g :: rest
      else g :: insertFile f rest
  end.

Definition newline : string := String (ascii_of_nat 10) EmptyString.

(** The rewriter, the touched files and the set skip. *)
Record RewriteState : Type := mkState {
  edits : list Edit;
  touched : list FileID;
  skip : list DAndReplace
}.

Section Rewrite.

(** What rewrite asks of clang: source ranges and locations of
    declarations, SourceRange::isValid, Rewriter::getRangeSize (on the
    rewriter as it is at the time of the call),
    SourceManager::getExpansionLoc, the FileID of a location, and the
    printers of expressions and declarations. *)
Variable getSourceRange : DeclaratorDecl -> SourceRange.
Variable getReturnTypeSourceRange : FunctionDeclData -> SourceRange.
Variable getLocation : DeclaratorDecl -> SourceLocation.
Variable getInitializerStartLoc : VarDecl -> SourceLocation.
Variable isValid : SourceRange -> bool.
Variable getRangeSize : list Edit -> SourceRange -> Z.
Variable getExpansionLoc : SourceLocation -> SourceLocation.
Variable getFileID : SourceLocation -> FileID.
Variable printPretty : Expr -> string.
Variable print : Decl -> string.

(** canRewrite(R, SR). *)
Definition canRewrite (R : list Edit) (SR : SourceRange) : bool :=
  isValid SR && negb (Z.eqb (getRangeSize R SR) (-1)).

(** if (canRewrite(R, SR)) R.ReplaceText(SR, s); *)
Definition replaceIfPossible (SR : SourceRange) (s : string) (R : list Edit) : list Edit :=
  if canRewrite R SR then R ++ [ReplaceText SR s] else R.

(** D->getSourceRange(). *)
Definition declSourceRange (D : Decl) : SourceRange :=
  match D with
  | ParmVarDeclD PV _ => getSourceRange PV
  | VarDeclD VD => getSourceRange (vdDecl VD)
  | FunctionDeclD UD => getSourceRange (fnDecl UD)
  | FieldDeclD FD => getSourceRange FD
  | OtherDecl _ range => range
  end.

(** The file a declaration starts in. *)
Definition fileOf (N : DAndReplace) : FileID :=
  getFileID (getBegin (declSourceRange N.1.1)).

(** The parameter case: the parameter is looked up by position in its
    function, and rewritten at that position in the function and in each
    of its previous declarations that has that many parameters.  None
    stands for the failed assertion on parmIndex. *)
Definition rewriteParm (PV : DeclaratorDecl) (FD : FunctionDeclData)
  (previous : list FunctionDeclData) (sRewrite : string) (R : list Edit)
  : option (list Edit) :=
  parmIndex ← paramIndex PV (fnParams FD) 0;
  Some (fold_left
          (fun R toRewrite =>
             if Nat.ltb parmIndex (length (fnParams toRewrite)) then
               match fnParams toRewrite !! parmIndex with
               | Some Rewrite => replaceIfPossible (getSourceRange Rewrite) sRewrite R
               | None => R
               end
             else R)
          (FD :: previous) R).

(** Step 1 of the multiple-declaration case: the elements of toRewrite
    from N on that belong to the statement Where. *)
Definition rewritesFor (Where : DeclStmtR) (fromN : list DAndReplace) : list DAndReplace :=
  List.filter (fun tmp => sameWhere tmp.1.2 (Some Where)) fromN.

(** Step 3: the text of one declaration of the group.  None stands for
    the failed assertion on a declaration that is not a variable. *)
Definition declText (rewritesForThisDecl : list DAndReplace) (DL : Decl) : option string :=
  match DL with
  | VarDeclD VDL =>
      match find (fun NLT => Nat.eqb (getDeclId NLT.1.1) (getDeclId DL))
                 rewritesForThisDecl with
      | Some N =>
          Some (N.2 +:+
                match getInit VDL with
                | Some E => " = " +:+ printPretty E
                | None => EmptyString
                end +:+ ";" +:+ newline)
      | None => Some (print DL +:+ ";" +:+ newline)
      end
  | _ => None
  end.

Definition newMultiLineDecl (rewritesForThisDecl : list DAndReplace) (Where : DeclStmtR)
  : option string :=
  fold_left
    (fun acc DL => text ← acc; t ← declText rewritesForThisDecl DL; Some (text +:+ t))
    (stmtDecls Where) (Some EmptyString).

Definition inSkip (N : DAndReplace) (skip : list DAndReplace) : bool :=
  existsb (sameEntry N) skip.

(** The variable case, with a statement. *)
Definition rewriteVar (N : DAndReplace) (fromN : list DAndReplace) (VD : VarDecl)
  (Where : DeclStmtR) (st : RewriteState) : option RewriteState :=
  let R := edits st in
  let TR0 := getSourceRange (vdDecl VD) in
  let TR := match getInit VD with
            | Some _ => setEnd TR0 (getInitializerStartLoc VD)
            | None => TR0
            end in
  let sRewrite := match getInit VD with
                  | Some _ => N.2 +:+ " = "
                  | None => N.2
                  end in
  if isSingleDecl Where then
    if canRewrite R TR then
      Some (mkState (R ++ [ReplaceText TR sRewrite]) (touched st) (skip st))
    else
      let possible := mkRange (getExpansionLoc (getBegin TR)) (getLocation (vdDecl VD)) in
      if canRewrite R possible then
        Some (mkState
                (R ++ [ReplaceText possible N.2;
                       Insert (InsertTextAfter (getLocation (vdDecl VD))
                                 (" " +:+ declName (vdDecl VD)))])
                (touched st) (skip st))
      else Some st
  else if negb (inSkip N (skip st)) then
    let rewritesForThisDecl := rewritesFor Where fromN in
    let DR := stmtRange Where in
    newMLDecl ← newMultiLineDecl rewritesForThisDecl Where;
    Some (mkState
            (R ++ [RemoveText DR; Insert (InsertTextAfter (getEnd DR) newMLDecl)])
            (touched st)
            (skip st ++ rewritesForThisDecl))
  else Some st.

(** The body of the loop of rewrite for the element N; fromN is the part of
    toRewrite from N on, which is what the iterator toRewrite.find(N)
    runs over.  None stands for a failed assertion or llvm_unreachable. *)
Definition rewriteEntry (N : DAndReplace) (fromN : list DAndReplace) (st0 : RewriteState)
  : option RewriteState :=
  let st := mkState (edits st0) (insertFile (fileOf N) (touched st0)) (skip st0) in
  match N.1.1, N.1.2 with
  | ParmVarDeclD PV parent, None =>
      match parent with
      | Some (FD, previous) =>
          R ← rewriteParm PV FD previous N.2 (edits st);
          Some (mkState R (touched st) (skip st))
      | None => None
      end
  | ParmVarDeclD _ _, Some _ => None
  | VarDeclD VD, Some Where => rewriteVar N fromN VD Where st
  | VarDeclD _, None => Some st
  | FunctionDeclD UD, _ =>
      Some (mkState (replaceIfPossible (getReturnTypeSourceRange UD) N.2 (edits st))
                    (touched st) (skip st))
  | FieldDeclD FD, _ =>
      Some (mkState (replaceIfPossible (getSourceRange FD) N.2 (edits st))
                    (touched st) (skip st))
  | OtherDecl _ _, _ => Some st
  end.

Fixpoint rewriteLoop (toRewrite : list DAndReplace) (st : RewriteState)
  : option RewriteState :=
  match toRewrite with
  | [] => Some st
  | N :: rest =>
      st' ← rewriteEntry N (N :: rest) st;
      rewriteLoop rest st'
  end.

(** rewrite(R, toRewrite, S, A, Files, Info); toRewrite is given in the
    order in which the set is iterated. *)
Definition rewrite (R : list Edit) (toRewrite : list DAndReplace) (Files : list FileID)
  : option (list Edit * list FileID) :=
  st ← rewriteLoop toRewrite (mkState R Files []);
  Some (edits st, touched st).

End Rewrite.

End Rewriting.

(* ===================================================================== *)
(** ** What rewrite does to the rewriter and to the set of files *)
(* ===================================================================== *)

Module RewriteExtras.

Import Rewriting.

(** The ranges removed by a sequence of edits, in order. *)
Definition removals (R : list Edit) : list SourceRange :=
  flat_map (fun e => match e with RemoveText SR => [SR] | _ => [] end) R.

(** The statement of an element that takes the multiple-declaration
    path. *)
Definition multiStmt (N : DAndReplace) : option DeclStmtR :=
  match N.1.1, N.1.2 with
  | VarDeclD _, Some W => if isSingleDecl W then None else Some W
  | _, _ => None
  end.

(** The statements with several declarators among the elements of l, each
    one once, in the order of its first element; seen holds the statements
    already met. *)
Fixpoint distinctStmts (l : list DAndReplace) (seen : list nat) : list DeclStmtR :=
  match l with
  | [] => []
  | N :: rest =>
      match multiStmt N with
      | Some W =>
          if existsb (Nat.eqb (stmtId W)) seen then distinctStmts rest seen
          else W :: distinctStmts rest (stmtId W :: seen)
      | None => distinctStmts rest seen
      end
  end.

Lemma removals_app R1 R2 : removals (R1 ++ R2) = removals R1 ++ removals R2.
Proof. apply flat_map_app. Qed.

Lemma insertFile_In f g Files : In g (insertFile f Files) <-> g = f \/ In g Files.
Proof.
  induction Files as [|h rest IH]; simpl.
  - intuition.
  - destruct (Nat.ltb f h); [simpl; intuition|].
    destruct (Nat.eqb_spec f h) as [->|Hne]; simpl; [intuition|].
    rewrite IH. intuition.
Qed.

Lemma sameWhere_refl a : sameWhere a a = true.
Proof. destruct a; simpl; [apply Nat.eqb_refl|reflexivity]. Qed.

Lemma sameEntry_refl N : sameEntry N N = true.
Proof.
  unfold sameEntry. now rewrite Nat.eqb_refl, sameWhere_refl, String.eqb_refl.
Qed.

Definition isVarDecl (D : Decl) : bool :=
  match D with
  | VarDeclD _ => true
  | _ => false
  end.

(** What rewrite asserts of an element: a parameter has no statement, has
    a parent function and is one of its parameters; the statement of a
    variable, when it has several declarators, declares variables only. *)
Definition wellFormedEntry (N : DAndReplace) : Prop :=
  match N.1.1, N.1.2 with
  | ParmVarDeclD PV parent, W =>
      W = None /\
      exists FD previous,
        parent = Some (FD, previous) /\
        exists q, In q (fnParams FD) /\ sameDecl PV q = true
  | VarDeclD _, Some W =>
      isSingleDecl W = false -> List.Forall (fun D => isVarDecl D = true) (stmtDecls W)
  | _, _ => True
  end.

Section RewriteFacts.

Variable getSourceRange : DeclaratorDecl -> SourceRange.
Variable getReturnTypeSourceRange : FunctionDeclData -> SourceRange.
Variable getLocation : DeclaratorDecl -> SourceLocation.
Variable getInitializerStartLoc : VarDecl -> SourceLocation.
Variable isValid : SourceRange -> bool.
Variable getRangeSize : list Edit -> SourceRange -> Z.
Variable getExpansionLoc : SourceLocation -> SourceLocation.
Variable getFileID : SourceLocation -> FileID.
Variable printPretty : Expr -> string.
Variable print : Decl -> string.

Local Abbreviation canRewrite' := (canRewrite isValid getRangeSize) (only parsing).
Local Abbreviation rewriteEntry' :=
  (rewriteEntry getSourceRange getReturnTypeSourceRange getLocation getInitializerStartLoc
     isValid getRangeSize getExpansionLoc getFileID printPretty print) (only parsing).
Local Abbreviation rewriteLoop' :=
  (rewriteLoop getSourceRange getReturnTypeSourceRange getLocation getInitializerStartLoc
     isValid getRangeSize getExpansionLoc getFileID printPretty print) (only parsing).
Local Abbreviation fileOf' := (fileOf getSourceRange getFileID) (only parsing).

(** *** The touched files *)

Lemma rewriteEntry_touched N fromN st st' :
  rewriteEntry' N fromN st = Some st' ->
  touched st' = insertFile (fileOf' N) (touched st).
Proof.
  unfold rewriteEntry. destruct N as [[D W] s]. simpl.
  destruct D as [PV [[FD previous]|]|VD|UD|FD|id range]; destruct W as [W|];
    simpl; try discriminate; try (now intros [= <-]).
  - destruct (rewriteParm _ _ _ _ _ _ _); simpl; [|discriminate]. now intros [= <-].
  - unfold rewriteVar. simpl.
    destruct (isSingleDecl W).
    + destruct (canRewrite _ _ _ _); [now intros [= <-]|].
      destruct (canRewrite _ _ _ _); now intros [= <-].
    + destruct (negb _); [|now intros [= <-]].
      destruct (newMultiLineDecl _ _ _ _); simpl; [|discriminate]. now intros [= <-].
Qed.

Lemma rewriteLoop_touched l : forall st st',
  rewriteLoop' l st = Some st' ->
  forall g, In g (touched st') <-> In g (touched st) \/ exists N, In N l /\ g = fileOf' N.
Proof.
  induction l as [|N rest IH]; intros st st' Hrun g.
  - injection Hrun as <-. split; [now left|]. intros [H|(N & [] & _)]. exact H.
  - cbn [rewriteLoop] in Hrun.
    destruct (rewriteEntry' N (N :: rest) st) as [st1|] eqn:H1; [|discriminate].
    cbn [mbind option_bind] in Hrun.
    rewrite (IH _ _ Hrun g), (rewriteEntry_touched _ _ _ _ H1), insertFile_In.
    split.
    + intros [[->|H]|(M & HM & ->)].
      * right. exists N. split; [now left|reflexivity].
      * now left.
      * right. exists M. split; [now right|reflexivity].
    + intros [H|(M & [<-|HM] & ->)].
      * left. now right.
      * left. now left.
      * right. now exists M.
Qed.

(** *** The statements with several declarators *)

Lemma removals_replaceIfPossible SR s R :
  removals (replaceIfPossible isValid getRangeSize SR s R) = removals R.
Proof.
  unfold replaceIfPossible. destruct (canRewrite _ _ _ _); [|reflexivity].
  rewrite removals_app. simpl. apply app_nil_r.
Qed.

Lemma removals_parmLoop (k : nat) (s : string) (l : list FunctionDeclData) : forall R,
  removals
    (fold_left
       (fun R toRewrite =>
          if Nat.ltb k (length (fnParams toRewrite)) then
            match fnParams toRewrite !! k with
            | Some Rewrite =>
                replaceIfPossible isValid getRangeSize (getSourceRange Rewrite) s R
            | None => R
            end
          else R)
       l R)
  = removals R.
Proof.
  induction l as [|d l IH]; intros R; simpl; [reflexivity|].
  rewrite IH. destruct (Nat.ltb k (length (fnParams d))); [|reflexivity].
  destruct (fnParams d !! k); [apply removals_replaceIfPossible|reflexivity].
Qed.

Lemma removals_rewriteParm PV FD previous s R R' :
  rewriteParm getSourceRange isValid getRangeSize PV FD previous s R = Some R' ->
  removals R' = removals R.
Proof.
  unfold rewriteParm. destruct (paramIndex PV (fnParams FD) 0) as [k|]; [|discriminate].
  cbn [mbind option_bind]. intros [= <-]. exact (removals_parmLoop k s (FD :: previous) R).
Qed.

Lemma rewriteEntry_removals N fromN st st' :
  rewriteEntry' N fromN st = Some st' ->
  match multiStmt N with
  | Some W =>
      if inSkip N (skip st)
      then removals (edits st') = removals (edits st) /\ skip st' = skip st
      else removals (edits st') = removals (edits st) ++ [stmtRange W] /\
           skip st' = skip st ++ rewritesFor W fromN
  | None => removals (edits st') = removals (edits st) /\ skip st' = skip st
  end.
Proof.
  unfold rewriteEntry, multiStmt. destruct N as [[D W] s]. simpl.
  destruct D as [PV [[FD previous]|]|VD|UD|FD|id range]; destruct W as [W|];
    simpl; try discriminate; try (now intros [= <-]).
  - destruct (rewriteParm _ _ _ _ _ _ _) as [R1|] eqn:HP; simpl; [|discriminate].
    intros [= <-]. simpl. split; [|reflexivity]. exact (removals_rewriteParm _ _ _ _ _ _ HP).
  - unfold rewriteVar. simpl.
    destruct (isSingleDecl W).
    + destruct (canRewrite _ _ _ _).
      { intros [= <-]. simpl. rewrite removals_app. simpl. now rewrite app_nil_r. }
      destruct (canRewrite _ _ _ _); intros [= <-]; simpl; [|now split].
      rewrite removals_app. simpl. now rewrite app_nil_r.
    + destruct (inSkip _ _); simpl; [now intros [= <-]|].
      destruct (newMultiLineDecl _ _ _ _); simpl; [|discriminate].
      intros [= <-]. simpl. rewrite removals_app. now split.
  - intros [= <-]. simpl. split; [apply removals_replaceIfPossible|reflexivity].
  - intros [= <-]. simpl. split; [apply removals_replaceIfPossible|reflexivity].
  - intros [= <-]. simpl. split; [apply removals_replaceIfPossible|reflexivity].
  - intros [= <-]. simpl. split; [apply removals_replaceIfPossible|reflexivity].
Qed.

Lemma multiStmt_Where N W : multiStmt N = Some W -> N.1.2 = Some W.
Proof.
  unfold multiStmt. destruct N as [[D [W'|]] s]; simpl; destruct D; try discriminate.
  destruct (isSingleDecl W'); [discriminate|]. now intros [= ->].
Qed.

Lemma sameEntry_Where a b Wa Wb :
  sameEntry a b = true -> a.1.2 = Some Wa -> b.1.2 = Some Wb -> stmtId Wa = stmtId Wb.
Proof.
  unfold sameEntry. intros H Ha Hb. rewrite Ha, Hb in H. simpl in H.
  apply andb_prop in H as [H _]. apply andb_prop in H as [_ H]. now apply Nat.eqb_eq.
Qed.

(** skip holds exactly the elements of the statements already handled. *)
Definition skipTracks (l : list DAndReplace) (sk : list DAndReplace) (seen : list nat)
  : Prop :=
  forall e We, In e l -> e.1.2 = Some We ->
    (inSkip e sk = true <-> In (stmtId We) seen).

Lemma skipTracks_step N rest sk seen W :
  skipTracks (N :: rest) sk seen ->
  N.1.2 = Some W ->
  skipTracks rest (sk ++ rewritesFor W (N :: rest)) (stmtId W :: seen).
Proof.
  intros Htr HW e We He HWe. unfold inSkip. rewrite existsb_app, orb_true_iff.
  fold (inSkip e sk). rewrite (Htr e We (or_intror He) HWe).
  change (In (stmtId We) (stmtId W :: seen))
    with (stmtId W = stmtId We \/ In (stmtId We) seen).
  destruct (Nat.eq_dec (stmtId W) (stmtId We)) as [Heq|Hne].
  - split; [now left|]. intros _. right. apply existsb_exists. exists e.
    split; [|apply sameEntry_refl].
    unfold rewritesFor. apply filter_In. split; [now right|].
    change (sameWhere e.1.2 (Some W) = true). rewrite HWe. simpl.
    apply Nat.eqb_eq. congruence.
  - split.
    + intros [H|H]; [now right|]. exfalso. apply existsb_exists in H as (e' & He' & Hs).
      unfold rewritesFor in He'. apply filter_In in He' as [_ Hw].
      change (sameWhere e'.1.2 (Some W) = true) in Hw.
      destruct (e'.1.2) as [We'|] eqn:HWe'; [|discriminate]. simpl in Hw.
      apply Nat.eqb_eq in Hw. apply Hne.
      rewrite <- Hw. symmetry. exact (sameEntry_Where _ _ _ _ Hs HWe HWe').
    + intros [H|H]; [contradiction|now left].
Qed.

Lemma existsb_eqb_In n l : existsb (Nat.eqb n) l = true <-> In n l.
Proof.
  rewrite existsb_exists. split.
  - intros (m & Hm & Heq). apply Nat.eqb_eq in Heq. now subst.
  - intros H. exists n. split; [exact H|apply Nat.eqb_refl].
Qed.

Lemma rewriteLoop_removals l : forall st st' seen,
  skipTracks l (skip st) seen ->
  rewriteLoop' l st = Some st' ->
  removals (edits st') = removals (edits st) ++ map stmtRange (distinctStmts l seen).
Proof.
  induction l as [|N rest IH]; intros st st' seen Htr Hrun.
  - injection Hrun as <-. simpl. now rewrite app_nil_r.
  - cbn [rewriteLoop] in Hrun.
    destruct (rewriteEntry' N (N :: rest) st) as [st1|] eqn:H1; [|discriminate].
    cbn [mbind option_bind] in Hrun.
    pose proof (rewriteEntry_removals _ _ _ _ H1) as Hstep.
    cbn [distinctStmts].
    destruct (multiStmt N) as [W|] eqn:HM.
    + pose proof (multiStmt_Where _ _ HM) as HW.
      pose proof (Htr N W (or_introl eq_refl) HW) as HN.
      destruct (inSkip N (skip st)) eqn:Hin.
      * destruct Hstep as [Hr Hs].
        assert (existsb (Nat.eqb (stmtId W)) seen = true) as ->
          by (apply existsb_eqb_In, HN; reflexivity).
        rewrite (IH st1 st' seen); [now rewrite Hr| |exact Hrun].
        rewrite Hs. intros e We He. apply Htr. now right.
      * destruct Hstep as [Hr Hs].
        assert (existsb (Nat.eqb (stmtId W)) seen = false) as ->.
        { apply not_true_is_false. intros H. apply existsb_eqb_In, HN in H. congruence. }
        rewrite (IH st1 st' (stmtId W :: seen)); [| |exact Hrun].
        -- rewrite Hr. simpl. now rewrite <- app_assoc.
        -- rewrite Hs. now apply skipTracks_step.
    + destruct Hstep as [Hr Hs].
      rewrite (IH st1 st' seen); [now rewrite Hr| |exact Hrun].
      rewrite Hs. intros e We He. apply Htr. now right.
Qed.

(** *** Replacements are guarded by canRewrite *)

(** R' extends R, and each replacement made beyond R was accepted by
    canRewrite on the rewriter as it was then. *)
Definition Guarded (R R' : list Edit) : Prop :=
  exists added,
    R' = R ++ added /\
    forall pre SR s post,
      added = pre ++ ReplaceText SR s :: post ->
      canRewrite' (R ++ pre) SR = true.

Lemma Guarded_refl R : Guarded R R.
Proof.
  exists []. split; [now rewrite app_nil_r|].
  intros pre SR s post H. now destruct pre.
Qed.

Lemma snoc_split {A} (l pre post : list A) (e x : A) :
  l ++ [e] = pre ++ x :: post ->
  (post = [] /\ l = pre /\ e = x) \/
  (exists post', post = post' ++ [e] /\ l = pre ++ x :: post').
Proof.
  intros H. destruct (exists_last (l := x :: post) ltac:(discriminate)) as (m & e' & Hm).
  destruct post as [|y post].
  - left. apply (app_inj_tail l pre e x) in H as [-> ->]. auto.
  - right. destruct (exists_last (l := y :: post) ltac:(discriminate)) as (post' & e'' & Hp).
    rewrite Hp in H |- *.
    change (l ++ [e] = pre ++ (x :: post') ++ [e'']) in H. rewrite app_assoc in H.
    apply app_inj_tail in H as [-> ->]. now exists post'.
Qed.

Lemma snoc2 {A} (l : list A) (a b : A) : l ++ [a; b] = (l ++ [a]) ++ [b].
Proof. now rewrite <- app_assoc. Qed.

Lemma Guarded_replace R R' SR s :
  Guarded R R' -> canRewrite' R' SR = true -> Guarded R (R' ++ [ReplaceText SR s]).
Proof.
  intros (added & -> & HG) Hcan. exists (added ++ [ReplaceText SR s]).
  split; [now rewrite app_assoc|].
  intros pre SR' s' post H.
  apply snoc_split in H as [(_ & -> & [= <- <-])|(post' & _ & ->)].
  - exact Hcan.
  - now apply (HG pre SR' s' post').
Qed.

Lemma Guarded_other R R' e :
  Guarded R R' -> (forall SR s, e <> ReplaceText SR s) -> Guarded R (R' ++ [e]).
Proof.
  intros (added & -> & HG) Hne. exists (added ++ [e]).
  split; [now rewrite app_assoc|].
  intros pre SR' s' post H.
  apply snoc_split in H as [(_ & _ & ->)|(post' & _ & ->)].
  - now destruct (Hne SR' s').
  - now apply (HG pre SR' s' post').
Qed.

Lemma Guarded_replaceIfPossible R R' SR s :
  Guarded R R' -> Guarded R (replaceIfPossible isValid getRangeSize SR s R').
Proof.
  intros HG. unfold replaceIfPossible.
  destruct (canRewrite' R' SR) eqn:Hcan; [now apply Guarded_replace|exact HG].
Qed.

Lemma Guarded_parmLoop R (k : nat) (s : string) (l : list FunctionDeclData) : forall R',
  Guarded R R' ->
  Guarded R
    (fold_left
       (fun R toRewrite =>
          if Nat.ltb k (length (fnParams toRewrite)) then
            match fnParams toRewrite !! k with
            | Some Rewrite =>
                replaceIfPossible isValid getRangeSize (getSourceRange Rewrite) s R
            | None => R
            end
          else R)
       l R').
Proof.
  induction l as [|d l IH]; intros R' HG; simpl; [exact HG|].
  apply IH. destruct (Nat.ltb k (length (fnParams d))); [|exact HG].
  destruct (fnParams d !! k); [now apply Guarded_replaceIfPossible|exact HG].
Qed.

Lemma rewriteEntry_Guarded R N fromN st st' :
  Guarded R (edits st) ->
  rewriteEntry' N fromN st = Some st' ->
  Guarded R (edits st').
Proof.
  intros HG. unfold rewriteEntry. destruct N as [[D W] s]. simpl.
  destruct D as [PV [[FD previous]|]|VD|UD|FD|id range]; destruct W as [W|];
    simpl; try discriminate; try (now intros [= <-]);
    try (intros [= <-]; simpl; now apply Guarded_replaceIfPossible).
  - unfold rewriteParm.
    destruct (paramIndex PV (fnParams FD) 0) as [k|]; [|discriminate].
    cbn [mbind option_bind]. intros [= <-]. cbn [edits].
    exact (Guarded_parmLoop R k s (FD :: previous) (edits st) HG).
  - unfold rewriteVar. simpl.
    destruct (isSingleDecl W).
    + destruct (canRewrite _ _ _ _) eqn:Hcan.
      { intros [= <-]. simpl. now apply Guarded_replace. }
      match goal with
      | |- (if canRewrite _ _ _ ?possible then _ else _) = _ -> _ =>
          destruct (canRewrite isValid getRangeSize (edits st) possible) eqn:Hcan2;
            intros Hrun; injection Hrun as <-; cbn [edits]; [|exact HG];
            rewrite snoc2; apply Guarded_other;
            [now apply Guarded_replace | discriminate]
      end.
    + destruct (negb _); [|now intros [= <-]].
      destruct (newMultiLineDecl _ _ _ _) as [text|]; simpl; [|discriminate].
      intros [= <-]. cbn [edits]. rewrite snoc2.
      apply Guarded_other; [|discriminate].
      apply Guarded_other; [exact HG|discriminate].
Qed.

Lemma rewriteLoop_Guarded R l : forall st st',
  Guarded R (edits st) ->
  rewriteLoop' l st = Some st' ->
  Guarded R (edits st').
Proof.
  induction l as [|N rest IH]; intros st st' HG Hrun.
  - now injection Hrun as <-.
  - cbn [rewriteLoop] in Hrun.
    destruct (rewriteEntry' N (N :: rest) st) as [st1|] eqn:H1; [|discriminate].
    cbn [mbind option_bind] in Hrun.
    exact (IH _ _ (rewriteEntry_Guarded _ _ _ _ _ HG H1) Hrun).
Qed.

(** *** When rewrite returns *)

Lemma paramIndex_found PV ps : forall k,
  (exists q, In q ps /\ sameDecl PV q = true) ->
  exists n, paramIndex PV ps k = Some n.
Proof.
  induction ps as [|q0 ps IH]; intros k (q & Hq & Hsame); [destruct Hq|].
  simpl. destruct (sameDecl PV q0) eqn:H0; [now exists k|].
  apply IH. destruct Hq as [->|Hq]; [congruence|]. now exists q.
Qed.

Lemma declText_variable rs D :
  isVarDecl D = true -> exists t, declText printPretty print rs D = Some t.
Proof.
  destruct D; try discriminate. intros _. unfold declText.
  match goal with |- context [find ?f rs] => destruct (find f rs) end;
    eexists; reflexivity.
Qed.

Lemma newMultiLineDecl_variables rs W :
  List.Forall (fun D => isVarDecl D = true) (stmtDecls W) ->
  exists text, newMultiLineDecl printPretty print rs W = Some text.
Proof.
  unfold newMultiLineDecl. generalize EmptyString.
  induction (stmtDecls W) as [|D l IH]; intros acc Hall; simpl; [now exists acc|].
  inversion Hall as [|? ? HD Hl]; subst.
  destruct (declText_variable rs D HD) as (t & ->). simpl. now apply IH.
Qed.

Lemma rewriteEntry_returns N fromN st :
  wellFormedEntry N -> exists st', rewriteEntry' N fromN st = Some st'.
Proof.
  unfold wellFormedEntry, rewriteEntry. destruct N as [[D W] s]. simpl.
  destruct D as [PV parent|VD|UD|FD|id range].
  - intros (-> & FD & previous & -> & Hfound).
    unfold rewriteParm. destruct (paramIndex_found PV (fnParams FD) 0 Hfound) as (n & ->).
    simpl. eexists; reflexivity.
  - destruct W as [W|]; [|intros _; eexists; reflexivity].
    intros Hall. unfold rewriteVar. simpl.
    destruct (isSingleDecl W).
    + destruct (canRewrite _ _ _ _); [eexists; reflexivity|].
      destruct (canRewrite _ _ _ _); eexists; reflexivity.
    + destruct (negb _); [|eexists; reflexivity].
      destruct (newMultiLineDecl_variables (rewritesFor W fromN) W (Hall eq_refl))
        as (text & ->).
      simpl. eexists; reflexivity.
  - intros _. destruct W; eexists; reflexivity.
  - intros _. destruct W; eexists; reflexivity.
  - intros _. destruct W; eexists; reflexivity.
Qed.

Lemma rewriteLoop_returns l : forall st,
  List.Forall wellFormedEntry l -> exists st', rewriteLoop' l st = Some st'.
Proof.
  induction l as [|N rest IH]; intros st Hall; [now exists st|].
  inversion Hall as [|? ? HN Hrest]; subst. cbn [rewriteLoop].
  destruct (rewriteEntry_returns N (N :: rest) st HN) as (st1 & ->).
  cbn [mbind option_bind]. now apply IH.
Qed.

Lemma rewrite_touched (R : list Edit) (toRewrite : list DAndReplace) (Files : list FileID)
  (R' : list Edit) (Files' : list FileID) :
  rewrite getSourceRange getReturnTypeSourceRange getLocation getInitializerStartLoc
    isValid getRangeSize getExpansionLoc getFileID printPretty print
    R toRewrite Files = Some (R', Files') ->
  forall g, In g Files' <->
            In g Files \/ exists N, In N toRewrite /\ g = fileOf' N.
Proof.
  intros Hrun g. unfold rewrite in Hrun.
  destruct (rewriteLoop' toRewrite (mkState R Files [])) as [st|] eqn:Hloop;
    [|discriminate].
  injection Hrun as <- <-.
  exact (rewriteLoop_touched _ _ _ Hloop g).
Qed.

(** X12.  When rewrite returns, the set of touched files has grown by the
    file in which each declaration of toRewrite starts, and by nothing
    else: a declaration marks its file as touched whether or not any text
    could be rewritten for it. *)
Theorem rewrite_touches_the_file_of_each_declaration :
  forall (R : list Edit) (toRewrite : list DAndReplace) (Files : list FileID)
         (R' : list Edit) (Files' : list FileID),
    rewrite getSourceRange getReturnTypeSourceRange getLocation getInitializerStartLoc
      isValid getRangeSize getExpansionLoc getFileID printPretty print
      R toRewrite Files = Some (R', Files') ->
    forall g, In g Files' <->
              In g Files \/ exists N, In N toRewrite /\ g = fileOf' N.
Proof.
  intros R toRewrite Files R' Files' Hrun g.
  exact (rewrite_touched R toRewrite Files R' Files' Hrun g).
Qed.

(** X13.  A declaration statement with several declarators is removed and
    written anew exactly once, when its first element in toRewrite is
    reached, however many of its declarators are to be rewritten: the
    ranges rewrite removes are those of the distinct such statements, in
    the order of their first elements.  Nothing else is ever removed. *)
Theorem each_statement_is_removed_once :
  forall (R : list Edit) (toRewrite : list DAndReplace) (Files : list FileID)
         (R' : list Edit) (Files' : list FileID),
    rewrite getSourceRange getReturnTypeSourceRange getLocation getInitializerStartLoc
      isValid getRangeSize getExpansionLoc getFileID printPretty print
      R toRewrite Files = Some (R', Files') ->
    removals R' = removals R ++ map stmtRange (distinctStmts toRewrite []).
Proof.
  intros R toRewrite Files R' Files' Hrun. unfold rewrite in Hrun.
  destruct (rewriteLoop' toRewrite (mkState R Files [])) as [st|] eqn:Hloop;
    [|discriminate].
  injection Hrun as <- <-.
  apply (rewriteLoop_removals toRewrite (mkState R Files []) st [] ); [|exact Hloop].
  intros e We _ _. simpl. split; [discriminate|contradiction].
Qed.

(** X14.  rewrite only appends to the rewriter, and it never replaces the
    text of a range that canRewrite rejects: each ReplaceText it makes is on
    a range that was valid and had a size other than -1 on the rewriter as
    it was at that moment. *)
Theorem replacements_are_guarded_by_canRewrite :
  forall (R : list Edit) (toRewrite : list DAndReplace) (Files : list FileID)
         (R' : list Edit) (Files' : list FileID),
    rewrite getSourceRange getReturnTypeSourceRange getLocation getInitializerStartLoc
      isValid getRangeSize getExpansionLoc getFileID printPretty print
      R toRewrite Files = Some (R', Files') ->
    exists added,
      R' = R ++ added /\
      forall pre SR s post,
        added = pre ++ ReplaceText SR s :: post ->
        canRewrite isValid getRangeSize (R ++ pre) SR = true.
Proof.
  intros R toRewrite Files R' Files' Hrun. unfold rewrite in Hrun.
  destruct (rewriteLoop' toRewrite (mkState R Files [])) as [st|] eqn:Hloop;
    [|discriminate].
  injection Hrun as <- <-.
  exact (rewriteLoop_Guarded R toRewrite (mkState R Files []) st (Guarded_refl R) Hloop).
Qed.

(** X18.  rewrite returns whenever its assertions hold of each element:
    every parameter comes without a statement, has a parent function and
    is found among that function's parameters, and every statement with
    several declarators declares variables only.  Invalid or
    macro-expanded ranges, missing statements and declarations of other
    kinds never make it fail: they are passed over. *)
Theorem rewrite_returns_on_well_formed_elements :
  forall (R : list Edit) (toRewrite : list DAndReplace) (Files : list FileID),
    List.Forall wellFormedEntry toRewrite ->
    exists R' Files',
      rewrite getSourceRange getReturnTypeSourceRange getLocation getInitializerStartLoc
        isValid getRangeSize getExpansionLoc getFileID printPretty print
        R toRewrite Files = Some (R', Files').
Proof.
  intros R toRewrite Files Hall. unfold rewrite.
  destruct (rewriteLoop_returns toRewrite (mkState R Files []) Hall) as (st & ->).
  cbn [mbind option_bind]. eexists. eexists. reflexivity.
Qed.

End RewriteFacts.

(** *** From rewrite to emit *)

Section Consumer.

Variable getSourceRange : DeclaratorDecl -> SourceRange.
Variable getReturnTypeSourceRange : FunctionDeclData -> SourceRange.
Variable getLocation : DeclaratorDecl -> SourceLocation.
Variable getInitializerStartLoc : VarDecl -> SourceLocation.
Variable isValid : SourceRange -> bool.
Variable getRangeSize : list Edit -> SourceRange -> Z.
Variable getExpansionLoc : SourceLocation -> SourceLocation.
Variable getFileID : SourceLocation -> FileID.
Variable printPretty : Expr -> string.
Variable print : Decl -> string.

Variable status : string -> option nat.
Variable components : string -> list string.
Variable make_absolute : string -> option string.
Variable remove_filename : string -> string.
Variable remove_leading_dotslash : string -> string.
Variable filename parent_path extension stem : string -> string.
Variable canOpen : string -> bool.

(** SourceManager::getFileEntryForID, Rewriter::getRewriteBufferFor on the
    rewriter as rewrite leaves it, and SourceManager::getMainFileID. *)
Variable fileEntry : FileID -> option string.
Variable rewriteBuffer : list Edit -> FileID -> option string.
Variable MainFileID : FileID.

Variable BaseDir OutputPostfix : string.

Definition touchedFile (R : list Edit) (F : FileID) : TouchedFile :=
  mkTouched (fileEntry F) (rewriteBuffer R F).

(** RewriteConsumer::HandleTranslationUnit from the call of rewrite on.
    casts are the insertions the cast placement has made; the set Files is
    declared empty, is handed to the cast placement, which does not add to
    it, and then to rewrite and to emit. *)
Definition rewriteAndEmit (casts : Rewriter) (rewriteThese : list DAndReplace)
  (InOutFiles : gset string) : option (list (Destination * string)) :=
  RF ← rewrite getSourceRange getReturnTypeSourceRange getLocation getInitializerStartLoc
         isValid getRangeSize getExpansionLoc getFileID printPretty print
         (map Insert casts) rewriteThese [];
  emit status components make_absolute remove_filename remove_leading_dotslash
    filename parent_path extension stem canOpen BaseDir OutputPostfix
    (touchedFile RF.1 MainFileID) (map (touchedFile RF.1) RF.2) InOutFiles.

(** X15.  With an output postfix other than "-", a file is written only if
    some declaration handed to rewrite starts in it.  The insertions of the
    cast placement do not count: a file in which casts were placed but no
    declaration was to be rewritten is not written, and its casts are
    lost. *)
Theorem only_files_of_rewritten_declarations_are_written :
  forall (casts : Rewriter) (rewriteThese : list DAndReplace) (InOutFiles : gset string)
         (out : list (Destination * string)),
    rewriteAndEmit casts rewriteThese InOutFiles = Some out ->
    String.eqb OutputPostfix "-" = false ->
    forall nFile B,
      In (OutputFile nFile, B) out ->
      exists N name,
        In N rewriteThese /\
        fileEntry (fileOf getSourceRange getFileID N) = Some name /\
        nFile = outputName remove_leading_dotslash filename parent_path extension stem
                  OutputPostfix name.
Proof.
  intros casts rewriteThese InOutFiles out Hrun Hpost nFile B Hin.
  unfold rewriteAndEmit in Hrun.
  destruct (rewrite _ _ _ _ _ _ _ _ _ _ (map Insert casts) rewriteThese [])
    as [[R' Files']|] eqn:Hrw; [|discriminate].
  cbn [mbind option_bind fst snd] in Hrun. unfold emit in Hrun.
  destruct (make_absolute BaseDir) as [baseAbs|]; [|discriminate].
  cbn [mbind option_bind] in Hrun. rewrite Hpost in Hrun. injection Hrun as <-.
  apply in_flat_map in Hin as (F & HF & Hin).
  apply in_map_iff in HF as (g & <- & Hg).
  apply (rewrite_touched
           getSourceRange getReturnTypeSourceRange getLocation getInitializerStartLoc
           isValid getRangeSize getExpansionLoc getFileID printPretty print
           _ _ _ _ _ Hrw g) in Hg as [[]|(N & HN & ->)].
  unfold emitFile, touchedFile in Hin. cbn [getRewriteBufferFor getFileEntryForID] in Hin.
  destruct (rewriteBuffer R' _) as [B'|]; [|destruct Hin].
  destruct (fileEntry _) as [name|] eqn:Hname; [|destruct Hin].
  cbv zeta in Hin.
  destruct (canWrite _ _ _ _ _); [|destruct Hin].
  destruct (canOpen _); [|destruct Hin].
  destruct Hin as [[= <- <-]|[]].
  exists N, name. auto.
Qed.

End Consumer.

(** *** A translation unit with three local declarations

    int *a, *b;  and  int *c = 0;  in one file, and a cast placed in a
    second file. *)

Definition c_getSourceRange (d : DeclaratorDecl) : SourceRange :=
  mkRange (declId d * 10) (declId d * 10 + 5).
Definition c_getReturnTypeSourceRange (UD : FunctionDeclData) : SourceRange :=
  mkRange (declId (fnDecl UD) * 10) (declId (fnDecl UD) * 10 + 3).
Definition c_getLocation (d : DeclaratorDecl) : SourceLocation := declId d * 10 + 4.
Definition c_getInitializerStartLoc (VD : VarDecl) : SourceLocation :=
  declId (vdDecl VD) * 10 + 6.
Definition c_isValid (SR : SourceRange) : bool := negb (Nat.eqb (getBegin SR) 0).
Definition c_getRangeSize (R : list Edit) (SR : SourceRange) : Z :=
  Z.of_nat (getEnd SR - getBegin SR).
Definition c_getFileID (l : SourceLocation) : FileID := l / 1000.
Definition c_printPretty (e : Expr) : string := "0".
Definition c_print (D : Decl) : string := "int *x".

Definition c_rewrite :=
  rewrite c_getSourceRange c_getReturnTypeSourceRange c_getLocation
    c_getInitializerStartLoc c_isValid c_getRangeSize id c_getFileID
    c_printPretty c_print.

Definition var_a : VarDecl := Scenarios.local 10 2 "a" (TPointer TInt) None.
Definition var_b : VarDecl := Scenarios.local 11 2 "b" (TPointer TInt) None.
Definition var_c : VarDecl :=
  Scenarios.local 12 3 "c" (TPointer TInt) (Some (IntegerLiteral 0 127)).

Definition stmt_ab : DeclStmtR :=
  {| stmtId := 1; stmtRange := mkRange 96 116; stmtDecls := [VarDeclD var_a; VarDeclD var_b] |}.
Definition stmt_c : DeclStmtR :=
  {| stmtId := 2; stmtRange := mkRange 116 128; stmtDecls := [VarDeclD var_c] |}.

Definition three_declarations : list DAndReplace :=
  [ ((VarDeclD var_a, Some stmt_ab), "ptr<int> a");
    ((VarDeclD var_b, Some stmt_ab), "ptr<int> b");
    ((VarDeclD var_c, Some stmt_c), "ptr<int> c") ].

Lemma rewrite_touches_the_file_of_each_declaration_witness :
  exists R' Files',
    (c_rewrite [] three_declarations [] = Some (R', Files')) /\
    (Files' = [0]) /\
    (In 0 Files' <->
     In 0 [] \/ exists N, In N three_declarations /\ 0 = fileOf c_getSourceRange c_getFileID N).
Proof.
  eexists. eexists. split; [reflexivity|]. split; [reflexivity|].
  eapply (rewrite_touches_the_file_of_each_declaration
            c_getSourceRange c_getReturnTypeSourceRange c_getLocation
            c_getInitializerStartLoc c_isValid c_getRangeSize id c_getFileID
            c_printPretty c_print [] three_declarations []).
  reflexivity.
Defined.

Lemma each_statement_is_removed_once_witness :
  exists R' Files',
    (c_rewrite [] three_declarations [] = Some (R', Files')) /\
    (length R' = 3) /\
    (removals R' = removals [] ++ map stmtRange (distinctStmts three_declarations [])) /\
    (distinctStmts three_declarations [] = [stmt_ab]).
Proof.
  eexists. eexists. split; [reflexivity|]. split; [reflexivity|]. split; [|reflexivity].
  apply (each_statement_is_removed_once
           c_getSourceRange c_getReturnTypeSourceRange c_getLocation
           c_getInitializerStartLoc c_isValid c_getRangeSize id c_getFileID
           c_printPretty c_print [] three_declarations [] _ [0]).
  reflexivity.
Defined.

Lemma replacements_are_guarded_by_canRewrite_witness :
  exists R' Files' pre post,
    (c_rewrite [] three_declarations [] = Some (R', Files')) /\
    (R' = pre ++ ReplaceText (mkRange 120 126) "ptr<int> c = " :: post) /\
    (canRewrite c_isValid c_getRangeSize ([] ++ pre) (mkRange 120 126) = true).
Proof.
  destruct (replacements_are_guarded_by_canRewrite
              c_getSourceRange c_getReturnTypeSourceRange c_getLocation
              c_getInitializerStartLoc c_isValid c_getRangeSize id c_getFileID
              c_printPretty c_print [] three_declarations []
              _ [0] eq_refl) as (added & Hadded & Hguard).
  simpl in Hadded. subst added.
  eexists. exists [0]. eexists [_; _]. exists [].
  split; [reflexivity|]. split; [reflexivity|].
  apply (Hguard _ _ "ptr<int> c = " []). reflexivity.
Defined.

Lemma three_declarations_well_formed : List.Forall wellFormedEntry three_declarations.
Proof.
  repeat constructor; intros _; repeat constructor.
Qed.

Lemma rewrite_returns_on_well_formed_elements_witness :
  exists R' Files', c_rewrite [] three_declarations [] = Some (R', Files').
Proof.
  exact (rewrite_returns_on_well_formed_elements
           c_getSourceRange c_getReturnTypeSourceRange c_getLocation
           c_getInitializerStartLoc c_isValid c_getRangeSize id c_getFileID
           c_printPretty c_print [] three_declarations []
           three_declarations_well_formed).
Defined.

(** The file "b.c" holds a cast and no rewritten declaration: only "a.c"
    is written. *)
Definition c_fileEntry (F : FileID) : option string :=
  match F with
  | 0 => Some "a.c"
  | 1 => Some "b.c"
  | _ => None
  end.

Definition c_rewriteAndEmit :=
  rewriteAndEmit c_getSourceRange c_getReturnTypeSourceRange c_getLocation
    c_getInitializerStartLoc c_isValid c_getRangeSize id c_getFileID c_printPretty c_print
    (fun _ => Some 0) (fun _ => []) Some id id
    id (fun _ => EmptyString) (fun _ => ".c")
    (fun n => String.substring 0 1 n) (fun _ => true)
    c_fileEntry (fun _ _ => Some "text") 0 "/" "checked".

Lemma only_files_of_rewritten_declarations_are_written_witness :
  exists out,
    (c_rewriteAndEmit [InsertTextBefore 1500 "(int *)"] three_declarations
       {["a.c"; "b.c"]} = Some out) /\
    (out = [(OutputFile "a.checked.c", "text")]) /\
    exists N name,
      In N three_declarations /\
      c_fileEntry (fileOf c_getSourceRange c_getFileID N) = Some name /\
      "a.checked.c" = outputName id id (fun _ => EmptyString) (fun _ => ".c")
                        (fun n => String.substring 0 1 n) "checked" name.
Proof.
  eexists. split; [reflexivity|]. split; [reflexivity|].
  apply (only_files_of_rewritten_declarations_are_written
           c_getSourceRange c_getReturnTypeSourceRange c_getLocation
           c_getInitializerStartLoc c_isValid c_getRangeSize id c_getFileID
           c_printPretty c_print
           (fun _ => Some 0) (fun _ => []) Some id id
           id (fun _ => EmptyString) (fun _ => ".c")
           (fun n => String.substring 0 1 n) (fun _ => true)
           c_fileEntry (fun _ _ => Some "text") 0 "/" "checked"
           [InsertTextBefore 1500 "(int *)"] three_declarations {["a.c"; "b.c"]}
           _ eq_refl eq_refl "a.checked.c" "text").
  now left.
Defined.

End RewriteExtras.

(* ===================================================================== *)
(** ** More of canWrite: what lies below an accepted path *)
(* ===================================================================== *)

Module WriteExtras.

Import WritePolicy.

Lemma firstn_app_le {A} (k : nat) (l extra : list A) :
  k <= length l -> firstn k (l ++ extra) = firstn k l.
Proof.
  intros Hk. rewrite firstn_app. replace (k - length l) with 0 by lia.
  simpl. apply app_nil_r.
Qed.

Lemma canWriteLoop_descendant status (components : string -> list string) bs ps extra B P :
  canWriteLoop status bs ps B P = true ->
  canWriteLoop status bs (ps ++ extra) B P = true.
Proof.
  rewrite !(canWriteLoop_true status components). intros (Hlen & Hst & Heq).
  split; [rewrite length_app; lia|]. split.
  - intros k Hk. destruct (Hst k Hk) as (st & Hb & Hp). exists st. split; [exact Hb|].
    rewrite firstn_app_le by lia. exact Hp.
  - rewrite firstn_app_le by lia. exact Heq.
Qed.

(** X16.  The paths canWrite accepts on account of the base directory are
    closed under descent: if a path is accepted without being one of the
    paths of the command line, every path whose components continue its
    components is accepted too, whatever the file system says about the
    added components, which are never looked at. *)
Theorem canWrite_accepts_what_lies_below :
  forall (status : string -> option nat) (components : string -> list string)
         (filePath below : string) (extra : list string) (iof : gset string) (b : string),
    components filePath <> [] ->
    components below = components filePath ++ extra ->
    canWrite status components filePath ∅ b = true ->
    canWrite status components below iof b = true.
Proof.
  intros status components filePath below extra iof b Hne Hbelow Hcan.
  unfold canWrite in *. destruct (decide (below ∈ iof)); [reflexivity|].
  destruct (decide (filePath ∈ ∅)) as [Hin|_]; [now apply not_elem_of_empty in Hin|].
  cbv zeta in *. rewrite Hbelow.
  destruct (components filePath) as [|c cs]; [congruence|].
  simpl in *. now apply (canWriteLoop_descendant status components).
Qed.

Lemma canWrite_accepts_what_lies_below_witness :
  canWrite symlink_fs posix_components "/a/b/d/x.c" ∅ "/a/b" = true.
Proof.
  apply (canWrite_accepts_what_lies_below symlink_fs posix_components
           "/a/b/d" "/a/b/d/x.c" ["x.c"] ∅ "/a/b").
  - discriminate.
  - reflexivity.
  - reflexivity.
Defined.

End WriteExtras.
